(** * typed-intl: language tags, translators and selections

    A shallow embedding of [LanguageTag.ts], [Translator.ts] and the
    [select]/[selectObject] part of [Format.ts], together with the
    properties their documentation and specification state about them.

    Conventions of the embedding.
    - A JavaScript string is a [string] of 8-bit characters; [toLowerCase]
      and [toUpperCase] act on the ASCII letters and leave every other
      character alone, and a character outside ASCII never matches a
      character class of the tag pattern.  On a text of ASCII characters
      ([ascii_text]) this is what JavaScript does; on other texts it is
      not (the Kelvin sign, for one, lower-cases to [k] there), so a
      property about the parsing of an arbitrary text is stated for ASCII
      texts.
    - An object that is only ever read after its construction (a
      [LanguageTagImpl]) is a record that carries the address it was
      allocated at; [===] on two such objects compares the addresses.
    - The module-level [languageTags] registry is threaded explicitly: a
      function that reads or writes it takes the registry and returns the
      new one.
    - A [throw] is the [Throw] case of [result].
    - [equality] returns the quotient of two integers below 64; it is kept
      as an exact rational.  Two such quotients compare under IEEE-754
      double division exactly as the rationals do (distinct quotients are
      at least 1/3969 apart), so every [>] and [===] of the source is
      decided the same way here. *)

From Stdlib Require Import Ascii String QArith Lia.
From stdpp Require Import gmap strings list.

Local Open Scope string_scope.
Local Open Scope list_scope.

(** ** JavaScript strings *)

Module JsString.

Definition code (c : ascii) : nat := nat_of_ascii c.

Definition in_range (lo hi c : ascii) : bool :=
  (code lo <=? code c)%nat && (code c <=? code hi)%nat.

Definition is_lower (c : ascii) : bool := in_range "a" "z" c.
Definition is_upper (c : ascii) : bool := in_range "A" "Z" c.
Definition is_digit (c : ascii) : bool := in_range "0" "9" c.

Definition lower_char (c : ascii) : ascii :=
  if is_upper c then ascii_of_nat (code c + 32) else c.

Definition upper_char (c : ascii) : ascii :=
  if is_lower c then ascii_of_nat (code c - 32) else c.

Fixpoint map_chars (f : ascii -> ascii) (s : string) : string :=
  match s with
  | EmptyString => EmptyString
  | String c t => String (f c) (map_chars f t)
  end.

Definition toLowerCase : string -> string := map_chars lower_char.
Definition toUpperCase : string -> string := map_chars upper_char.

(** [s.substr(1)] *)
Definition substr1 (s : string) : string :=
  match s with
  | EmptyString => EmptyString
  | String _ t => t
  end.

(** [s[0]] as a string; the empty string stands for [undefined], which
    the callers never reach. *)
Definition first_char (s : string) : string :=
  match s with
  | EmptyString => EmptyString
  | String c _ => String c EmptyString
  end.

(** Truthiness of a string: every string but the empty one. *)
Definition truthy (s : string) : bool :=
  match s with
  | EmptyString => false
  | String _ _ => true
  end.

(** Truthiness of [string | undefined]. *)
Definition truthy_opt (o : option string) : bool :=
  match o with
  | Some s => truthy s
  | None => false
  end.

(** The first [n] characters. *)
Fixpoint prefix (n : nat) (s : string) : string :=
  match n, s with
  | S n', String c t => String c (prefix n' t)
  | _, _ => EmptyString
  end.

End JsString.

(** ** Regular expressions

    The fragment of ECMAScript regular expressions the tag pattern is
    written in, with the backtracking matcher of the language definition:
    a matcher takes the rest of the input, the captures so far and a
    continuation, and a quantifier is greedy. *)

Module RegExp.
Import JsString.

Inductive re : Type :=
| Bol                                   (* ^ *)
| Eol                                   (* $ *)
| Chr (c : ascii)                       (* a literal character *)
| Cls (ranges : list (ascii * ascii))   (* [a-z0-9] *)
| Seq (r1 r2 : re)
| Alt (r1 r2 : re)                      (* r1|r2 *)
| Rep (min : nat) (max : option nat) (r : re)   (* r{min,max}, r?, r+ *)
| Grp (n : nat) (r : re)                (* the n-th capturing group *)
| NGrp (r : re).                        (* (?:r) *)

Definition Opt (r : re) : re := Rep 0 (Some 1) r.
Definition Plus (r : re) : re := Rep 1 None r.

Abbreviation captures := (gmap nat string).

(** The matcher state: how many characters lie before the current
    position, and the characters from it on. *)
Record state := St { pos : nat; rest : string }.

Definition advance (x : state) : option (ascii * state) :=
  match rest x with
  | EmptyString => None
  | String c t => Some (c, St (S (pos x)) t)
  end.

(** Character comparison; under the [i] flag both sides are
    canonicalised, which on ASCII identifies a letter with its other
    case. *)
Definition chr_matches (ignoreCase : bool) (p c : ascii) : bool :=
  if ignoreCase then bool_decide (upper_char p = upper_char c)
  else bool_decide (p = c).

Definition cls_matches (ignoreCase : bool) (ranges : list (ascii * ascii))
    (c : ascii) : bool :=
  existsb (fun r =>
             in_range (fst r) (snd r) c
             || (ignoreCase &&
                  (in_range (fst r) (snd r) (lower_char c)
                   || in_range (fst r) (snd r) (upper_char c))))
          ranges.

(** The matcher of a quantifier [r{min,max}], given the matcher [step] of
[r] and the continuation [k]: at most [budget] further iterations, each
tried before the continuation is; an iteration that consumes nothing
once [min] is reached is refused. *)
Section Repeat.
Variable step : state -> captures ->
                (state -> captures -> option (state * captures)) ->
                option (state * captures).
Variable k : state -> captures -> option (state * captures).

Fixpoint repeat (budget min : nat) (x : state) (c : captures)
    : option (state * captures) :=
  match budget with
  | O => if (min =? 0)%nat then k x c else None
  | S budget' =>
      let iterate :=
        step x c (fun y c' =>
          if (min =? 0)%nat && (pos y =? pos x)%nat then None
          else repeat budget' (Nat.pred min) y c') in
      if (min =? 0)%nat then
        match iterate with
        | Some res => Some res
        | None => k x c
        end
      else iterate
  end.
End Repeat.

Section Matcher.
Variable ignoreCase : bool.

Definition matched (x y : state) : string :=
  prefix (pos y - pos x) (rest x).

(** The iterations a quantifier can make at [x]: [max] of them, and
without a [max] as many as [min] and the rest of the input allow. *)
Definition budget_of (min : nat) (max : option nat) (x : state) : nat :=
  match max with
  | Some mx => mx
  | None => min + String.length (rest x)
  end.

Fixpoint m (r : re) (x : state) (c : captures)
    (k : state -> captures -> option (state * captures))
    : option (state * captures) :=
  match r with
  | Bol => if (pos x =? 0)%nat then k x c else None
  | Eol => if truthy (rest x) then None else k x c
  | Chr p =>
      match advance x with
      | Some (ch, y) => if chr_matches ignoreCase p ch then k y c else None
      | None => None
      end
  | Cls ranges =>
      match advance x with
      | Some (ch, y) => if cls_matches ignoreCase ranges ch then k y c else None
      | None => None
      end
  | Seq r1 r2 => m r1 x c (fun y c' => m r2 y c' k)
  | Alt r1 r2 =>
      match m r1 x c k with
      | Some res => Some res
      | None => m r2 x c k
      end
  | Rep min max r' => repeat (m r') k (budget_of min max x) min x c
  | Grp n r' => m r' x c (fun y c' => k y (<[n := matched x y]> c'))
  | NGrp r' => m r' x c k
  end.

(** One attempt of the whole pattern at the position [x]; capture 0
    is the matched text. *)
Definition match_at (r : re) (x : state) : option captures :=
  match m r x ∅ (fun y c => Some (y, c)) with
  | Some (y, c) => Some (<[0%nat := matched x y]> c)
  | None => None
  end.
End Matcher.

(** [r.exec(s)] of a pattern without the [g] flag: the first position
    from the left at which an attempt succeeds. *)
Fixpoint exec_from (ignoreCase : bool) (r : re) (x : state) (n : nat)
    : option captures :=
  match match_at ignoreCase r x with
  | Some c => Some c
  | None =>
      match n, advance x with
      | S n', Some (_, y) => exec_from ignoreCase r y n'
      | _, _ => None
      end
  end.

Definition exec (ignoreCase : bool) (r : re) (s : string) : option captures :=
  exec_from ignoreCase r (St 0 s) (String.length s).

End RegExp.

Declare Scope re_scope.
Delimit Scope re_scope with re.
Bind Scope re_scope with RegExp.re.
Infix "+>" := RegExp.Seq (at level 60, right associativity) : re_scope.

(** ** Results of calls that may throw *)

Inductive result (A : Type) : Type :=
| Return (a : A)
| Throw (message : string).
Arguments Return {A} a.
Arguments Throw {A} message.

(** ** LanguageTag.ts *)

(** A [LanguageTagImpl] object: the address it was allocated at and its
  read-only fields.  An absent optional field is [None]. *)
Record LanguageTag : Type := mkLanguageTag {
  addr : nat;
  tag : string;
  language : string;
  extendedLanguage : option string;
  script : option string;
  region : option string;
  variant : option string;
  extension : option string
}.

(** [a === b] on two tag objects. *)
Definition same (a b : LanguageTag) : bool := (addr a =? addr b)%nat.

Import JsString.

(** [transform] of the constructor. *)
Definition transform (t : option string) (f : string -> string) : option string :=
  match t with
  | Some x => if truthy x then Some (f x) else None
  | None => None
  end.

(** [subtag] of the constructor. *)
Definition subtag (t : option string) : string :=
  match t with
  | Some x => if truthy x then "-" +:+ x else ""
  | None => ""
  end.

Definition titleCase (x : string) : string :=
  toUpperCase (first_char x) +:+ toLowerCase (substr1 x).

(** [new LanguageTagImpl(...)], placed at address [a]. *)
Definition LanguageTagImpl (a : nat) (language : string)
    (extendedLanguage script region variant extension : option string)
    : LanguageTag :=
  let this_language := toLowerCase language in
  let this_extendedLanguage := transform extendedLanguage toLowerCase in
  let this_script := transform script titleCase in
  let this_region := transform region toUpperCase in
  let this_variant := transform variant toLowerCase in
  let this_extension := transform extension toLowerCase in
  {| addr := a;
     tag := toLowerCase language +:+
            subtag this_extendedLanguage +:+
            subtag this_script +:+
            subtag this_region +:+
            subtag this_variant +:+
            subtag this_extension;
     language := this_language;
     extendedLanguage := this_extendedLanguage;
     script := this_script;
     region := this_region;
     variant := this_variant;
     extension := this_extension |}.

(** The tag pattern, group by group as the source writes it. *)
Definition lower_letter : RegExp.re := RegExp.Cls [("a", "z")]%char.
Definition digit : RegExp.re := RegExp.Cls [("0", "9")]%char.
Definition alnum : RegExp.re := RegExp.Cls [("a", "z"); ("0", "9")]%char.
Definition digit_or_letter : RegExp.re := RegExp.Cls [("0", "9"); ("a", "z")]%char.
Definition dash : RegExp.re := RegExp.Chr "-".

Definition times (lo hi : nat) (r : RegExp.re) : RegExp.re :=
RegExp.Rep lo (Some hi) r.

Definition pattern : RegExp.re :=
(RegExp.Bol +>
 RegExp.Grp 1 (times 2 3 lower_letter) +>
 RegExp.Opt (RegExp.Grp 2 (dash +> times 3 3 lower_letter)) +>
 RegExp.Opt (RegExp.Grp 3 (dash +> times 4 4 lower_letter)) +>
 RegExp.Opt (RegExp.Grp 4 (RegExp.Alt (dash +> times 2 2 lower_letter)
                                      (times 3 3 digit))) +>
 RegExp.Opt (RegExp.Grp 5 (RegExp.Alt
                             (RegExp.NGrp (dash +> times 5 8 lower_letter))
                             (RegExp.NGrp (dash +> digit +> times 3 3 alnum)))) +>
 RegExp.Opt (RegExp.Grp 6 (dash +> digit_or_letter +>
                           RegExp.Plus (RegExp.NGrp (dash +> times 1 8 alnum)))) +>
 RegExp.Eol)%re.

(** The registry object [languageTags]: the [instances] map, and the
  number of tag objects allocated so far, which is the address of the
  next one. *)
Record LanguageTags : Type := mkLanguageTags {
  instances : gmap string LanguageTag;
  allocated : nat
}.

Definition no_tags : LanguageTags := mkLanguageTags ∅ 0.

(** [group] of [createFromString]. *)
Definition group (m : RegExp.captures) (n : nat) : option string :=
  if truthy_opt (m !! n) then substr1 <$> (m !! n) else None.

Definition createFromString (unifiedTag : string) (this : LanguageTags)
    : result LanguageTag * LanguageTags :=
  match RegExp.exec true pattern unifiedTag with
  | None => (Throw ("Invalid language tag " +:+ unifiedTag), this)
  | Some match_ =>
      let language := default "" (match_ !! 1%nat) in
      let extendedLanguage := group match_ 2 in
      let script := group match_ 3 in
      let region := group match_ 4 in
      let variant := group match_ 5 in
      let extension := group match_ 6 in
      let instance :=
        LanguageTagImpl (allocated this) language extendedLanguage
          script region variant extension in
      (Return instance,
       mkLanguageTags (<[unifiedTag := instance]> (instances this))
                      (S (allocated this)))
  end.

Definition fromString (tag : string) (this : LanguageTags)
    : result LanguageTag * LanguageTags :=
  let unifiedTag := toLowerCase tag in
  match instances this !! unifiedTag with
  | Some existing => (Return existing, this)
  | None => createFromString unifiedTag this
  end.

(** [unifiedSubtag] of [fromSubTags]. *)
Definition unifiedSubtag (t : option string) : string :=
  match t with
  | Some x => if truthy x then "-" +:+ toLowerCase x else ""
  | None => ""
  end.

Definition fromSubTags (language : string)
    (extendedLanguage script region variant extension : option string)
    (this : LanguageTags) : LanguageTag * LanguageTags :=
  let unifiedTag :=
    toLowerCase language +:+
    unifiedSubtag extendedLanguage +:+
    unifiedSubtag script +:+
    unifiedSubtag region +:+
    unifiedSubtag variant +:+
    unifiedSubtag extension in
  match instances this !! unifiedTag with
  | Some existing => (existing, this)
  | None =>
      let tag :=
        LanguageTagImpl (allocated this) language extendedLanguage
          script region variant extension in
      (tag,
       mkLanguageTags (<[unifiedTag := tag]> (instances this))
                      (S (allocated this)))
  end.

(** [languageTag(tag)] *)
Definition languageTag (tag : string) (reg : LanguageTags)
  : result LanguageTag * LanguageTags :=
fromString tag reg.

(** *** Methods of [LanguageTagImpl] *)

Definition matches (this other : LanguageTag) : bool :=
  bool_decide (language this = language other).

(** [others.find(...) !== undefined] *)
Definition matchesOneOf (this : LanguageTag) (others : list LanguageTag) : bool :=
  match List.find (fun other => matches this other) others with
  | Some _ => true
  | None => false
  end.

Definition withoutExtension (this : LanguageTag) :=
  fromSubTags (language this) (extendedLanguage this) (script this)
    (region this) (variant this) None.

Definition withoutVariant (this : LanguageTag) :=
  fromSubTags (language this) (extendedLanguage this) (script this)
    (region this) None None.

Definition withoutRegion (this : LanguageTag) :=
  fromSubTags (language this) (extendedLanguage this) (script this)
    None None None.

Definition withoutScript (this : LanguageTag) :=
  fromSubTags (language this) (extendedLanguage this) None None None None.

Definition withoutExtendedLanguage (this : LanguageTag) :=
  fromSubTags (language this) None None None None None.

Definition defined (r : LanguageTag * LanguageTags)
    : option LanguageTag * LanguageTags :=
  (Some (fst r), snd r).

Definition parent (this : LanguageTag) (reg : LanguageTags)
    : option LanguageTag * LanguageTags :=
  if truthy_opt (extension this) then defined (withoutExtension this reg)
  else if truthy_opt (variant this) then defined (withoutVariant this reg)
  else if truthy_opt (region this) then defined (withoutRegion this reg)
  else if truthy_opt (script this) then defined (withoutScript this reg)
  else if truthy_opt (extendedLanguage this) then
    defined (withoutExtendedLanguage this reg)
  else (None, reg).

(** [a || b ? p : 0] on two optional subtags. *)
Definition either_set (a b : option string) (p : Z) : Z :=
  if truthy_opt a || truthy_opt b then p else 0%Z.

(** [a === b ? p : 0] on two optional subtags. *)
Definition both_equal (a b : option string) (p : Z) : Z :=
  if bool_decide (a = b) then p else 0%Z.

Definition extensionPoints : Z := 1.
Definition variantPoints : Z := 2.
Definition regionPoints : Z := 4.
Definition scriptPoints : Z := 8.
Definition extendedLanguagePoints : Z := 16.
Definition languagePoints : Z := 32.

Definition possiblePoints (this other : LanguageTag) : Z :=
  languagePoints +
  either_set (extension this) (extension other) extensionPoints +
  either_set (variant this) (variant other) variantPoints +
  either_set (region this) (region other) regionPoints +
  either_set (script this) (script other) scriptPoints +
  either_set (extendedLanguage this) (extendedLanguage other)
    extendedLanguagePoints.

Definition points (this other : LanguageTag) : Z :=
  languagePoints +
  both_equal (extension this) (extension other) extensionPoints +
  both_equal (variant this) (variant other) variantPoints +
  both_equal (region this) (region other) regionPoints +
  both_equal (script this) (script other) scriptPoints +
  both_equal (extendedLanguage this) (extendedLanguage other)
    extendedLanguagePoints.

Definition equality (this other : LanguageTag) : Q :=
  if bool_decide (language this = language other) then
    (inject_Z (points this other) / inject_Z (possiblePoints this other))%Q
  else 0%Q.

(** [a > b] on two scores. *)
Definition gt (a b : Q) : bool :=
  match Qcompare a b with
  | Gt => true
  | _ => false
  end.

(** The local [Match] record of [pickBestMatching]. *)
Record Match : Type := mkMatch {
  match_equality : Q;
  match_other : option LanguageTag
}.

Definition pickBestMatching (this : LanguageTag) (others : list LanguageTag)
    : option LanguageTag :=
  let bestEquality :=
    fold_left
      (fun bestEquality other =>
         let equality := equality this other in
         if gt equality (match_equality bestEquality)
         then mkMatch equality (Some other)
         else bestEquality)
      others (mkMatch 0%Q None) in
  match_other bestEquality.

(** ** Translator.ts *)

(** A messages object: its own properties.  The message values of the
    embedding are strings. *)
Abbreviation Messages := (gmap string string).

(** [{...a, ...b}] *)
Definition spread (a b : Messages) : Messages := b ∪ a.

Definition LocalizedMessages : Type := LanguageTag -> Messages.

(** [M | LocalizedMessages<M>] *)
Inductive MessagesParameter : Type :=
| Plain (messages : Messages)
| Localized (messages : LocalizedMessages).

Definition localizedMessages (messages : MessagesParameter) : LocalizedMessages :=
  match messages with
  | Localized f => f
  | Plain m => fun _ => m
  end.

(** [LanguageTag | string] *)
Inductive Language : Type :=
| OfTag (t : LanguageTag)
| OfString (s : string).

(** [tag(language)] *)
Definition tag_ (language : Language) (reg : LanguageTags)
    : result LanguageTag * LanguageTags :=
  match language with
  | OfString s => languageTag s reg
  | OfTag t => (Return t, reg)
  end.

(** A JavaScript [Map] whose keys are tag objects: keys are compared by
    identity and kept in insertion order. *)
Module JsMap.
Section JsMap.
Context {V : Type}.

Definition t : Type := list (LanguageTag * V).

Fixpoint get (k : LanguageTag) (m : t) : option V :=
  match m with
  | [] => None
  | (k', v) :: m' => if same k' k then Some v else get k m'
  end.

Fixpoint set (k : LanguageTag) (v : V) (m : t) : t :=
  match m with
  | [] => [(k, v)]
  | (k', v') :: m' =>
      if same k' k then (k', v) :: m' else (k', v') :: set k v m'
  end.

Definition keys (m : t) : list LanguageTag := fst <$> m.
End JsMap.
Arguments t V : clear implicits.
End JsMap.

Record MessageCache (M : Type) : Type := mkMessageCache {
  cache_language : LanguageTag;
  cache_messages : M
}.
Arguments mkMessageCache {M} _ _.
Arguments cache_language {M} _.
Arguments cache_messages {M} _.

(** The abstract class: [buildMessages] is whatever the subclass does.  It
    runs in a world [W] (everything outside the provider it may read or
    change) and returns a reference [M] to a messages object; [None] is a
    call that does not return. *)
Module CachedMessageProvider.
Section CachedMessageProvider.
Context {M W : Type}.
Variable buildMessages : LanguageTag -> W -> option (M * W).

Definition messagesFor (messageCache : option (MessageCache M))
    (language : LanguageTag) (w : W)
    : option (M * option (MessageCache M) * W) :=
  match messageCache with
  | Some cache =>
      if same (cache_language cache) language
      then Some (cache_messages cache, messageCache, w)
      else
        '(messages, w') ← buildMessages language w;
        Some (messages, Some (mkMessageCache language messages), w')
  | None =>
      '(messages, w') ← buildMessages language w;
      Some (messages, Some (mkMessageCache language messages), w')
  end.
End CachedMessageProvider.
End CachedMessageProvider.

Record Translator : Type := mkTranslator {
  defaultMessages : LocalizedMessages;
  translations : JsMap.t LocalizedMessages;
  supportedLanguages : list LanguageTag;
  messageCache : option (MessageCache Messages)
}.

Module TranslatorImpl.

(** [new TranslatorImpl(defaultMessages, translations)] *)
Definition new (defaultMessages : LocalizedMessages)
    (translations : JsMap.t LocalizedMessages) : Translator :=
  {| defaultMessages := defaultMessages;
     translations := translations;
     supportedLanguages := JsMap.keys translations;
     messageCache := None |}.

Definition partiallySupporting (this : Translator) (language : Language)
    (translation : MessagesParameter) (reg : LanguageTags)
    : result Translator * LanguageTags :=
  let translations := translations this in
  match tag_ language reg with
  | (Return lang, reg') =>
      let translations :=
        JsMap.set lang (localizedMessages translation) translations in
      (Return (new (defaultMessages this) translations), reg')
  | (Throw e, reg') => (Throw e, reg')
  end.

Definition supporting (this : Translator) (language : string)
    (translation : MessagesParameter) (reg : LanguageTags)
    : result Translator * LanguageTags :=
  partiallySupporting this (OfString language) translation reg.

(** [buildRecursive]; [depth] bounds the nesting of the calls, and
    running into the bound is a call that does not return. *)
Fixpoint buildRecursive (depth : nat) (this : Translator) (base : Messages)
    (requestedLanguage : LanguageTag)
    (translationLanguage : option LanguageTag) (reg : LanguageTags)
    : option (Messages * LanguageTags) :=
  match depth with
  | O => None
  | S depth' =>
      match translationLanguage with
      | Some tl =>
          match JsMap.get tl (translations this) with
          | Some translation =>
              let '(up, reg1) := parent tl reg in
              '(mergedBase, reg2) ←
                buildRecursive depth' this base requestedLanguage up reg1;
              Some (spread mergedBase (translation requestedLanguage), reg2)
          | None =>
              let '(up, reg1) := parent tl reg in
              buildRecursive depth' this base requestedLanguage up reg1
          end
      | None => Some (base, reg)
      end
  end.

Definition buildMessages (depth : nat) (this : Translator)
    (language : LanguageTag) (reg : LanguageTags)
    : option (Messages * LanguageTags) :=
  let bestMatchingLanguage :=
    pickBestMatching language (supportedLanguages this) in
  buildRecursive depth this (defaultMessages this language) language
    bestMatchingLanguage reg.

(** The translator after an assignment to [this.messageCache]. *)
Definition withCache (this : Translator)
    (cache : option (MessageCache Messages)) : Translator :=
  {| defaultMessages := defaultMessages this;
     translations := translations this;
     supportedLanguages := supportedLanguages this;
     messageCache := cache |}.

(** [messagesFor] inherited from [CachedMessageProvider]; the cache is
    the one field of the translator that changes. *)
Definition messagesFor (depth : nat) (this : Translator)
    (language : LanguageTag) (reg : LanguageTags)
    : option (Messages * Translator * LanguageTags) :=
  '(messages, cache, reg') ←
    CachedMessageProvider.messagesFor (buildMessages depth this)
      (messageCache this) language reg;
  Some (messages, withCache this cache, reg').

End TranslatorImpl.

(** [translate(defaultMessages)] *)
Definition translate (defaultMessages : MessagesParameter) : Translator :=
  TranslatorImpl.new (localizedMessages defaultMessages) [].

(** [pickPreferredLanguage]; [None] is the [undefined] that
    [usersPreferredLanguages[0]] is on an empty array. *)
Definition pickPreferredLanguage (availableTranslations : list LanguageTag)
    (usersPreferredLanguages : list LanguageTag) : option LanguageTag :=
  match List.find (fun navLang => matchesOneOf navLang availableTranslations)
                  usersPreferredLanguages with
  | Some bestLanguagePreference => Some bestLanguagePreference
  | None => List.head usersPreferredLanguages
  end.

(** *** The preferred language *)

(** [texts.map(l => languageTag(l))] *)
Fixpoint mapLanguageTag (texts : list string) (reg : LanguageTags)
    : result (list LanguageTag) * LanguageTags :=
  match texts with
  | [] => (Return [], reg)
  | l :: texts' =>
      match languageTag l reg with
      | (Return t, reg1) =>
          match mapLanguageTag texts' reg1 with
          | (Return ts, reg2) => (Return (t :: ts), reg2)
          | (Throw e, reg2) => (Throw e, reg2)
          end
      | (Throw e, reg1) => (Throw e, reg1)
      end
  end.


(** The module-level state of [Translator.ts], next to the registry of
    [LanguageTag.ts]. *)
Record Globals : Type := mkGlobals {
  registry : LanguageTags;
  _preferredLanguage : option LanguageTag
}.


Definition preferredLanguage (g : Globals) : option LanguageTag :=
  _preferredLanguage g.




(** What a call of [messages()] does. *)
Inductive messages_call : Type :=
| MessagesOf (messages : Messages) (this : Translator) (g : Globals)
| TypeErrorOfUndefined.
    (* [language.pickBestMatching] on the [undefined] that
       [preferredLanguage()] returned *)

(** [messages()] of a translator; [None] is a call that does not return. *)
Definition messages (depth : nat) (this : Translator) (g : Globals)
    : option messages_call :=
  match preferredLanguage g with
  | Some language =>
      '(m, this', reg') ←
        TranslatorImpl.messagesFor depth this language (registry g);
      Some (MessagesOf m this' (mkGlobals reg' (_preferredLanguage g)))
  | None => Some TypeErrorOfUndefined
  end.

(** *** [ExtendingMessageProvider]

    [base] and [extension] are the [messagesFor] of the two providers, in
    the world of everything they read or change (their caches, the
    registry). *)
Module ExtendingMessageProvider.
Section ExtendingMessageProvider.
Context {W : Type}.
Variable base extension : LanguageTag -> W -> option (Messages * W).

Definition buildMessages (language : LanguageTag) (w : W)
    : option (Messages * W) :=
  '(fromBase, w1) ← base language w;
  '(fromExtension, w2) ← extension language w1;
  Some (spread fromBase fromExtension, w2).

Definition messagesFor (messageCache : option (MessageCache Messages))
    (language : LanguageTag) (w : W)
    : option (Messages * option (MessageCache Messages) * W) :=
  CachedMessageProvider.messagesFor buildMessages messageCache language w.

End ExtendingMessageProvider.
End ExtendingMessageProvider.

(** The world of [extension.extending(base)] for two translators that
    are two objects: the translators and the registry. *)
Record Extending : Type := mkExtending {
  base_translator : Translator;
  extension_translator : Translator;
  extending_registry : LanguageTags
}.

Definition messagesFor_base (depth : nat) (language : LanguageTag)
    (w : Extending) : option (Messages * Extending) :=
  '(m, this', reg') ←
    TranslatorImpl.messagesFor depth (base_translator w) language
      (extending_registry w);
  Some (m, mkExtending this' (extension_translator w) reg').

Definition messagesFor_extension (depth : nat) (language : LanguageTag)
    (w : Extending) : option (Messages * Extending) :=
  '(m, this', reg') ←
    TranslatorImpl.messagesFor depth (extension_translator w) language
      (extending_registry w);
  Some (m, mkExtending (base_translator w) this' reg').

(** [extension.extending(base).messagesFor(language)], the first call on
    the provider that [extending] has created. *)
Definition extending_messagesFor (depth : nat) (language : LanguageTag)
    (w : Extending) : option (Messages * Extending) :=
  '(m, _, w') ←
    ExtendingMessageProvider.messagesFor (messagesFor_base depth)
      (messagesFor_extension depth) None language w;
  Some (m, w').

(** ** Format.ts: [select] and [selectObject] *)

(** The double quote, for the message of the thrown string. *)
Definition dquote : string := String (ascii_of_nat 34) EmptyString.

(** The names every object created by [{}] answers without owning them:
    the members of [Object.prototype].  Each of them is truthy. *)
Definition objectPrototypeMembers : list string :=
  [ "constructor"; "__defineGetter__"; "__defineSetter__"; "hasOwnProperty";
    "__lookupGetter__"; "__lookupSetter__"; "isPrototypeOf";
    "propertyIsEnumerable"; "toString"; "valueOf"; "__proto__";
    "toLocaleString" ].

(** What a call of the function returned by [selectObject] does. *)
Inductive selection : Type :=
| Message (text : string)
    (* the chosen formatter is applied to the parameters *)
| NoMatchingSelection (thrown : string)
    (* [throw `Selection "..." does not match ...`] *)
| InheritedMember (name : string)
    (* [result] is the member [name] of [Object.prototype], and
       [result(parameters)] calls that instead of a formatter: a
       [TypeError] where the member is no function, as for [__proto__] *)
| ThroughFormatter (name : string).
    (* the lookup of [name] continues in a formatter that an own
       [__proto__] option has installed as the prototype; the embedding
       does not follow it there: the call uses the member of that name
       when the function object has one, and otherwise falls back to
       [other] or throws *)

Module Format.
Section Select.
Context {P : Type}.

(** [formatObject(language, msgFormat)]: the formatter that the
    external [IntlMessageFormat] builds. *)
Variable formatObject : LanguageTag -> string -> P -> string.

(** [SelectOptions]: own keys; the value [None] is [undefined]. *)
Definition SelectOptions : Type := gmap string (option string).

(** The [optionsFormat] object: its own properties, and whether an
    assignment to [__proto__] has replaced its prototype. *)
Record OptionsFormat : Type := mkOptionsFormat {
  own : gmap string (P -> string);
  prototypeReplaced : bool
}.

(** [optionsFormat[option] = f] *)
Definition assign (option : string) (f : P -> string)
    (optionsFormat : OptionsFormat) : OptionsFormat :=
  if bool_decide (option = "__proto__")
  then mkOptionsFormat (own optionsFormat) true
  else mkOptionsFormat (<[option := f]> (own optionsFormat))
                       (prototypeReplaced optionsFormat).

(** The loop over [Object.keys(options)]. *)
Definition buildOptionsFormat (language : LanguageTag)
    (options : SelectOptions) : OptionsFormat :=
  map_fold
    (fun option optionMsg optionsFormat =>
       match optionMsg with
       | Some msg =>
           if truthy msg
           then assign option (formatObject language msg) optionsFormat
           else optionsFormat
       | None => optionsFormat
       end)
    (mkOptionsFormat ∅ false) options.

(** [optionsFormat[s]]: an own formatter, a member inherited from
    [Object.prototype], a lookup that goes on in the formatter installed
    as the prototype and is not followed further, or [undefined]. *)
Inductive property : Type :=
| Own (f : P -> string)
| Inherited (name : string)
| Delegated (name : string)
| Undefined.

Definition get (optionsFormat : OptionsFormat) (s : string) : property :=
  match own optionsFormat !! s with
  | Some f => Own f
  | None =>
      if prototypeReplaced optionsFormat then Delegated s
      else if bool_decide (s ∈ objectPrototypeMembers) then Inherited s
      else Undefined
  end.

Definition selectObject (language : LanguageTag) (selector : P -> string)
    (options : SelectOptions) : P -> selection :=
  let optionsFormat := buildOptionsFormat language options in
  fun parameters =>
    let s := selector parameters in
    let match_ := get optionsFormat s in
    let result :=
      match match_ with
      | Undefined => get optionsFormat "other"
      | _ => match_
      end in
    match result with
    | Undefined =>
        NoMatchingSelection
          ("Selection " +:+ dquote +:+ s +:+ dquote +:+
           " does not match any of the available options")
    | Own f => Message (f parameters)
    | Inherited name => InheritedMember name
    | Delegated name => ThroughFormatter name
    end.
End Select.

Definition select (formatObject : LanguageTag -> string -> string -> string)
    (language : LanguageTag) (options : gmap string (option string))
    : string -> selection :=
  selectObject formatObject language (fun selection => selection) options.

End Format.

(** ** Format.ts: the registered formats *)

Module Formats.

(** The keys of [FormatOptions]. *)
Inductive FormatKind : Type := number | date | time.

(** A format description: what [numberFormat] builds, or whatever else
    the caller registers. *)
Inductive FormatDescription (Custom : Type) : Type :=
| FractionDigits (minimumFractionDigits maximumFractionDigits : nat)
| CustomFormat (description : Custom).
Arguments FractionDigits {Custom} _ _.
Arguments CustomFormat {Custom} _.

(** A member of a [FormatOptions] object: no own property of that name,
    a property whose value is [undefined], or the named formats. *)
Inductive FormatMember (Custom : Type) : Type :=
| NoProperty
| UndefinedMember
| NamedFormats (named : gmap string (FormatDescription Custom)).
Arguments NoProperty {Custom}.
Arguments UndefinedMember {Custom}.
Arguments NamedFormats {Custom} _.

Section Formats.
Context {Custom : Type}.

(** The own properties of a [FormatOptions] object. *)
Definition FormatOptions : Type := FormatKind -> FormatMember Custom.



(** The module keeps one reference, [_formats], and [addFormats] changes
    the object it refers to in place; the state of the embedding is the
    contents of that object. *)
Definition formats (_formats : FormatOptions) : FormatOptions := _formats.

Definition setFormats (formatOptions : FormatOptions)
    (_formats : FormatOptions) : FormatOptions := formatOptions.






End Formats.
End Formats.

(** ** Format.ts: [plural] *)

(** What a call of the function returned by [plural] does. *)
Inductive plural_call : Type :=
| PluralMessage (text : string)
| PluralUndefined
    (* [return p.zero!] (or [one], [two]) where the member is [undefined] *)
| PluralTypeError.
    (* [p.few!(n)] (or [many]) where the member is [undefined] *)

Module PluralFormat.
Section Plural.
Context {Number : Type}.

(** The [Plural] interface. *)
Record Plural : Type := mkPlural {
  zero : option string;
  one : option string;
  two : option string;
  few : option (Number -> string);
  many : option (Number -> string);
  other : Number -> string
}.

(** [format<number>(language, msgFormat)] with the registered formats,
    which the message-format library answers. *)
Variable format : LanguageTag -> string -> Number -> string.

(** Truthiness of [((n: number) => string) | undefined]. *)
Definition isSome {A : Type} (o : option A) : bool :=
  match o with
  | Some _ => true
  | None => false
  end.

(** The [msgFormat] of [plural]. *)
Definition msgFormat (p : Plural) : string :=
  "{1, plural, " +:+
  (if truthy_opt (zero p) then "=0 {zero} " else "") +:+
  (if truthy_opt (one p) then "one {one} " else "") +:+
  (if truthy_opt (two p) then "two {two} " else "") +:+
  (if isSome (few p) then "few {few} " else "") +:+
  (if isSome (many p) then "many {many} " else "") +:+
  "other {other}}".

(** [return p.zero!] *)
Definition returned (member : option string) : plural_call :=
  match member with
  | Some text => PluralMessage text
  | None => PluralUndefined
  end.

(** [return p.few!(n)] *)
Definition called (member : option (Number -> string)) (n : Number)
    : plural_call :=
  match member with
  | Some f => PluralMessage (f n)
  | None => PluralTypeError
  end.

Definition plural (language : LanguageTag) (p : Plural) (n : Number)
    : plural_call :=
  let selection := format language (msgFormat p) in
  let s := selection n in
  if bool_decide (s = "zero") then returned (zero p)
  else if bool_decide (s = "one") then returned (one p)
  else if bool_decide (s = "two") then returned (two p)
  else if bool_decide (s = "few") then called (few p) n
  else if bool_decide (s = "many") then called (many p) n
  else PluralMessage (other p n).

End Plural.
End PluralFormat.

(** ** The grammar of the specification

    Section 4.1 of the specification, written as a pattern of its own to
    compare with [pattern]: the region is a dash followed by two letters
    or three digits, and the long form of the variant is alphanumeric. *)

Definition spec_grammar : RegExp.re :=
  (RegExp.Bol +>
   RegExp.Grp 1 (times 2 3 lower_letter) +>
   RegExp.Opt (RegExp.Grp 2 (dash +> times 3 3 lower_letter)) +>
   RegExp.Opt (RegExp.Grp 3 (dash +> times 4 4 lower_letter)) +>
   RegExp.Opt (RegExp.Grp 4 (dash +> RegExp.Alt (times 2 2 lower_letter)
                                                (times 3 3 digit))) +>
   RegExp.Opt (RegExp.Grp 5 (dash +> RegExp.Alt (times 5 8 alnum)
                                                (digit +> times 3 3 alnum))) +>
   RegExp.Opt (RegExp.Grp 6 (dash +> alnum +>
                             RegExp.Plus (RegExp.NGrp (dash +> times 1 8 alnum)))) +>
   RegExp.Eol)%re.

Definition spec_accepts (text : string) : bool :=
  bool_decide (is_Some (RegExp.exec true spec_grammar text)).

(** ** Scenarios

    The calls the tests and the examples of the specification make,
    starting from the empty registry. *)

(** [languageTag] of each text in turn; [None] when one of them throws. *)
Fixpoint languageTags (texts : list string) (reg : LanguageTags)
    : option (list LanguageTag) * LanguageTags :=
  match texts with
  | [] => (Some [], reg)
  | text :: texts' =>
      match languageTag text reg with
      | (Return t, reg1) =>
          match languageTags texts' reg1 with
          | (Some ts, reg2) => (Some (t :: ts), reg2)
          | (None, reg2) => (None, reg2)
          end
      | (Throw _, reg1) => (None, reg1)
      end
  end.

(** The tag and its successive parents, nearest first; [None] when the
    chain is longer than [depth]. *)
Fixpoint generalizations (depth : nat) (t : option LanguageTag)
    (reg : LanguageTags) : option (list LanguageTag * LanguageTags) :=
  match depth with
  | O => None
  | S depth' =>
      match t with
      | None => Some ([], reg)
      | Some tl =>
          let '(up, reg1) := parent tl reg in
          '(ups, reg2) ← generalizations depth' up reg1;
          Some (tl :: ups, reg2)
      end
  end.

(** [languageTag(text)] and the [tag] of every member of its parent chain. *)
Definition parent_chain (text : string) : option (list string) :=
  match languageTag text no_tags with
  | (Return t, reg) =>
      match generalizations 8 (Some t) reg with
      | Some (ts, _) => Some (tag <$> ts)
      | None => None
      end
  | (Throw _, _) => None
  end.

(** [languageTag(requested).pickBestMatching(candidates.map(languageTag))],
    read by its [tag]. *)
Definition best_match (requested : string) (candidates : list string)
    : option (option string) :=
  match languageTags (requested :: candidates) no_tags with
  | (Some (r :: cs), _) => Some (tag <$> pickBestMatching r cs)
  | _ => None
  end.

(** [languageTag(a).equality(languageTag(b))] *)
Definition equality_of (a b : string) : option Q :=
  match languageTags [a; b] no_tags with
  | (Some [x; y], _) => Some (equality x y)
  | _ => None
  end.

(** One layer of a translator under construction. *)
Inductive layer : Type :=
| Supporting (language : string) (translation : Messages)
| PartiallySupporting (language : string) (translation : Messages).

Definition add_layer (l : layer) (this : Translator) (reg : LanguageTags)
    : result Translator * LanguageTags :=
  match l with
  | Supporting language translation =>
      TranslatorImpl.supporting this language (Plain translation) reg
  | PartiallySupporting language translation =>
      TranslatorImpl.partiallySupporting this (OfString language)
        (Plain translation) reg
  end.

Fixpoint add_layers (ls : list layer) (this : Translator) (reg : LanguageTags)
    : result Translator * LanguageTags :=
  match ls with
  | [] => (Return this, reg)
  | l :: ls' =>
      match add_layer l this reg with
      | (Return this', reg') => add_layers ls' this' reg'
      | (Throw e, reg') => (Throw e, reg')
      end
  end.

(** [translate(defaults).supporting(..)...messagesFor(languageTag(requested))] *)
Definition messages_for (defaults : Messages) (ls : list layer)
    (requested : string) : option Messages :=
  match add_layers ls (translate (Plain defaults)) no_tags with
  | (Return translator, reg) =>
      match languageTag requested reg with
      | (Return language, reg') =>
          match TranslatorImpl.messagesFor 8 translator language reg' with
          | Some (messages, _, _) => Some messages
          | None => None
          end
      | (Throw _, _) => None
      end
  | (Throw _, _) => None
  end.

Definition defaultSet : Messages :=
  list_to_map [("ok", "OK"); ("cancel", "Cancel"); ("welcome", "Welcome")].
Definition germanSet : Messages :=
  list_to_map [("ok", "OK"); ("cancel", "Abbrechen"); ("welcome", "Willkommen")].
Definition swissSet : Messages :=
  list_to_map [("welcome", "Grüezi")].
Definition swissGermanResult : Messages :=
  list_to_map [("ok", "OK"); ("cancel", "Abbrechen"); ("welcome", "Grüezi")].

(** The options of the [select] tests, which have no [other]. *)
Definition outputTypeOptions : gmap string (option string) :=
  list_to_map [("error", Some "An error occurred");
               ("warning", Some "A warning occured");
               ("nop", None)].

(** A formatter that returns its template, standing for a message
    without placeholders. *)
Definition literally (language : LanguageTag) (msgFormat : string)
    (parameters : string) : string := msgFormat.

(** The scenario in which two objects carry the same subtags: the tag
    parsed from [en419], and the parent of the tag parsed from
    [en419-nedis]. *)
Definition twice_en_19 : option (LanguageTag * LanguageTag) :=
  match languageTags ["en419"; "en419-nedis"] no_tags with
  | (Some [a; b], reg) =>
      match parent b reg with
      | (Some p, _) => Some (a, p)
      | (None, _) => None
      end
  | _ => None
  end.

(** * Notions for the statements and the proofs *)

(** A provider whose [buildMessages] allocates a fresh messages object at
    every call: the world is the next free address, the reference is the
    address. *)
Definition freshObject (language : LanguageTag) (next : nat)
    : option (nat * nat) := Some (next, S next).

(** The body of the loop of [pickBestMatching]. *)
Definition keep_better (this : LanguageTag) (bestEquality : Match)
    (other : LanguageTag) : Match :=
  if gt (equality this other) (match_equality bestEquality)
  then mkMatch (equality this other) (Some other)
  else bestEquality.

(** The formatter an option contributes to [optionsFormat]: none for
    [undefined] and for the empty string. *)
Definition usable {P : Type}
    (formatObject : LanguageTag -> string -> P -> string)
    (language : LanguageTag) (optionMsg : option string)
    : option (P -> string) :=
  match optionMsg with
  | Some msg => if truthy msg then Some (formatObject language msg) else None
  | None => None
  end.

(** The options are plain when no usable option is named [__proto__],
    so that [optionsFormat] keeps the prototype [{}] gave it. *)
Definition plain {P : Type}
    (formatObject : LanguageTag -> string -> P -> string)
    (language : LanguageTag) (options : gmap string (option string)) : Prop :=
  options !! "__proto__" ≫= usable formatObject language = None.

(** One layer over the messages merged so far: the translation registered
    for the tag, applied to the requested language, or nothing. *)
Definition overlay (this : Translator) (requestedLanguage : LanguageTag)
    (layer : LanguageTag) (merged : Messages) : Messages :=
  match JsMap.get layer (translations this) with
  | Some translation => spread merged (translation requestedLanguage)
  | None => merged
  end.

(** The arguments of [fromSubTags] and of the constructor. *)
Record SubTags : Type := mkSubTags {
  s_language : string;
  s_extendedLanguage : option string;
  s_script : option string;
  s_region : option string;
  s_variant : option string;
  s_extension : option string
}.

Definition subtags (t : LanguageTag) : SubTags :=
  mkSubTags (language t) (extendedLanguage t) (script t) (region t)
    (variant t) (extension t).

(** [new LanguageTagImpl(...)] of the subtags [a], at the address [n]. *)
Definition tag_of_subtags (n : nat) (a : SubTags) : LanguageTag :=
  LanguageTagImpl n (s_language a) (s_extendedLanguage a) (s_script a)
    (s_region a) (s_variant a) (s_extension a).

(** What the specification says of [parent]: the subtags without the most
    specific one that is set, in the order extension, variant, region,
    script, extended language; [None] when only the language is set. *)
Definition generalize (a : SubTags) : option SubTags :=
  match s_extension a, s_variant a, s_region a, s_script a,
        s_extendedLanguage a with
  | Some _, _, _, _, _ =>
      Some (mkSubTags (s_language a) (s_extendedLanguage a) (s_script a)
              (s_region a) (s_variant a) None)
  | None, Some _, _, _, _ =>
      Some (mkSubTags (s_language a) (s_extendedLanguage a) (s_script a)
              (s_region a) None None)
  | None, None, Some _, _, _ =>
      Some (mkSubTags (s_language a) (s_extendedLanguage a) (s_script a)
              None None None)
  | None, None, None, Some _, _ =>
      Some (mkSubTags (s_language a) (s_extendedLanguage a) None
              None None None)
  | None, None, None, None, Some _ =>
      Some (mkSubTags (s_language a) None None None None None)
  | None, None, None, None, None => None
  end.

(** How many of the five optional subtags are set. *)
Definition specificity (a : SubTags) : nat :=
  length (option_list (s_extendedLanguage a)) +
  length (option_list (s_script a)) +
  length (option_list (s_region a)) +
  length (option_list (s_variant a)) +
  length (option_list (s_extension a)).

(** [ups] are the successive generalizations of [t], down to the bare
    language. *)
Fixpoint is_chain (t : LanguageTag) (ups : list LanguageTag) : Prop :=
  match ups with
  | [] => generalize (subtags t) = None
  | p :: ups' => generalize (subtags t) = Some (subtags p) /\ is_chain p ups'
  end.

(** The chain that [buildRecursive] walks: the best match and its
    successive generalizations, or nothing without a match. *)
Definition chain_of (best : option LanguageTag) (chain : list LanguageTag)
    : Prop :=
  match best with
  | Some b => exists ups, chain = b :: ups /\ is_chain b ups
  | None => chain = []
  end.

(** A tag object is interned when the registry holds it under some key. *)
Definition interned (reg : LanguageTags) (t : LanguageTag) : Prop :=
  exists k, instances reg !! k = Some t.

(** The registries that the program can build: the registry starts empty
    and changes through [languageTag] and through [parent] on a tag it
    has handed out. *)
Inductive reachable : LanguageTags -> Prop :=
| reachable_start : reachable no_tags
| reachable_languageTag (text : string) (reg : LanguageTags) :
    reachable reg -> reachable (snd (languageTag text reg))
| reachable_parent (t : LanguageTag) (reg : LanguageTags) :
    reachable reg -> interned reg t -> reachable (snd (parent t reg)).

(** The registry after [languageTag("de-CH")], and the tag it returned. *)
Definition swissRegistry : LanguageTags := snd (languageTag "de-CH" no_tags).
Definition swissGerman : LanguageTag :=
  tag_of_subtags 0 (mkSubTags "de" None None (Some "ch") None None).

(** The translator of the example of the specification, the registry
    once it is built and the tag [de-CH-1901] has been requested, and
    that tag. *)
Definition exampleRegistry : LanguageTags :=
  snd (languageTag "de-CH-1901"
         (snd (languageTag "de-CH" (snd (languageTag "de" no_tags))))).
Definition exampleTranslator : Translator :=
  TranslatorImpl.new (fun _ => defaultSet)
    [(tag_of_subtags 0 (mkSubTags "de" None None None None None),
      fun _ => germanSet);
     (tag_of_subtags 1 (mkSubTags "de" None None (Some "ch") None None),
      fun _ => swissSet)].
Definition swissGerman1901 : LanguageTag :=
  tag_of_subtags 2 (mkSubTags "de" None None (Some "ch") (Some "1901") None).

(** ** Notions for the proofs about the registry *)

(** *** Characters and words *)

Module Text.
Import JsString.

(** A statement about one character, settled on each of the 256. *)
Ltac each_char c :=
  destruct c as [[] [] [] [] [] [] [] []]; vm_compute;
  try reflexivity; try discriminate; try tauto; try congruence.

(** Every character of [s] satisfies [p]. *)
Fixpoint all (p : ascii -> bool) (s : string) : bool :=
  match s with
  | EmptyString => true
  | String c t => p c && all p t
  end.

Definition not_upper (c : ascii) : bool := negb (is_upper c).

Definition lower_alnum (c : ascii) : bool := is_lower c || is_digit c.

Definition is_dash (c : ascii) : bool := bool_decide (c = "-"%char).

(** The words between the dashes of a string. *)
Fixpoint tokens (s : string) : list string :=
  match s with
  | EmptyString => [""]
  | String c t =>
      if is_dash c then "" :: tokens t
      else match tokens t with
           | w :: ws => String c w :: ws
           | [] => [String c ""]
           end
  end.

(** Each word with a dash before it. *)
Fixpoint dashed (ws : list string) : string :=
  match ws with
  | [] => ""
  | w :: ws' => String "-" (w +:+ dashed ws')
  end.

Definition dashfree (w : string) : bool := all (fun c => negb (is_dash c)) w.

(** A word of [lo] to [hi] characters, each satisfying [p]. *)
Definition word (lo hi : nat) (p : ascii -> bool) (w : string) : bool :=
  (lo <=? String.length w)%nat && (String.length w <=? hi)%nat && all p w.

(** A word of lower-case letters and digits, not empty: what every word
    of a key is. *)
Definition plain_word (w : string) : bool :=
  (1 <=? String.length w)%nat && all lower_alnum w.

End Text.

(** *** Runs of a pattern *)

Module Runs.
Import JsString RegExp.

(** [n] runs of [R] in a row. *)
Fixpoint iter (R : state -> captures -> state -> captures -> Prop) (n : nat)
    (x : state) (c : captures) (y : state) (c' : captures) : Prop :=
  match n with
  | O => y = x /\ c' = c
  | S n' => exists z c1, R x c z c1 /\ iter R n' z c1 y c'
  end.

(** [runs ignoreCase r x c y c']: the pattern [r] can take the matcher
    from the position [x] with captures [c] to the position [y] with
    captures [c']. *)
Fixpoint runs (ignoreCase : bool) (r : re) (x : state) (c : captures)
    (y : state) (c' : captures) : Prop :=
  match r with
  | Bol => pos x = 0 /\ y = x /\ c' = c
  | Eol => rest x = "" /\ y = x /\ c' = c
  | Chr p =>
      exists ch, advance x = Some (ch, y) /\
                 chr_matches ignoreCase p ch = true /\ c' = c
  | Cls ranges =>
      exists ch, advance x = Some (ch, y) /\
                 cls_matches ignoreCase ranges ch = true /\ c' = c
  | Seq r1 r2 =>
      exists z c1, runs ignoreCase r1 x c z c1 /\ runs ignoreCase r2 z c1 y c'
  | Alt r1 r2 => runs ignoreCase r1 x c y c' \/ runs ignoreCase r2 x c y c'
  | Rep min max r' =>
      exists n, min <= n /\
                match max with Some mx => n <= mx | None => True end /\
                iter (runs ignoreCase r') n x c y c'
  | Grp n r' =>
      exists c1, runs ignoreCase r' x c y c1 /\ c' = <[n := matched x y]> c1
  | NGrp r' => runs ignoreCase r' x c y c'
  end.

(** The matcher [step] is sound for the relation [R]: a result comes
    from a run of [R] followed by the continuation. *)
Definition sound_step
    (R : state -> captures -> state -> captures -> Prop)
    (step : state -> captures ->
            (state -> captures -> option (state * captures)) ->
            option (state * captures)) : Prop :=
  forall x c k res,
    step x c k = Some res -> exists y c', R x c y c' /\ k y c' = Some res.

(** From [x] to [y] the matcher has consumed the text [w]. *)
Definition consumes (x y : state) (w : string) : Prop :=
  rest x = w +:+ rest y /\ pos y = pos x + String.length w.

End Runs.

(** *** Shapes of subtags *)

Module Shape.
Import JsString Text.

Definition language_ok : string -> bool := word 2 3 is_lower.
Definition extendedLanguage_ok : string -> bool := word 3 3 is_lower.
Definition script_ok : string -> bool := word 4 4 is_lower.

(** Two letters, or the two digits that the pattern leaves of three. *)
Definition region_ok (w : string) : bool :=
  word 2 2 is_lower w || word 2 2 is_digit w.

Definition variant_ok (w : string) : bool :=
  word 5 8 is_lower w ||
  match w with
  | String d t => is_digit d && word 3 3 lower_alnum t
  | EmptyString => false
  end.

Definition singleton_ok : string -> bool := word 1 1 lower_alnum.
Definition part_ok : string -> bool := word 1 8 lower_alnum.

Definition extension_tokens_ok (ws : list string) : bool :=
  match ws with
  | c :: w :: ws' => singleton_ok c && forallb part_ok (w :: ws')
  | _ => false
  end.

Definition extension_ok (x : string) : bool := extension_tokens_ok (tokens x).

Definition optional (ok : string -> bool) (o : option string) : bool :=
  match o with
  | Some w => ok w
  | None => true
  end.

(** Subtags in lower case, each of the shape the pattern gives it. *)
Definition shaped (a : SubTags) : bool :=
  language_ok (s_language a) &&
  optional extendedLanguage_ok (s_extendedLanguage a) &&
  optional script_ok (s_script a) &&
  optional region_ok (s_region a) &&
  optional variant_ok (s_variant a) &&
  optional extension_ok (s_extension a).

Definition tokens_of (x : option string) : list string :=
  match x with
  | Some x => tokens x
  | None => []
  end.

(** The words of the key after the language. *)
Definition words_of (a : SubTags) : list string :=
  option_list (s_extendedLanguage a) ++
  option_list (s_script a) ++
  option_list (s_region a) ++
  option_list (s_variant a) ++
  match s_extension a with
  | Some x => tokens x
  | None => []
  end.

(** The key under which [fromSubTags] interns shaped subtags. *)
Definition key_of (a : SubTags) : string :=
  s_language a +:+ dashed (words_of a).

(** The first word of a list is not of the kind [ok]. *)
Definition head_not (ok : string -> bool) (ws : list string) : bool :=
  match ws with
  | [] => true
  | w :: _ => negb (ok w)
  end.

Definition word_is (W w : string) : bool := bool_decide (w = W).

(** A word of none of the five kinds: it is not the first word of the
    key of shaped subtags. *)
Definition of_no_kind (W : string) : Prop :=
  extendedLanguage_ok W = false /\ script_ok W = false /\
  region_ok W = false /\ variant_ok W = false /\ singleton_ok W = false.

End Shape.

(** *** The registry on subtags *)

Module Registry.
Import JsString Text Shape.

(** [fromSubTags] of the subtags [a]. *)
Definition fromSubTagsOf (a : SubTags) :
    LanguageTags -> LanguageTag * LanguageTags :=
  fromSubTags (s_language a) (s_extendedLanguage a) (s_script a)
    (s_region a) (s_variant a) (s_extension a).

(** The key that [fromSubTags] computes. *)
Definition unifiedTag (a : SubTags) : string :=
  toLowerCase (s_language a) +:+
  unifiedSubtag (s_extendedLanguage a) +:+
  unifiedSubtag (s_script a) +:+
  unifiedSubtag (s_region a) +:+
  unifiedSubtag (s_variant a) +:+
  unifiedSubtag (s_extension a).

(** The subtags as the constructor stores them. *)
Definition normalized (a : SubTags) : SubTags :=
  mkSubTags (toLowerCase (s_language a))
    (transform (s_extendedLanguage a) toLowerCase)
    (transform (s_script a) titleCase)
    (transform (s_region a) toUpperCase)
    (transform (s_variant a) toLowerCase)
    (transform (s_extension a) toLowerCase).

(** A case change [f] that the constructor applies to a subtag. *)
Definition case_change (f : string -> string) : Prop :=
  (forall w, truthy (f w) = truthy w) /\
  (forall w, f (f w) = f w) /\
  (forall w, toLowerCase (f w) = toLowerCase w).

(** The region that the pattern leaves of three digits without a dash. *)
Definition two_digit_region (b : SubTags) : Prop :=
  exists r, s_region b = Some r /\ word 2 2 is_digit r = true.

(** The key [k] is the key of the subtags [b], or [b] has a region of
    two digits and [k] is the key of no shaped subtags at all. *)
Definition keyed (k : string) (b : SubTags) : Prop :=
  key_of b = k \/
  (two_digit_region b /\ forall a, shaped a = true -> key_of a <> k).

(** An entry is coherent when its object is what the constructor makes
    of shaped subtags that its key is the key of. *)
Definition coherent_entry (k : string) (o : LanguageTag) : Prop :=
  exists b, shaped b = true /\ o = tag_of_subtags (addr o) b /\ keyed k b.

(** The invariant of the registry: every entry is coherent and lies
    below the address of the next object. *)
Definition coherent (reg : LanguageTags) : Prop :=
  forall k o, instances reg !! k = Some o ->
              coherent_entry k o /\ addr o < allocated reg.

(** The registry [reg'] holds every entry of [reg]. *)
Definition extends (reg reg' : LanguageTags) : Prop :=
  forall k o, instances reg !! k = Some o -> instances reg' !! k = Some o.

End Registry.

(** *** The groups of a match of the tag pattern *)

Module Groups.
Import JsString Text RegExp Shape.

(** A dash followed by a word of the kind [ok]. *)
Definition dash_then (ok : string -> bool) (w : string) : Prop :=
  exists e, w = String "-" e /\ ok e = true.

(** The text of the region group: a dash and two letters, or three
    digits. *)
Definition region_text (w : string) : Prop :=
  dash_then (word 2 2 is_lower) w \/ word 3 3 is_digit w = true.

(** The text of an optional group: empty when the group took no part. *)
Definition optional_text (Q : string -> Prop) (w : string) : Prop :=
  w = "" \/ Q w.

(** The capture that the text of an optional group leaves. *)
Definition capture (n : nat) (w : string) (c : captures) : captures :=
  if truthy w then <[n := w]> c else c.

Definition cap (w : string) : option string :=
  if truthy w then Some w else None.

(** The texts of the six groups. *)
Record groups : Type := mkGroups {
  g_language : string;
  g_extendedLanguage : string;
  g_script : string;
  g_region : string;
  g_variant : string;
  g_extension : string
}.

Definition text_of (g : groups) : string :=
  g_language g +:+ g_extendedLanguage g +:+ g_script g +:+ g_region g +:+
  g_variant g +:+ g_extension g.

Definition captures_of (g : groups) : captures :=
  capture 6 (g_extension g)
    (capture 5 (g_variant g)
       (capture 4 (g_region g)
          (capture 3 (g_script g)
             (capture 2 (g_extendedLanguage g)
                (<[1 := g_language g]> ∅))))).

Definition well_formed (g : groups) : Prop :=
  language_ok (g_language g) = true /\
  optional_text (dash_then extendedLanguage_ok) (g_extendedLanguage g) /\
  optional_text (dash_then script_ok) (g_script g) /\
  optional_text region_text (g_region g) /\
  optional_text (dash_then variant_ok) (g_variant g) /\
  optional_text (dash_then extension_ok) (g_extension g).

(** [group(match, n)] on the text of a group. *)
Definition sub (w : string) : option string :=
  if truthy w then Some (substr1 w) else None.

(** The subtags that [createFromString] passes to the constructor. *)
Definition subtags_of_groups (g : groups) : SubTags :=
  mkSubTags (g_language g) (sub (g_extendedLanguage g)) (sub (g_script g))
    (sub (g_region g)) (sub (g_variant g)) (sub (g_extension g)).

End Groups.

(** ** Notions for the further properties *)

(** [hay.startsWith(needle)] and [hay.includes(needle)]. *)
Fixpoint startsWith (needle hay : string) : bool :=
  match needle, hay with
  | EmptyString, _ => true
  | String a needle', String b hay' =>
      bool_decide (a = b) && startsWith needle' hay'
  | String _ _, EmptyString => false
  end.

Fixpoint includes (needle hay : string) : bool :=
  startsWith needle hay ||
  match hay with
  | String _ hay' => includes needle hay'
  | EmptyString => false
  end.


(** *** Patterns on which the matcher is complete *)

Module Guarded.
Import JsString RegExp Runs.

(** Every run of the pattern takes at least one character: a sufficient
    condition on the syntax. *)
Fixpoint consuming (r : re) : bool :=
  match r with
  | Bol | Eol => false
  | Chr _ | Cls _ => true
  | Seq r1 r2 => consuming r1 || consuming r2
  | Alt r1 r2 => consuming r1 && consuming r2
  | Rep min _ r' => (0 <? min)%nat && consuming r'
  | Grp _ r' | NGrp r' => consuming r'
  end.

(** Every quantifier of the pattern is on a consuming pattern. *)
Fixpoint guarded (r : re) : bool :=
  match r with
  | Seq r1 r2 | Alt r1 r2 => guarded r1 && guarded r2
  | Rep _ _ r' => consuming r' && guarded r'
  | Grp _ r' | NGrp r' => guarded r'
  | _ => true
  end.

(** The pattern [r] can take the text [w], wherever it stands. *)
Definition takes (r : re) (w : string) : Prop :=
  forall p s c, exists c',
    runs true r (St p (w +:+ s)) c (St (p + String.length w) s) c'.

(** The matcher [step] is complete for the relation [R]: where a run of
    [R] leads to a position at which the continuation succeeds, the
    matcher succeeds. *)
Definition complete_step
    (R : state -> captures -> state -> captures -> Prop)
    (step : state -> captures ->
            (state -> captures -> option (state * captures)) ->
            option (state * captures)) : Prop :=
  forall x c y c' k,
    R x c y c' -> is_Some (k y c') -> is_Some (step x c k).

End Guarded.

(** No two objects of the registry share an address. *)
Definition distinct (reg : LanguageTags) : Prop :=
  forall k1 k2 o1 o2,
    instances reg !! k1 = Some o1 -> instances reg !! k2 = Some o2 ->
    addr o1 = addr o2 -> o1 = o2.

(** The registries that the program can reach from [reg]. *)
Inductive later (reg : LanguageTags) : LanguageTags -> Prop :=
| later_now : later reg reg
| later_languageTag (text : string) (reg' : LanguageTags) :
    later reg reg' -> later reg (snd (languageTag text reg'))
| later_parent (t : LanguageTag) (reg' : LanguageTags) :
    later reg reg' -> interned reg' t -> later reg (snd (parent t reg')).

(** The region of the tag is not made of digits only: the tag does not
    come from a text in which the pattern took three digits without a
    dash. *)
Definition lettered_region (t : LanguageTag) : Prop :=
  forall r, region t = Some r -> Text.all is_digit r = false.

(** Every character of the text is an ASCII character.  On such a text
    [toLowerCase] and the character classes of the pattern are those of
    JavaScript. *)
Definition ascii_text (text : string) : Prop :=
  Text.all (fun c => (code c <? 128)%nat) text = true.

(** [pickPreferredLanguage(available.map(languageTag),
    users.map(languageTag))], read by its [tag]. *)
Definition preferred_of (available users : list string)
    : option (option string) :=
  match mapLanguageTag available no_tags with
  | (Return translations, reg) =>
      match mapLanguageTag users reg with
      | (Return navLanguages, _) =>
          Some (tag <$> pickPreferredLanguage translations navLanguages)
      | (Throw _, _) => None
      end
  | (Throw _, _) => None
  end.

(** The translators of the tests. *)
Definition enMessages : Messages :=
  list_to_map [("welcome", "Hi there!"); ("cancel", "Cancel"); ("ok", "OK")].
Definition deMessages : Messages :=
  list_to_map [("welcome", "Hallo Du!"); ("cancel", "Abbrechen")].
Definition deChMessages : Messages :=
  list_to_map [("welcome", "Grüezi!")].
Definition enMessageOverrides : Messages :=
  list_to_map [("welcome", "Welcome to the overrides");
               ("newValue", "New value")].
Definition deMessageOverrides : Messages :=
  list_to_map [("welcome", "Willkommen zu den Überschreibungen");
               ("newValue", "Neuer Wert")].

(** [translate(enMessageOverrides).supporting('de', deMessageOverrides)
    .extending(translator).messagesFor(languageTag(requested))], where
    [translator] is [translate(enMessages).partiallySupporting('de',
    deMessages).partiallySupporting('de-Latn-CH', deChMessages)]. *)
Definition overrides_for (requested : string) : option Messages :=
  match add_layers [PartiallySupporting "de" deMessages;
                    PartiallySupporting "de-Latn-CH" deChMessages]
          (translate (Plain enMessages)) no_tags with
  | (Return translator, reg1) =>
      match add_layers [Supporting "de" deMessageOverrides]
              (translate (Plain enMessageOverrides)) reg1 with
      | (Return overrides, reg2) =>
          match languageTag requested reg2 with
          | (Return language, reg3) =>
              fst <$> extending_messagesFor 7 language
                        (mkExtending translator overrides reg3)
          | (Throw _, _) => None
          end
      | (Throw _, _) => None
      end
  | (Throw _, _) => None
  end.


(** * Properties *)

(** ** Scores *)

Lemma gt_lt (a b : Q) : gt a b = true <-> (b < a)%Q.
Proof.
  unfold gt. rewrite (Qgt_alt a b).
  destruct (Qcompare a b); split; congruence.
Qed.

Lemma gt_le (a b : Q) : gt a b = false <-> (a <= b)%Q.
Proof.
  unfold gt. rewrite (Qle_alt a b).
  destruct (Qcompare a b); split; congruence.
Qed.

Lemma either_set_bounds (a b : option string) (p : Z) :
  (0 <= p)%Z -> (0 <= either_set a b p <= p)%Z.
Proof. unfold either_set. destruct (_ || _); lia. Qed.

Lemma both_equal_bounds (a b : option string) (p : Z) :
  (0 <= p)%Z -> (0 <= both_equal a b p <= p)%Z.
Proof. unfold both_equal. case_bool_decide; lia. Qed.

Lemma possiblePoints_bounds (a b : LanguageTag) :
  (32 <= possiblePoints a b <= 63)%Z.
Proof.
  unfold possiblePoints, languagePoints, extensionPoints, variantPoints,
    regionPoints, scriptPoints, extendedLanguagePoints.
  pose proof (either_set_bounds (extension a) (extension b) 1).
  pose proof (either_set_bounds (variant a) (variant b) 2).
  pose proof (either_set_bounds (region a) (region b) 4).
  pose proof (either_set_bounds (script a) (script b) 8).
  pose proof (either_set_bounds (extendedLanguage a) (extendedLanguage b) 16).
  lia.
Qed.

Lemma points_bounds (a b : LanguageTag) : (32 <= points a b <= 63)%Z.
Proof.
  unfold points, languagePoints, extensionPoints, variantPoints,
    regionPoints, scriptPoints, extendedLanguagePoints.
  pose proof (both_equal_bounds (extension a) (extension b) 1).
  pose proof (both_equal_bounds (variant a) (variant b) 2).
  pose proof (both_equal_bounds (region a) (region b) 4).
  pose proof (both_equal_bounds (script a) (script b) 8).
  pose proof (both_equal_bounds (extendedLanguage a) (extendedLanguage b) 16).
  lia.
Qed.

Lemma quotient_pos (p q : Z) :
  (0 < p)%Z -> (0 < q)%Z -> (0 < inject_Z p / inject_Z q)%Q.
Proof.
  intros Hp Hq. apply Qlt_shift_div_l.
  - change 0%Q with (inject_Z 0). rewrite <- Zlt_Qlt. exact Hq.
  - rewrite Qmult_0_l. change 0%Q with (inject_Z 0). rewrite <- Zlt_Qlt. exact Hp.
Qed.

(** The score is 0 when the languages differ and positive when they
    agree. *)
Lemma equality_language_differs (a b : LanguageTag) :
  language a <> language b -> equality a b = 0%Q.
Proof. intros H. unfold equality. by rewrite bool_decide_eq_false_2. Qed.

Lemma equality_language_agrees (a b : LanguageTag) :
  language a = language b -> (0 < equality a b)%Q.
Proof.
  intros H. unfold equality. rewrite bool_decide_eq_true_2 by done.
  pose proof (points_bounds a b). pose proof (possiblePoints_bounds a b).
  apply quotient_pos; lia.
Qed.

Lemma equality_nonneg (a b : LanguageTag) : (0 <= equality a b)%Q.
Proof.
  destruct (decide (language a = language b)) as [H|H].
  - apply Qlt_le_weak. by apply equality_language_agrees.
  - rewrite equality_language_differs by done. apply Qle_refl.
Qed.

(** ** [pickBestMatching] *)

Section PickBestMatching.

Variable this : LanguageTag.

(** What the loop leaves in [bestEquality]: either nothing beat the
    start value, or the first candidate with the highest score did. *)
Lemma forEach_keeps_first_highest (others : list LanguageTag) (start : Match) :
  (fold_left (keep_better this) others start = start /\
   Forall (fun x => (equality this x <= match_equality start)%Q) others)
  \/
  (exists before c after,
     others = before ++ c :: after /\
     fold_left (keep_better this) others start = mkMatch (equality this c) (Some c) /\
     (match_equality start < equality this c)%Q /\
     Forall (fun x => (equality this x < equality this c)%Q) before /\
     Forall (fun x => (equality this x <= equality this c)%Q) after).
Proof.
  revert start. induction others as [|x others IH]; intros start.
  - left. by split.
  - simpl. unfold keep_better at 2 4.
    destruct (gt (equality this x) (match_equality start)) eqn:Hx.
    + apply gt_lt in Hx. right.
      destruct (IH (mkMatch (equality this x) (Some x)))
        as [[Hsame Hall]|(before & c & after & -> & Hres & Hlt & Hb & Ha)].
      * exists [], x, others. simpl in *. repeat split; try done.
      * exists (x :: before), c, after. simpl in *. repeat split; try done.
        -- by eapply Qlt_trans.
        -- by constructor.
    + apply gt_le in Hx.
      destruct (IH start)
        as [[Hsame Hall]|(before & c & after & -> & Hres & Hlt & Hb & Ha)].
      * left. split; [done|by constructor].
      * right. exists (x :: before), c, after. simpl. repeat split; try done.
        constructor; [|done]. by eapply Qle_lt_trans.
Qed.

Lemma pickBestMatching_fold (others : list LanguageTag) :
  pickBestMatching this others =
  match_other (fold_left (keep_better this) others (mkMatch 0%Q None)).
Proof. reflexivity. Qed.

End PickBestMatching.

(** C4.  [pickBestMatching] returns the first candidate whose score is the
    highest of the list, provided that score is above 0, and nothing when
    every candidate scores 0; of [de], [fr-CH] and [sp] it picks [de] for
    [de-CH-1901] and nothing for [it]. *)
Theorem pickBestMatching_first_of_the_highest :
  (forall (t : LanguageTag) (candidates : list LanguageTag),
     match pickBestMatching t candidates with
     | Some c =>
         exists before after,
           candidates = before ++ c :: after /\
           Forall (fun x => (equality t x < equality t c)%Q) before /\
           Forall (fun x => (equality t x <= equality t c)%Q) after /\
           (0 < equality t c)%Q
     | None => Forall (fun x => (equality t x == 0)%Q) candidates
     end) /\
  best_match "de-CH-1901" ["de"; "fr-CH"; "sp"] = Some (Some "de") /\
  best_match "it" ["de"; "fr-CH"; "sp"] = Some None.
Proof.
  split; [|split; vm_compute; reflexivity].
  intros t candidates. rewrite pickBestMatching_fold.
  destruct (forEach_keeps_first_highest t candidates (mkMatch 0%Q None))
    as [[-> Hall]|(before & c & after & -> & -> & Hlt & Hb & Ha)]; simpl in *.
  - eapply Forall_impl; [exact Hall|]. intros x Hx. simpl in Hx.
    apply Qle_antisym; [exact Hx|apply equality_nonneg].
  - exists before, after. repeat split; done.
Qed.

(** ** The score of a tag with itself *)

(** C2.  The score of [de] with [de] is 63/32: the five subtags absent on
    both sides add their weight to the points and not to the possible
    points, so the score of two equal tags is above 1 unless they carry
    all six subtags. *)
Theorem equality_of_a_bare_language_with_itself :
  equality_of "de" "de" = Some (63 # 32)%Q /\
  equality_of "de-CH" "de-CH" = Some (63 # 36)%Q /\
  equality_of "zh-gan-Hans-US-nedis-x-twain" "zh-gan-Hans-US-nedis-x-twain"
    = Some (63 # 63)%Q.
Proof. repeat split; vm_compute; reflexivity. Qed.

(** ** Parsing *)

(** C1.  [languageTag] throws on [en-419], a region of three digits after
    a dash, and on [ru-petr1708], a variant of eight letters and digits;
    the grammar of the specification accepts both.  The three digits are
    taken without a dash instead: [en419] is parsed, and its region is
    [19]. *)
Theorem languageTag_rejects_region_of_three_digits :
  fst (languageTag "en-419" no_tags) = Throw "Invalid language tag en-419" /\
  spec_accepts "en-419" = true /\
  fst (languageTag "ru-petr1708" no_tags)
    = Throw "Invalid language tag ru-petr1708" /\
  spec_accepts "ru-petr1708" = true /\
  fmap (M := option) (fmap region) (fst (languageTags ["en419"] no_tags))
    = Some [Some "19"] /\
  spec_accepts "en419" = false.
Proof. repeat split; vm_compute; reflexivity. Qed.

(** ** Interning *)

(** C6.  The tag parsed from [en419] and the parent of the tag parsed
    from [en419-nedis] agree on [tag] and on every subtag, and are two
    objects: the first is interned under [en419], the second under
    [en-19]. *)
Theorem equal_subtags_in_two_objects :
  exists a p,
    twice_en_19 = Some (a, p) /\
    tag a = "en-19" /\ tag p = "en-19" /\
    language a = language p /\
    extendedLanguage a = extendedLanguage p /\
    script a = script p /\
    region a = region p /\
    variant a = variant p /\
    extension a = extension p /\
    same a p = false.
Proof. eexists _, _. repeat split; vm_compute; reflexivity. Qed.

(** ** The cache of a message provider *)

Lemma same_refl (a : LanguageTag) : same a a = true.
Proof. apply Nat.eqb_refl. Qed.

Lemma same_true (a b : LanguageTag) : same a b = true <-> addr a = addr b.
Proof. apply Nat.eqb_eq. Qed.

Lemma same_trans_false (a b c : LanguageTag) :
  same a b = true -> same b c = false -> same a c = false.
Proof.
  unfold same. rewrite Nat.eqb_eq, !Nat.eqb_neq. congruence.
Qed.

Section Cache.

Context {M W : Type}.
Variable buildMessages : LanguageTag -> W -> option (M * W).

(** After a call for [language] the cache holds the object that the call
    returned, under a tag identical to [language]. *)
Lemma messagesFor_fills_cache (cache : option (MessageCache M))
    (language : LanguageTag) (w : W) messages cache1 w1 :
  CachedMessageProvider.messagesFor buildMessages cache language w
    = Some (messages, cache1, w1) ->
  exists entry,
    cache1 = Some entry /\
    same (cache_language entry) language = true /\
    cache_messages entry = messages.
Proof.
  unfold CachedMessageProvider.messagesFor. intros H.
  destruct cache as [entry|].
  - destruct (same (cache_language entry) language) eqn:Hsame.
    + inversion H; subst. by exists entry.
    + destruct (buildMessages language w) as [[m' w']|]; simpl in H; [|done].
      inversion H; subst. eexists. repeat split. apply same_refl.
  - destruct (buildMessages language w) as [[m' w']|]; simpl in H; [|done].
    inversion H; subst. eexists. repeat split. apply same_refl.
Qed.

(** C7.  After a call of [messagesFor] for a tag, a second call for the
    identical tag returns the identical messages object and leaves the
    cache and the world as they are, whatever [buildMessages] would do;
    a call for another tag runs [buildMessages] for it and makes its
    result the one cache entry. *)
Theorem messagesFor_caches_the_last_language
    (cache : option (MessageCache M)) (language : LanguageTag) (w : W)
    (messages : M) (cache1 : option (MessageCache M)) (w1 : W) :
  CachedMessageProvider.messagesFor buildMessages cache language w
    = Some (messages, cache1, w1) ->
  (forall anyBuild : LanguageTag -> W -> option (M * W),
     CachedMessageProvider.messagesFor anyBuild cache1 language w1
       = Some (messages, cache1, w1)) /\
  (forall other : LanguageTag,
     same language other = false ->
     CachedMessageProvider.messagesFor buildMessages cache1 other w1 =
     match buildMessages other w1 with
     | Some (messages', w2) =>
         Some (messages', Some (mkMessageCache other messages'), w2)
     | None => None
     end).
Proof.
  intros H. destruct (messagesFor_fills_cache _ _ _ _ _ _ H)
    as (entry & -> & Hsame & <-).
  split.
  - intros anyBuild. simpl. by rewrite Hsame.
  - intros other Hother. simpl.
    rewrite (same_trans_false _ _ _ Hsame Hother).
    by destruct (buildMessages other w1) as [[??]|].
Qed.

End Cache.

Lemma messagesFor_caches_the_last_language_witness :
  let de := LanguageTagImpl 0 "de" None None None None None in
  let en := LanguageTagImpl 1 "en" None None None None None in
  CachedMessageProvider.messagesFor freshObject None de 7
    = Some (7, Some (mkMessageCache de 7), 8) /\
  CachedMessageProvider.messagesFor freshObject
    (Some (mkMessageCache de 7)) de 8
    = Some (7, Some (mkMessageCache de 7), 8) /\
  CachedMessageProvider.messagesFor freshObject
    (Some (mkMessageCache de 7)) en 8
    = Some (8, Some (mkMessageCache en 8), 9).
Proof.
  intros de en.
  destruct (messagesFor_caches_the_last_language freshObject None de 7
              7 (Some (mkMessageCache de 7)) 8 eq_refl) as [Hhit Hmiss].
  split; [reflexivity|]. split.
  - apply (Hhit freshObject).
  - apply (Hmiss en). reflexivity.
Defined.

(** ** [supporting] *)

(** C9.  [supporting] does what [partiallySupporting] does with the same
    arguments: whenever the language is a tag that [languageTag] returns,
    it returns a translator that holds the translation under that tag,
    whatever keys the translation has; and when it throws, it throws what
    [languageTag] threw.  Given the one message of the Swiss set for
    [de], either call builds a translator whose messages for [de] are that
    message and the defaults of the other keys. *)
Theorem supporting_is_partiallySupporting :
  (forall (this : Translator) (language : string)
          (translation : MessagesParameter) (reg : LanguageTags),
     TranslatorImpl.supporting this language translation reg
       = TranslatorImpl.partiallySupporting this (OfString language)
           translation reg /\
     match languageTag language reg with
     | (Return lang, reg') =>
         TranslatorImpl.supporting this language translation reg
           = (Return (TranslatorImpl.new (defaultMessages this)
                        (JsMap.set lang (localizedMessages translation)
                           (translations this))),
              reg')
     | (Throw e, reg') =>
         TranslatorImpl.supporting this language translation reg
           = (Throw e, reg')
     end) /\
  messages_for defaultSet [Supporting "de" swissSet] "de"
    = Some (<["welcome" := "Grüezi"]> defaultSet) /\
  messages_for defaultSet [PartiallySupporting "de" swissSet] "de"
    = Some (<["welcome" := "Grüezi"]> defaultSet).
Proof.
  split; [|split; vm_compute; reflexivity].
  intros this language translation reg. split; [reflexivity|].
  unfold TranslatorImpl.supporting, TranslatorImpl.partiallySupporting, tag_.
  by destruct (languageTag language reg) as [[lang|e] reg'].
Qed.

(** ** [select] and [selectObject] *)

Section SelectProperties.

Context {P : Type}.
Variable formatObject : LanguageTag -> string -> P -> string.
Variable language : LanguageTag.

Lemma own_assign (option : string) (f : P -> string)
    (r : Format.OptionsFormat) (k : string) :
  Format.own (Format.assign option f r) !! k =
  if bool_decide (option = "__proto__") then Format.own r !! k
  else <[option := f]> (Format.own r) !! k.
Proof. unfold Format.assign. by case_bool_decide. Qed.

Lemma prototypeReplaced_assign (option : string) (f : P -> string)
    (r : Format.OptionsFormat) :
  Format.prototypeReplaced (Format.assign option f r) =
  bool_decide (option = "__proto__") || Format.prototypeReplaced r.
Proof. unfold Format.assign. by case_bool_decide. Qed.

Lemma buildOptionsFormat_spec (options : gmap string (option string)) :
  let optionsFormat := Format.buildOptionsFormat formatObject language options in
  (forall k : string,
     Format.own optionsFormat !! k =
     if bool_decide (k = "__proto__") then None
     else options !! k ≫= usable formatObject language) /\
  Format.prototypeReplaced optionsFormat
    = match options !! "__proto__" ≫= usable formatObject language with
      | Some _ => true
      | None => false
      end.
Proof.
  unfold Format.buildOptionsFormat.
  apply (map_fold_weak_ind
    (fun (r : Format.OptionsFormat) (m : gmap string (option string)) =>
       (forall k : string,
          Format.own r !! k =
          if bool_decide (k = "__proto__") then None
          else m !! k ≫= usable formatObject language) /\
       Format.prototypeReplaced r
         = match m !! "__proto__" ≫= usable formatObject language with
           | Some _ => true
           | None => false
           end)).
  - split.
    + intros k. rewrite !lookup_empty. by case_bool_decide.
    + rewrite lookup_empty. reflexivity.
  - intros i x m r Hfresh [Hown Hproto].
    assert (Hstep :
      (match x with
       | Some msg =>
           if truthy msg
           then Format.assign i (formatObject language msg) r
           else r
       | None => r
       end) =
      match usable formatObject language x with
      | Some f => Format.assign i f r
      | None => r
      end).
    { destruct x as [msg|]; simpl; [|done]. by destruct (truthy msg). }
    rewrite Hstep. clear Hstep. split.
    + intros k. specialize (Hown k).
      destruct (usable formatObject language x) as [f|] eqn:Hx.
      * rewrite own_assign.
        destruct (decide (i = "__proto__")) as [->|Hi].
        -- rewrite bool_decide_eq_true_2 by done. rewrite Hown.
           case_bool_decide as Hk; [done|]. by rewrite lookup_insert_ne.
        -- rewrite bool_decide_eq_false_2 by done.
           destruct (decide (i = k)) as [->|Hne].
           ++ rewrite !lookup_insert_eq. simpl.
              by rewrite bool_decide_eq_false_2.
           ++ by rewrite !lookup_insert_ne.
      * destruct (decide (i = k)) as [->|Hne].
        -- rewrite lookup_insert_eq. simpl. rewrite Hx.
           rewrite Hown, Hfresh. by case_bool_decide.
        -- by rewrite lookup_insert_ne.
    + destruct (usable formatObject language x) as [f|] eqn:Hx.
      * rewrite prototypeReplaced_assign.
        destruct (decide (i = "__proto__")) as [->|Hi].
        -- rewrite bool_decide_eq_true_2 by done.
           rewrite lookup_insert_eq. simpl. by rewrite Hx.
        -- rewrite bool_decide_eq_false_2 by done.
           by rewrite lookup_insert_ne.
      * destruct (decide (i = "__proto__")) as [->|Hi].
        -- rewrite lookup_insert_eq. simpl. rewrite Hx.
           by rewrite Hproto, Hfresh.
        -- by rewrite lookup_insert_ne.
Qed.

(** [optionsFormat[s]] in terms of the options. *)
Lemma get_buildOptionsFormat (options : gmap string (option string))
    (s : string) :
  Format.get (Format.buildOptionsFormat formatObject language options) s =
  match (if bool_decide (s = "__proto__") then None
         else options !! s ≫= usable formatObject language) with
  | Some f => Format.Own f
  | None =>
      match options !! "__proto__" ≫= usable formatObject language with
      | Some _ => Format.Delegated s
      | None =>
          if bool_decide (s ∈ objectPrototypeMembers)
          then Format.Inherited s
          else Format.Undefined
      end
  end.
Proof.
  destruct (buildOptionsFormat_spec options) as [Hown Hproto].
  unfold Format.get. rewrite Hown, Hproto.
  destruct (if bool_decide (s = "__proto__") then None
            else options !! s ≫= usable formatObject language); [done|].
  by destruct (options !! "__proto__" ≫= usable formatObject language).
Qed.

(** An own option with a non-empty message is chosen by its exact key. *)
Lemma selectObject_exact_key (selector : P -> string)
    (options : gmap string (option string)) (parameters : P) (f : P -> string) :
  selector parameters <> "__proto__" ->
  options !! selector parameters ≫= usable formatObject language = Some f ->
  Format.selectObject formatObject language selector options parameters
    = Message (f parameters).
Proof.
  intros Hs Hf. unfold Format.selectObject.
  rewrite get_buildOptionsFormat.
  rewrite bool_decide_eq_false_2 by done. by rewrite Hf.
Qed.

(** A selection that is no usable option and no member of
    [Object.prototype] falls back to [other]. *)
Lemma selectObject_falls_back_to_other (selector : P -> string)
    (options : gmap string (option string)) (parameters : P) (f : P -> string) :
  plain formatObject language options ->
  selector parameters ∉ objectPrototypeMembers ->
  options !! selector parameters ≫= usable formatObject language = None ->
  options !! "other" ≫= usable formatObject language = Some f ->
  Format.selectObject formatObject language selector options parameters
    = Message (f parameters).
Proof.
  intros Hplain Hs Hnone Hother. unfold Format.selectObject.
  rewrite !get_buildOptionsFormat. rewrite Hplain, Hnone, Hother.
  rewrite (bool_decide_eq_false_2 (selector parameters ∈ _)) by done.
  rewrite (bool_decide_eq_false_2 ("other" = "__proto__")) by done.
  by case_bool_decide.
Qed.

(** Without a usable [other] the same selection throws. *)
Lemma selectObject_throws (selector : P -> string)
    (options : gmap string (option string)) (parameters : P) :
  plain formatObject language options ->
  selector parameters ∉ objectPrototypeMembers ->
  options !! selector parameters ≫= usable formatObject language = None ->
  options !! "other" ≫= usable formatObject language = None ->
  Format.selectObject formatObject language selector options parameters
    = NoMatchingSelection
        ("Selection " +:+ dquote +:+ selector parameters +:+ dquote +:+
         " does not match any of the available options").
Proof.
  intros Hplain Hs Hnone Hother. unfold Format.selectObject.
  rewrite !get_buildOptionsFormat. rewrite Hplain, Hnone, Hother.
  rewrite (bool_decide_eq_false_2 (selector parameters ∈ _)) by done.
  assert (Hb : bool_decide ("other" ∈ objectPrototypeMembers) = false)
    by (vm_compute; reflexivity).
  rewrite Hb.
  destruct (bool_decide (selector parameters = "__proto__")); reflexivity.
Qed.

(** A selection that names a member of [Object.prototype] and no usable
    option reaches that member, with or without [other]. *)
Lemma selectObject_reaches_inherited_member (selector : P -> string)
    (options : gmap string (option string)) (parameters : P) :
  plain formatObject language options ->
  selector parameters <> "__proto__" ->
  selector parameters ∈ objectPrototypeMembers ->
  options !! selector parameters ≫= usable formatObject language = None ->
  Format.selectObject formatObject language selector options parameters
    = InheritedMember (selector parameters).
Proof.
  intros Hplain Hne Hs Hnone. unfold Format.selectObject.
  rewrite !get_buildOptionsFormat. rewrite Hplain, Hnone.
  rewrite (bool_decide_eq_false_2 (selector parameters = _)) by done.
  by rewrite (bool_decide_eq_true_2 (selector parameters ∈ _)).
Qed.

(** An option whose message is the empty string changes nothing: the
    function is the one the options without it give. *)
Lemma selectObject_ignores_empty_message (selector : P -> string)
    (options : gmap string (option string)) (k : string) (parameters : P) :
  options !! k = Some (Some "") ->
  Format.selectObject formatObject language selector options parameters
    = Format.selectObject formatObject language selector (delete k options)
        parameters.
Proof.
  intros Hk.
  assert (Hsame : forall s,
    delete k options !! s ≫= usable formatObject language
    = options !! s ≫= usable formatObject language).
  { intros s. destruct (decide (k = s)) as [->|Hne].
    - by rewrite lookup_delete_eq, Hk.
    - by rewrite lookup_delete_ne. }
  unfold Format.selectObject. rewrite !get_buildOptionsFormat.
  by rewrite !Hsame.
Qed.

End SelectProperties.

(** C8.  With the options of the tests, which have no [other], the
    selection [constructor] does not throw: [optionsFormat] is created by
    [{}], so [optionsFormat["constructor"]] is the member that every such
    object inherits, and the call goes to it.  The selection [toString]
    does the same, and with an [other] option neither falls back to it. *)
Theorem select_of_an_inherited_name :
  forall (formatObject : LanguageTag -> string -> string -> string)
         (language : LanguageTag),
    Format.select formatObject language outputTypeOptions "constructor"
      = InheritedMember "constructor" /\
    Format.select formatObject language outputTypeOptions "toString"
      = InheritedMember "toString" /\
    Format.select formatObject language
      (<["other" := Some "unknown"]> outputTypeOptions) "constructor"
      = InheritedMember "constructor" /\
    Format.select formatObject language outputTypeOptions "unknown"
      = NoMatchingSelection
          ("Selection " +:+ dquote +:+ "unknown" +:+ dquote +:+
           " does not match any of the available options") /\
    Format.select formatObject language
      (<["other" := Some "unknown"]> outputTypeOptions) "unknown"
      = Message (formatObject language "unknown" "unknown") /\
    Format.select formatObject language outputTypeOptions "error"
      = Message (formatObject language "An error occurred" "error").
Proof. intros formatObject language. repeat split; vm_compute; reflexivity. Qed.

(** C10.  With the option [constructor] set to the empty string and an
    [other] option, the selection [constructor] does not fall back to
    [other]; without [other] it does not throw.  In both cases the call
    goes to the member of that name that [optionsFormat] inherits, as it
    does when the option is absent. *)
Theorem selectObject_empty_message_of_an_inherited_name :
  forall (P : Type) (formatObject : LanguageTag -> string -> P -> string)
         (language : LanguageTag) (selector : P -> string) (parameters : P),
    selector parameters = "constructor" ->
    Format.selectObject formatObject language selector
      (<["constructor" := Some ""]> (<["other" := Some "Dear {name}"]> ∅))
      parameters
      = InheritedMember "constructor" /\
    Format.selectObject formatObject language selector
      (<["constructor" := Some ""]> ∅) parameters
      = InheritedMember "constructor".
Proof.
  intros P formatObject language selector parameters Hs.
  unfold Format.selectObject. rewrite Hs.
  split; vm_compute; reflexivity.
Qed.

Lemma selectObject_empty_message_of_an_inherited_name_witness :
  Format.selectObject literally
    (LanguageTagImpl 0 "en" None None None None None) (fun p => p)
    (<["constructor" := Some ""]> (<["other" := Some "Dear {name}"]> ∅))
    "constructor"
    = InheritedMember "constructor" /\
  Format.selectObject literally
    (LanguageTagImpl 0 "en" None None None None None) (fun p => p)
    (<["constructor" := Some ""]> ∅) "constructor"
    = InheritedMember "constructor".
Proof.
  apply (selectObject_empty_message_of_an_inherited_name string literally
           (LanguageTagImpl 0 "en" None None None None None) (fun p => p)
           "constructor" eq_refl).
Defined.

(** ** [buildRecursive] *)

(** The recursion of [buildRecursive] is the walk along the parent chain,
    and its result is the overlay of the layers taken from the far end of
    the chain back to the tag it started from. *)
Lemma buildRecursive_overlays_chain (this : Translator) (base : Messages)
    (requestedLanguage : LanguageTag) :
  forall (depth : nat) (translationLanguage : option LanguageTag)
         (reg : LanguageTags),
    TranslatorImpl.buildRecursive depth this base requestedLanguage
      translationLanguage reg =
    '(chain, reg') ← generalizations depth translationLanguage reg;
    Some (foldr (overlay this requestedLanguage) base chain, reg').
Proof.
  induction depth as [|depth IH]; intros translationLanguage reg; [done|].
  simpl. destruct translationLanguage as [tl|]; [|done].
  destruct (parent tl reg) as [up reg1].
  destruct (JsMap.get tl (translations this)) as [translation|] eqn:Htl;
    rewrite IH;
    destruct (generalizations depth up reg1) as [[chain reg2]|]; simpl;
    try reflexivity;
    change (overlay this requestedLanguage tl ?m)
      with (match JsMap.get tl (translations this) with
            | Some translation => spread m (translation requestedLanguage)
            | None => m
            end);
    by rewrite Htl.
Qed.

(** ** Strings *)

Module StringFacts.
Import JsString Text.

Lemma app_nil_l (s : string) : "" +:+ s = s.
Proof. reflexivity. Qed.

Lemma app_cons (c : ascii) (s t : string) :
  String c s +:+ t = String c (s +:+ t).
Proof. reflexivity. Qed.

Lemma app_nil_r (s : string) : s +:+ "" = s.
Proof. induction s as [|c s IH]; [done|]. by rewrite app_cons, IH. Qed.

Lemma app_assoc (s t u : string) : (s +:+ t) +:+ u = s +:+ t +:+ u.
Proof. induction s as [|c s IH]; [done|]. by rewrite !app_cons, IH. Qed.

Lemma length_app (s t : string) :
  String.length (s +:+ t) = String.length s + String.length t.
Proof. induction s as [|c s IH]; [done|]. rewrite app_cons. simpl. by rewrite IH. Qed.

Lemma all_app (p : ascii -> bool) (s t : string) :
  all p (s +:+ t) = all p s && all p t.
Proof.
  induction s as [|c s IH]; [done|]. rewrite app_cons. simpl.
  rewrite IH. by rewrite andb_assoc.
Qed.

Lemma all_impl (p q : ascii -> bool) (s : string) :
  (forall c, p c = true -> q c = true) -> all p s = true -> all q s = true.
Proof.
  intros Hpq. induction s as [|c s IH]; [done|]. simpl.
  rewrite !andb_true_iff. intros [Hc Hs]. split; auto.
Qed.

Lemma app_inj_length (a a' b b' : string) :
  String.length a = String.length a' ->
  a +:+ b = a' +:+ b' -> a = a' /\ b = b'.
Proof.
  revert a'. induction a as [|c a IH]; intros [|c' a'] Hlen Heq;
    try discriminate; [done|].
  rewrite !app_cons in Heq. injection Heq as -> Heq.
  destruct (IH a') as [-> ->]; [by injection Hlen|done|done].
Qed.

Lemma prefix_app (w r : string) : prefix (String.length w) (w +:+ r) = w.
Proof.
  induction w as [|c w IH]; [by destruct r|].
  rewrite app_cons. simpl. by rewrite IH.
Qed.

Lemma map_chars_app (f : ascii -> ascii) (s t : string) :
  map_chars f (s +:+ t) = map_chars f s +:+ map_chars f t.
Proof.
  induction s as [|c s IH]; [done|]. rewrite app_cons. simpl.
  by rewrite IH, app_cons.
Qed.

Lemma map_chars_length (f : ascii -> ascii) (s : string) :
  String.length (map_chars f s) = String.length s.
Proof. induction s as [|c s IH]; [done|]. simpl. by rewrite IH. Qed.

Lemma map_chars_compose (f g h : ascii -> ascii) (s : string) :
  (forall c, f (g c) = h c) -> map_chars f (map_chars g s) = map_chars h s.
Proof. intros H. induction s as [|c s IH]; [done|]. simpl. by rewrite H, IH. Qed.

Lemma map_chars_id (f : ascii -> ascii) (p : ascii -> bool) (s : string) :
  (forall c, p c = true -> f c = c) -> all p s = true -> map_chars f s = s.
Proof.
  intros H. induction s as [|c s IH]; [done|]. simpl.
  rewrite andb_true_iff. intros [Hc Hs]. by rewrite H, IH.
Qed.

Lemma truthy_map_chars (f : ascii -> ascii) (s : string) :
  truthy (map_chars f s) = truthy s.
Proof. by destruct s. Qed.

Lemma truthy_length (s : string) : truthy s = true <-> 0 < String.length s.
Proof. destruct s; simpl; split; (done || lia). Qed.

(** *** Characters *)

Lemma lower_lower (c : ascii) : lower_char (lower_char c) = lower_char c.
Proof. each_char c. Qed.

Lemma lower_upper (c : ascii) : lower_char (upper_char c) = lower_char c.
Proof. each_char c. Qed.

Lemma upper_upper (c : ascii) : upper_char (upper_char c) = upper_char c.
Proof. each_char c. Qed.

Lemma upper_lower (c : ascii) : upper_char (lower_char c) = upper_char c.
Proof. each_char c. Qed.

Lemma lower_not_upper (c : ascii) : not_upper (lower_char c) = true.
Proof. each_char c. Qed.

Lemma lower_fixes_not_upper (c : ascii) : not_upper c = true -> lower_char c = c.
Proof. each_char c. Qed.

Lemma lower_alnum_not_upper (c : ascii) : lower_alnum c = true -> not_upper c = true.
Proof. each_char c. Qed.

Lemma lower_alnum_not_dash (c : ascii) : lower_alnum c = true -> is_dash c = false.
Proof. each_char c. Qed.

Lemma is_lower_lower_alnum (c : ascii) : is_lower c = true -> lower_alnum c = true.
Proof. unfold lower_alnum. by intros ->. Qed.

Lemma is_digit_lower_alnum (c : ascii) : is_digit c = true -> lower_alnum c = true.
Proof. unfold lower_alnum. intros ->. by rewrite orb_true_r. Qed.

Lemma is_digit_not_lower (c : ascii) : is_digit c = true -> is_lower c = false.
Proof. each_char c. Qed.

Lemma chr_matches_dash (c : ascii) :
  RegExp.chr_matches true "-" c = true -> c = "-"%char.
Proof. each_char c. Qed.

Lemma cls_matches_letter (c : ascii) :
  RegExp.cls_matches true [("a", "z")]%char c = true ->
  not_upper c = true -> is_lower c = true.
Proof. each_char c. Qed.

Lemma cls_matches_digit (c : ascii) :
  RegExp.cls_matches true [("0", "9")]%char c = true -> is_digit c = true.
Proof. each_char c. Qed.

Lemma cls_matches_alnum (c : ascii) :
  RegExp.cls_matches true [("a", "z"); ("0", "9")]%char c = true ->
  not_upper c = true -> lower_alnum c = true.
Proof. each_char c. Qed.

Lemma cls_matches_digit_or_letter (c : ascii) :
  RegExp.cls_matches true [("0", "9"); ("a", "z")]%char c = true ->
  not_upper c = true -> lower_alnum c = true.
Proof. each_char c. Qed.

End StringFacts.

(** ** What a successful match says about the input *)

Module RegExpFacts.
Import JsString Text StringFacts RegExp Runs.

Section Runs.

Variable ignoreCase : bool.

Lemma repeat_sound R step k :
  sound_step R step ->
  forall budget min x c res,
    repeat step k budget min x c = Some res ->
    exists n y c',
      min <= n /\ n <= budget /\
      iter R n x c y c' /\ k y c' = Some res.
Proof.
  intros Hstep. induction budget as [|budget IH]; intros min x c res H.
  - simpl in H. destruct (Nat.eqb_spec min 0) as [->|]; [|done].
    exists 0, x, c. simpl. repeat split; (lia || done).
  - simpl in H.
    assert (Hiter : forall res',
      step x c (fun y c' =>
        if (min =? 0)%nat && (pos y =? pos x)%nat then None
        else repeat step k budget (Nat.pred min) y c') = Some res' ->
      exists n y c', min <= n /\ n <= S budget /\
                     iter R n x c y c' /\ k y c' = Some res').
    { intros res' H'. apply Hstep in H' as (z & c1 & Hz & H').
      destruct ((min =? 0)%nat && (pos z =? pos x)%nat); [done|].
      apply IH in H' as (n & y & c' & Hn & Hb & Hit & Hk).
      exists (S n), y, c'. repeat split; [lia|lia| |done].
      simpl. by exists z, c1. }
    destruct (Nat.eqb_spec min 0) as [->|Hmin].
    + destruct (step x c _) as [res'|] eqn:Hs.
      * injection H as ->. destruct (Hiter res eq_refl) as (n & y & c' & ? & ? & ? & ?).
        exists n, y, c'. repeat split; (lia || done).
      * exists 0, x, c. simpl. repeat split; (lia || done).
    + destruct (Hiter res H) as (n & y & c' & ? & ? & ? & ?).
      exists n, y, c'. repeat split; (lia || done).
Qed.

(** The matcher is sound for [runs]: a result comes from a run of the
    pattern followed by the continuation. *)
Lemma m_sound (r : re) : sound_step (runs ignoreCase r) (m ignoreCase r).
Proof.
  induction r as [| |p|ranges|r1 IH1 r2 IH2|r1 IH1 r2 IH2|min max r IH|n r IH|r IH];
    intros x c k res H; simpl in H.
  - destruct (Nat.eqb_spec (pos x) 0); [|done]. by exists x, c.
  - destruct (rest x) eqn:Hrest; [|done]. by exists x, c.
  - destruct (advance x) as [[ch y]|] eqn:Hadv; [|done].
    destruct (chr_matches ignoreCase p ch) eqn:Hch; [|done].
    exists y, c. split; [|done]. by exists ch.
  - destruct (advance x) as [[ch y]|] eqn:Hadv; [|done].
    destruct (cls_matches ignoreCase ranges ch) eqn:Hch; [|done].
    exists y, c. split; [|done]. by exists ch.
  - apply IH1 in H as (z & c1 & Hz & H).
    apply IH2 in H as (y & c' & Hy & H).
    exists y, c'. split; [|done]. by exists z, c1.
  - destruct (m ignoreCase r1 x c k) as [res'|] eqn:H1.
    + injection H as ->. apply IH1 in H1 as (y & c' & ? & ?).
      exists y, c'. split; [by left|done].
    + apply IH2 in H as (y & c' & ? & ?).
      exists y, c'. split; [by right|done].
  - apply (repeat_sound _ _ _ IH) in H as (n & y & c' & Hn & Hb & Hit & Hk).
    exists y, c'. split; [|done]. exists n. split; [lia|]. split; [|done].
    unfold budget_of in Hb. by destruct max.
  - apply IH in H as (y & c1 & Hy & H).
    exists y, (<[n := matched x y]> c1). split; [|done]. by exists c1.
  - by apply IH in H.
Qed.

Lemma consumes_refl (x : state) : consumes x x "".
Proof. split; simpl; [done|lia]. Qed.

Lemma consumes_trans (x y z : state) (w1 w2 : string) :
  consumes x y w1 -> consumes y z w2 -> consumes x z (w1 +:+ w2).
Proof.
  intros [H1 H1'] [H2 H2']. split.
  - by rewrite H1, H2, app_assoc.
  - rewrite length_app. lia.
Qed.

Lemma consumes_advance (x y : state) (ch : ascii) :
  advance x = Some (ch, y) -> consumes x y (String ch "").
Proof.
  unfold advance. destruct x as [p [|c t]]; simpl; [done|].
  intros [= -> <-]. split; simpl; [done|lia].
Qed.

Lemma matched_consumes (x y : state) (w : string) :
  consumes x y w -> matched x y = w.
Proof.
  intros [H1 H2]. unfold matched. rewrite H1, H2.
  replace (pos x + String.length w - pos x) with (String.length w) by lia.
  apply prefix_app.
Qed.

End Runs.

End RegExpFacts.

(** ** Subtags and their shapes *)

Module ShapeFacts.
Import JsString Text StringFacts Shape.

Lemma tokens_nonempty (s : string) : tokens s <> [].
Proof.
  destruct s as [|c t]; simpl; [done|].
  destruct (is_dash c); [done|]. by destruct (tokens t).
Qed.

Lemma tokens_dashfree_app (w r : string) :
  dashfree w = true -> tokens (w +:+ String "-" r) = w :: tokens r.
Proof.
  unfold dashfree. induction w as [|c w IH]; simpl; [done|].
  rewrite andb_true_iff, negb_true_iff. intros [Hc Hw].
  rewrite Hc. by rewrite (IH Hw).
Qed.

Lemma tokens_dashfree (w : string) : dashfree w = true -> tokens w = [w].
Proof.
  unfold dashfree. induction w as [|c w IH]; simpl; [done|].
  rewrite andb_true_iff, negb_true_iff. intros [Hc Hw].
  by rewrite Hc, (IH Hw).
Qed.

Lemma dashed_app (ws ws' : list string) :
  dashed (ws ++ ws') = dashed ws +:+ dashed ws'.
Proof.
  induction ws as [|w ws IH]; [done|]. simpl.
  by rewrite IH, app_cons, app_assoc.
Qed.

Lemma tokens_dashed (w : string) (ws : list string) :
  dashfree w = true -> forallb dashfree ws = true ->
  tokens (w +:+ dashed ws) = w :: ws.
Proof.
  revert w. induction ws as [|w' ws IH]; intros w Hw Hws; simpl.
  - rewrite app_nil_r. by apply tokens_dashfree.
  - simpl in Hws. apply andb_true_iff in Hws as [Hw' Hws].
    rewrite (tokens_dashfree_app _ _ Hw). by rewrite IH.
Qed.

Lemma dashed_tokens (x : string) : dashed (tokens x) = String "-" x.
Proof.
  induction x as [|c t IH]; [done|]. simpl.
  destruct (is_dash c) eqn:Hc.
  - apply bool_decide_eq_true in Hc as ->. simpl. by rewrite IH.
  - destruct (tokens t) as [|w ws] eqn:Ht; [by apply tokens_nonempty in Ht|].
    simpl in *. injection IH as IH. rewrite app_cons. by rewrite IH.
Qed.

Lemma tokens_all (p : ascii -> bool) (x : string) :
  forallb (all p) (tokens x) = true ->
  all (fun c => is_dash c || p c) x = true.
Proof.
  induction x as [|c t IH]; [done|]. cbn [tokens all].
  destruct (is_dash c) eqn:Hc.
  - cbn [forallb all orb andb]. exact IH.
  - destruct (tokens t) as [|w ws] eqn:Ht; [by apply tokens_nonempty in Ht|].
    cbn [forallb all orb] in *.
    rewrite !andb_true_iff. intros [[Hpc Hw] Hws].
    split; [done|]. apply IH. by rewrite Hw, Hws.
Qed.

Lemma tokens_are_dashfree (x : string) : forallb dashfree (tokens x) = true.
Proof.
  induction x as [|c t IH]; [done|]. simpl.
  destruct (is_dash c) eqn:Hc; [exact IH|].
  destruct (tokens t) as [|w ws] eqn:Ht; [by apply tokens_nonempty in Ht|].
  cbn [forallb] in *. unfold dashfree at 1. cbn [all]. rewrite Hc.
  exact IH.
Qed.

(** *** What a shape says *)

Lemma word_spec (lo hi : nat) (p : ascii -> bool) (w : string) :
  word lo hi p w = true <->
  lo <= String.length w <= hi /\ all p w = true.
Proof.
  unfold word. rewrite !andb_true_iff, !Nat.leb_le. tauto.
Qed.

Lemma word_false_length (lo hi : nat) (p : ascii -> bool) (w : string) :
  String.length w < lo \/ hi < String.length w -> word lo hi p w = false.
Proof.
  intros H. apply not_true_is_false. rewrite word_spec. lia.
Qed.

Lemma word_weaken (lo hi : nat) (p q : ascii -> bool) (w : string) :
  (forall c, p c = true -> q c = true) ->
  word lo hi p w = true -> all q w = true.
Proof. intros Hpq [_ H]%word_spec. by eapply all_impl. Qed.

Lemma word_plain (lo hi : nat) (p : ascii -> bool) (w : string) :
  1 <= lo -> (forall c, p c = true -> lower_alnum c = true) ->
  word lo hi p w = true -> plain_word w = true.
Proof.
  intros Hlo Hp H. unfold plain_word.
  pose proof (word_weaken _ _ _ _ _ Hp H) as ->.
  apply word_spec in H as [H _]. rewrite andb_true_r. apply Nat.leb_le. lia.
Qed.

Lemma language_plain w : language_ok w = true -> plain_word w = true.
Proof. apply word_plain; [lia|apply is_lower_lower_alnum]. Qed.

Lemma extendedLanguage_plain w : extendedLanguage_ok w = true -> plain_word w = true.
Proof. apply word_plain; [lia|apply is_lower_lower_alnum]. Qed.

Lemma script_plain w : script_ok w = true -> plain_word w = true.
Proof. apply word_plain; [lia|apply is_lower_lower_alnum]. Qed.

Lemma region_plain w : region_ok w = true -> plain_word w = true.
Proof.
  unfold region_ok. rewrite orb_true_iff. intros [H|H]; revert H.
  - apply word_plain; [lia|apply is_lower_lower_alnum].
  - apply word_plain; [lia|apply is_digit_lower_alnum].
Qed.

Lemma variant_plain w : variant_ok w = true -> plain_word w = true.
Proof.
  unfold variant_ok. rewrite orb_true_iff. intros [H|H].
  - revert H. apply word_plain; [lia|apply is_lower_lower_alnum].
  - destruct w as [|d t]; [done|]. apply andb_true_iff in H as [Hd Ht].
    unfold plain_word. simpl. rewrite (is_digit_lower_alnum _ Hd). simpl.
    by apply word_spec in Ht as [_ ->].
Qed.

Lemma singleton_plain w : singleton_ok w = true -> plain_word w = true.
Proof. by apply word_plain; [lia|]. Qed.

Lemma part_plain w : part_ok w = true -> plain_word w = true.
Proof. by apply word_plain; [lia|]. Qed.

Lemma plain_word_dashfree w : plain_word w = true -> dashfree w = true.
Proof.
  unfold plain_word, dashfree. rewrite andb_true_iff. intros [_ H].
  eapply all_impl; [|exact H]. intros c Hc. simpl.
  by rewrite (lower_alnum_not_dash _ Hc).
Qed.

Lemma plain_word_lower w : plain_word w = true -> toLowerCase w = w.
Proof.
  unfold plain_word. rewrite andb_true_iff. intros [_ H].
  apply (map_chars_id _ lower_alnum); [|done].
  intros c Hc. apply lower_fixes_not_upper. by apply lower_alnum_not_upper.
Qed.

Lemma plain_word_truthy w : plain_word w = true -> truthy w = true.
Proof.
  unfold plain_word. rewrite andb_true_iff, Nat.leb_le. intros [H _].
  apply truthy_length. lia.
Qed.

Lemma forallb_weaken {A : Type} (p q : A -> bool) (l : list A) :
  (forall x, p x = true -> q x = true) ->
  forallb p l = true -> forallb q l = true.
Proof.
  intros Hpq. induction l as [|x l IH]; [done|]. cbn [forallb].
  rewrite !andb_true_iff. intros [Hx Hl]. auto.
Qed.

Lemma extension_tokens_plain (ws : list string) :
  extension_tokens_ok ws = true -> forallb plain_word ws = true.
Proof.
  destruct ws as [|c [|w ws]]; try done.
  unfold extension_tokens_ok. rewrite andb_true_iff. intros [Hc Hws].
  change (forallb plain_word (c :: w :: ws))
    with (plain_word c && forallb plain_word (w :: ws)).
  rewrite (singleton_plain _ Hc).
  apply (forallb_weaken _ _ _ part_plain Hws).
Qed.

Lemma extension_lower x : extension_ok x = true -> toLowerCase x = x.
Proof.
  intros H%extension_tokens_plain.
  apply (map_chars_id _ (fun c => is_dash c || lower_alnum c)).
  - intros c Hc. apply lower_fixes_not_upper. revert Hc. each_char c.
  - apply tokens_all. revert H. apply forallb_weaken.
    intros w Hw. by apply andb_true_iff in Hw as [_ ->].
Qed.

Lemma extension_truthy x : extension_ok x = true -> truthy x = true.
Proof. by destruct x. Qed.

(** *** Telling the kinds of words apart *)

Lemma region_length w : region_ok w = true -> String.length w = 2.
Proof.
  unfold region_ok. rewrite orb_true_iff.
  intros [[H _]%word_spec|[H _]%word_spec]; lia.
Qed.

Lemma variant_length w : variant_ok w = true -> 4 <= String.length w <= 8.
Proof.
  unfold variant_ok. rewrite orb_true_iff. intros [[H _]%word_spec|H]; [lia|].
  destruct w as [|d t]; [done|]. apply andb_true_iff in H as [_ [H _]%word_spec].
  simpl. lia.
Qed.

Lemma all_lower_head_not_digit (d : ascii) (t : string) :
  all is_lower (String d t) = true -> is_digit d = false.
Proof.
  simpl. rewrite andb_true_iff. intros [H _].
  destruct (is_digit d) eqn:Hd; [|done].
  by rewrite (is_digit_not_lower _ Hd) in H.
Qed.

Lemma script_not_extendedLanguage w :
  script_ok w = true -> extendedLanguage_ok w = false.
Proof. intros [H _]%word_spec. apply word_false_length. lia. Qed.

Lemma region_not_extendedLanguage w :
  region_ok w = true -> extendedLanguage_ok w = false.
Proof. intros H%region_length. apply word_false_length. lia. Qed.

Lemma variant_not_extendedLanguage w :
  variant_ok w = true -> extendedLanguage_ok w = false.
Proof. intros H%variant_length. apply word_false_length. lia. Qed.

Lemma singleton_not_extendedLanguage w :
  singleton_ok w = true -> extendedLanguage_ok w = false.
Proof. intros [H _]%word_spec. apply word_false_length. lia. Qed.

Lemma region_not_script w : region_ok w = true -> script_ok w = false.
Proof. intros H%region_length. apply word_false_length. lia. Qed.

Lemma variant_not_script w : variant_ok w = true -> script_ok w = false.
Proof.
  unfold variant_ok. rewrite orb_true_iff. intros [[H _]%word_spec|H].
  - apply word_false_length. lia.
  - destruct w as [|d t]; [done|]. apply andb_true_iff in H as [Hd _].
    apply not_true_is_false. intros [_ Hall]%word_spec.
    apply all_lower_head_not_digit in Hall. congruence.
Qed.

Lemma singleton_not_script w : singleton_ok w = true -> script_ok w = false.
Proof. intros [H _]%word_spec. apply word_false_length. lia. Qed.

Lemma variant_not_region w : variant_ok w = true -> region_ok w = false.
Proof.
  intros H%variant_length. unfold region_ok.
  rewrite !word_false_length; (done || lia).
Qed.

Lemma singleton_not_region w : singleton_ok w = true -> region_ok w = false.
Proof.
  intros [H _]%word_spec. unfold region_ok.
  rewrite !word_false_length; (done || lia).
Qed.

Lemma singleton_not_variant w : singleton_ok w = true -> variant_ok w = false.
Proof.
  intros [H _]%word_spec. apply not_true_is_false.
  intros H'%variant_length. lia.
Qed.

Lemma head_not_option_list (ok : string -> bool) (o : option string)
    (ws : list string) :
  head_not ok (option_list o ++ ws) =
  match o with
  | Some w => negb (ok w)
  | None => head_not ok ws
  end.
Proof. by destruct o. Qed.

(** An optional word in front of a list whose first word is of another
    kind can be read back. *)
Lemma option_list_app_inj (ok : string -> bool) (o o' : option string)
    (ws ws' : list string) :
  optional ok o = true -> optional ok o' = true ->
  head_not ok ws = true -> head_not ok ws' = true ->
  option_list o ++ ws = option_list o' ++ ws' -> o = o' /\ ws = ws'.
Proof.
  destruct o as [w|], o' as [w'|]; simpl; intros Ho Ho' Hws Hws' Heq.
  - by injection Heq as -> ->.
  - subst ws'. simpl in Hws'. by rewrite Ho in Hws'.
  - subst ws. simpl in Hws. by rewrite Ho' in Hws.
  - done.
Qed.

Lemma words_of_eq (a : SubTags) :
  words_of a =
  option_list (s_extendedLanguage a) ++
  option_list (s_script a) ++
  option_list (s_region a) ++
  option_list (s_variant a) ++ tokens_of (s_extension a).
Proof. reflexivity. Qed.

Lemma tokens_of_inj (x x' : option string) :
  tokens_of x = tokens_of x' -> x = x'.
Proof.
  destruct x as [x|], x' as [x'|]; simpl; intros H.
  - f_equal. pose proof (dashed_tokens x) as Hx.
    rewrite H, dashed_tokens in Hx. by injection Hx.
  - by apply tokens_nonempty in H.
  - symmetry in H. by apply tokens_nonempty in H.
  - done.
Qed.

Section Heads.

Variable a : SubTags.
Hypothesis Hshaped : shaped a = true.

Lemma shaped_parts :
  language_ok (s_language a) = true /\
  optional extendedLanguage_ok (s_extendedLanguage a) = true /\
  optional script_ok (s_script a) = true /\
  optional region_ok (s_region a) = true /\
  optional variant_ok (s_variant a) = true /\
  optional extension_ok (s_extension a) = true.
Proof.
  unfold shaped in Hshaped. rewrite !andb_true_iff in Hshaped. tauto.
Qed.

Lemma extension_head (ok : string -> bool) :
  (forall w, singleton_ok w = true -> ok w = false) ->
  head_not ok (tokens_of (s_extension a)) = true.
Proof.
  intros Hok. destruct shaped_parts as (_ & _ & _ & _ & _ & Hx).
  destruct (s_extension a) as [x|]; [|done]. simpl in *.
  unfold extension_ok in Hx. destruct (tokens x) as [|c [|w ws]]; try done.
  simpl in *. apply andb_true_iff in Hx as [Hc _]. by rewrite Hok.
Qed.

Lemma variant_head (ok : string -> bool) :
  (forall w, variant_ok w = true -> ok w = false) ->
  (forall w, singleton_ok w = true -> ok w = false) ->
  head_not ok (option_list (s_variant a) ++ tokens_of (s_extension a)) = true.
Proof.
  intros Hv Hx. rewrite head_not_option_list.
  destruct shaped_parts as (_ & _ & _ & _ & Hv' & _).
  destruct (s_variant a) as [v|]; simpl in *; [by rewrite Hv|].
  by apply extension_head.
Qed.

Lemma region_head (ok : string -> bool) :
  (forall w, region_ok w = true -> ok w = false) ->
  (forall w, variant_ok w = true -> ok w = false) ->
  (forall w, singleton_ok w = true -> ok w = false) ->
  head_not ok (option_list (s_region a) ++ option_list (s_variant a) ++
               tokens_of (s_extension a)) = true.
Proof.
  intros Hr Hv Hx. rewrite head_not_option_list.
  destruct shaped_parts as (_ & _ & _ & Hr' & _ & _).
  destruct (s_region a) as [r|]; simpl in *; [by rewrite Hr|].
  by apply variant_head.
Qed.

Lemma script_head (ok : string -> bool) :
  (forall w, script_ok w = true -> ok w = false) ->
  (forall w, region_ok w = true -> ok w = false) ->
  (forall w, variant_ok w = true -> ok w = false) ->
  (forall w, singleton_ok w = true -> ok w = false) ->
  head_not ok (option_list (s_script a) ++ option_list (s_region a) ++
               option_list (s_variant a) ++ tokens_of (s_extension a)) = true.
Proof.
  intros Hs Hr Hv Hx. rewrite head_not_option_list.
  destruct shaped_parts as (_ & _ & Hs' & _ & _ & _).
  destruct (s_script a) as [w|]; simpl in *; [by rewrite Hs|].
  by apply region_head.
Qed.

Lemma words_head (ok : string -> bool) :
  (forall w, extendedLanguage_ok w = true -> ok w = false) ->
  (forall w, script_ok w = true -> ok w = false) ->
  (forall w, region_ok w = true -> ok w = false) ->
  (forall w, variant_ok w = true -> ok w = false) ->
  (forall w, singleton_ok w = true -> ok w = false) ->
  head_not ok (words_of a) = true.
Proof.
  intros He Hs Hr Hv Hx. rewrite words_of_eq, head_not_option_list.
  destruct shaped_parts as (_ & He' & _ & _ & _ & _).
  destruct (s_extendedLanguage a) as [w|]; simpl in *; [by rewrite He|].
  by apply script_head.
Qed.

Lemma words_plain : forallb plain_word (words_of a) = true.
Proof.
  destruct shaped_parts as (_ & He & Hs & Hr & Hv & Hx).
  rewrite words_of_eq, !forallb_app.
  destruct (s_extendedLanguage a), (s_script a), (s_region a), (s_variant a);
    simpl in *;
    rewrite ?(extendedLanguage_plain _ He), ?(script_plain _ Hs),
      ?(region_plain _ Hr), ?(variant_plain _ Hv); simpl;
    (destruct (s_extension a); simpl in *;
     [by apply extension_tokens_plain|done]).
Qed.

Lemma tokens_key_of : tokens (key_of a) = s_language a :: words_of a.
Proof.
  destruct shaped_parts as (Hl & _).
  apply tokens_dashed.
  - by apply plain_word_dashfree, language_plain.
  - eapply forallb_weaken; [apply plain_word_dashfree|apply words_plain].
Qed.

End Heads.

(** Shaped subtags can be read back from their key. *)
Lemma key_of_inj (a b : SubTags) :
  shaped a = true -> shaped b = true -> key_of a = key_of b -> a = b.
Proof.
  intros Ha Hb Hkey.
  pose proof (tokens_key_of a Ha) as Hta. rewrite Hkey in Hta.
  rewrite (tokens_key_of b Hb) in Hta. injection Hta as Hl Hw.
  rewrite !words_of_eq in Hw.
  destruct (shaped_parts a Ha) as (_ & Hae & Has & Har & Hav & _).
  destruct (shaped_parts b Hb) as (_ & Hbe & Hbs & Hbr & Hbv & _).
  apply (option_list_app_inj extendedLanguage_ok) in Hw as [He Hw];
    try done;
    try (apply script_head; auto using script_not_extendedLanguage,
           region_not_extendedLanguage, variant_not_extendedLanguage,
           singleton_not_extendedLanguage).
  apply (option_list_app_inj script_ok) in Hw as [Hs Hw];
    try done;
    try (apply region_head; auto using region_not_script,
           variant_not_script, singleton_not_script).
  apply (option_list_app_inj region_ok) in Hw as [Hr Hw];
    try done;
    try (apply variant_head; auto using variant_not_region,
           singleton_not_region).
  apply (option_list_app_inj variant_ok) in Hw as [Hv Hw];
    try done;
    try (apply extension_head; auto using singleton_not_variant).
  apply tokens_of_inj in Hw.
  destruct a, b; simpl in *; congruence.
Qed.

End ShapeFacts.

(** ** The registry on shaped subtags *)

Module RegistryFacts.
Import JsString Text StringFacts Shape ShapeFacts Registry.

Lemma fromSubTagsOf_eq (a : SubTags) (reg : LanguageTags) :
  fromSubTagsOf a reg =
  match instances reg !! unifiedTag a with
  | Some existing => (existing, reg)
  | None =>
      (tag_of_subtags (allocated reg) a,
       mkLanguageTags
         (<[unifiedTag a := tag_of_subtags (allocated reg) a]> (instances reg))
         (S (allocated reg)))
  end.
Proof. reflexivity. Qed.

Lemma subtags_tag_of_subtags (n : nat) (a : SubTags) :
  subtags (tag_of_subtags n a) = normalized a.
Proof. reflexivity. Qed.

(** *** Case changes *)

Lemma toLowerCase_idem w : toLowerCase (toLowerCase w) = toLowerCase w.
Proof. apply map_chars_compose, lower_lower. Qed.

Lemma toLowerCase_toUpperCase w : toLowerCase (toUpperCase w) = toLowerCase w.
Proof. apply map_chars_compose, lower_upper. Qed.

Lemma toUpperCase_idem w : toUpperCase (toUpperCase w) = toUpperCase w.
Proof. apply map_chars_compose, upper_upper. Qed.

Lemma toUpperCase_digits w : all is_digit w = true -> toUpperCase w = w.
Proof. apply map_chars_id. intros c. each_char c. Qed.

Lemma titleCase_cons c t :
  titleCase (String c t) = String (upper_char c) (toLowerCase t).
Proof. reflexivity. Qed.

Lemma toLowerCase_titleCase w : toLowerCase (titleCase w) = toLowerCase w.
Proof.
  destruct w as [|c t]; [done|]. rewrite titleCase_cons.
  change (toLowerCase (String ?c ?t))
    with (String (lower_char c) (toLowerCase t)).
  by rewrite lower_upper, toLowerCase_idem.
Qed.

Lemma titleCase_idem w : titleCase (titleCase w) = titleCase w.
Proof.
  destruct w as [|c t]; [done|]. rewrite !titleCase_cons.
  by rewrite upper_upper, toLowerCase_idem.
Qed.

Lemma truthy_titleCase w : truthy (titleCase w) = truthy w.
Proof. by destruct w. Qed.

Lemma toLowerCase_case_change : case_change toLowerCase.
Proof.
  repeat split; intros w;
    [apply truthy_map_chars|apply toLowerCase_idem|apply toLowerCase_idem].
Qed.

Lemma toUpperCase_case_change : case_change toUpperCase.
Proof.
  repeat split; intros w;
    [apply truthy_map_chars|apply toUpperCase_idem|apply toLowerCase_toUpperCase].
Qed.

Lemma titleCase_case_change : case_change titleCase.
Proof.
  repeat split; intros w;
    [apply truthy_titleCase|apply titleCase_idem|apply toLowerCase_titleCase].
Qed.

Lemma transform_idem f o :
  case_change f -> transform (transform o f) f = transform o f.
Proof.
  intros (Ht & Hi & _). destruct o as [w|]; [|done]. simpl.
  destruct (truthy w) eqn:Hw; [|done]. simpl. by rewrite Ht, Hw, Hi.
Qed.

Lemma unifiedSubtag_transform f o :
  case_change f -> unifiedSubtag (transform o f) = unifiedSubtag o.
Proof.
  intros (Ht & _ & Hl). destruct o as [w|]; [|done]. simpl.
  destruct (truthy w) eqn:Hw; [|done]. simpl. by rewrite Ht, Hw, Hl.
Qed.

Lemma truthy_opt_transform f o :
  case_change f -> truthy_opt (transform o f) = truthy_opt o.
Proof.
  intros (Ht & _ & _). destruct o as [w|]; [|done]. simpl.
  destruct (truthy w) eqn:Hw; [|done]. simpl. by rewrite Ht.
Qed.

Lemma unifiedTag_normalized (a : SubTags) :
  unifiedTag (normalized a) = unifiedTag a.
Proof.
  unfold unifiedTag, normalized. simpl.
  rewrite toLowerCase_idem.
  by rewrite !unifiedSubtag_transform
    by auto using toLowerCase_case_change, toUpperCase_case_change,
                  titleCase_case_change.
Qed.

Lemma tag_of_subtags_normalized (n : nat) (a : SubTags) :
  tag_of_subtags n (normalized a) = tag_of_subtags n a.
Proof.
  unfold tag_of_subtags, normalized, LanguageTagImpl. simpl.
  rewrite toLowerCase_idem.
  by rewrite !transform_idem
    by auto using toLowerCase_case_change, toUpperCase_case_change,
                  titleCase_case_change.
Qed.

Lemma fromSubTagsOf_normalized (a : SubTags) (reg : LanguageTags) :
  fromSubTagsOf (normalized a) reg = fromSubTagsOf a reg.
Proof.
  by rewrite !fromSubTagsOf_eq, unifiedTag_normalized,
    tag_of_subtags_normalized.
Qed.

(** *** Shaped subtags *)

Lemma unifiedSubtag_plain (ok : string -> bool) (o : option string) :
  (forall w, ok w = true -> plain_word w = true) ->
  optional ok o = true -> unifiedSubtag o = dashed (option_list o).
Proof.
  intros Hok Ho. destruct o as [w|]; [|done]. simpl in *.
  apply Hok in Ho. rewrite (plain_word_truthy _ Ho), (plain_word_lower _ Ho).
  by rewrite app_nil_r.
Qed.

Lemma unifiedSubtag_extension (x : option string) :
  optional extension_ok x = true -> unifiedSubtag x = dashed (tokens_of x).
Proof.
  intros Hx. destruct x as [x|]; [|done]. simpl in *.
  rewrite (extension_truthy _ Hx), (extension_lower _ Hx).
  by rewrite dashed_tokens.
Qed.

Lemma unifiedTag_shaped (a : SubTags) :
  shaped a = true -> unifiedTag a = key_of a.
Proof.
  intros Ha. destruct (shaped_parts a Ha) as (Hl & He & Hs & Hr & Hv & Hx).
  unfold unifiedTag, key_of. rewrite words_of_eq, !dashed_app.
  rewrite (plain_word_lower _ (language_plain _ Hl)).
  rewrite (unifiedSubtag_plain _ _ extendedLanguage_plain He).
  rewrite (unifiedSubtag_plain _ _ script_plain Hs).
  rewrite (unifiedSubtag_plain _ _ region_plain Hr).
  rewrite (unifiedSubtag_plain _ _ variant_plain Hv).
  by rewrite (unifiedSubtag_extension _ Hx).
Qed.

Lemma truthy_opt_plain (ok : string -> bool) (o : option string) :
  (forall w, ok w = true -> truthy w = true) ->
  optional ok o = true ->
  truthy_opt o = match o with Some _ => true | None => false end.
Proof. intros Hok Ho. destruct o as [w|]; [|done]. simpl in *. auto. Qed.

Lemma generalize_shaped (a b : SubTags) :
  shaped a = true -> generalize a = Some b -> shaped b = true.
Proof.
  intros Ha. destruct (shaped_parts a Ha) as (Hl & He & Hs & Hr & Hv & Hx).
  unfold generalize.
  destruct (s_extension a), (s_variant a), (s_region a), (s_script a),
    (s_extendedLanguage a); intros [= <-]; unfold shaped; simpl in *;
    by rewrite ?Hl, ?He, ?Hs, ?Hr, ?Hv.
Qed.

(** [parent] on the tag built from shaped subtags: the registry is asked
    for the subtags without the most specific one. *)
Lemma parent_tag_of_subtags (n : nat) (a : SubTags) (reg : LanguageTags) :
  shaped a = true ->
  parent (tag_of_subtags n a) reg =
  match generalize a with
  | Some b => defined (fromSubTagsOf b reg)
  | None => (None, reg)
  end.
Proof.
  intros Ha. destruct (shaped_parts a Ha) as (Hl & He & Hs & Hr & Hv & Hx).
  unfold parent.
  change (extension (tag_of_subtags n a))
    with (transform (s_extension a) toLowerCase).
  change (variant (tag_of_subtags n a))
    with (transform (s_variant a) toLowerCase).
  change (region (tag_of_subtags n a))
    with (transform (s_region a) toUpperCase).
  change (script (tag_of_subtags n a))
    with (transform (s_script a) titleCase).
  change (extendedLanguage (tag_of_subtags n a))
    with (transform (s_extendedLanguage a) toLowerCase).
  rewrite !truthy_opt_transform
    by auto using toLowerCase_case_change, toUpperCase_case_change,
                  titleCase_case_change.
  rewrite (truthy_opt_plain _ _ extension_truthy Hx).
  rewrite (truthy_opt_plain _ _
             (fun w H => plain_word_truthy w (variant_plain w H)) Hv).
  rewrite (truthy_opt_plain _ _
             (fun w H => plain_word_truthy w (region_plain w H)) Hr).
  rewrite (truthy_opt_plain _ _
             (fun w H => plain_word_truthy w (script_plain w H)) Hs).
  rewrite (truthy_opt_plain _ _
             (fun w H => plain_word_truthy w (extendedLanguage_plain w H)) He).
  unfold generalize.
  destruct (s_extension a) as [x|] eqn:Ex.
  { change (withoutExtension (tag_of_subtags n a) reg)
      with (fromSubTagsOf
              (normalized (mkSubTags (s_language a) (s_extendedLanguage a)
                             (s_script a) (s_region a) (s_variant a) None))
              reg).
    by rewrite fromSubTagsOf_normalized. }
  destruct (s_variant a) as [v|] eqn:Ev.
  { change (withoutVariant (tag_of_subtags n a) reg)
      with (fromSubTagsOf
              (normalized (mkSubTags (s_language a) (s_extendedLanguage a)
                             (s_script a) (s_region a) None None))
              reg).
    by rewrite fromSubTagsOf_normalized. }
  destruct (s_region a) as [r|] eqn:Er.
  { change (withoutRegion (tag_of_subtags n a) reg)
      with (fromSubTagsOf
              (normalized (mkSubTags (s_language a) (s_extendedLanguage a)
                             (s_script a) None None None))
              reg).
    by rewrite fromSubTagsOf_normalized. }
  destruct (s_script a) as [s|] eqn:Es.
  { change (withoutScript (tag_of_subtags n a) reg)
      with (fromSubTagsOf
              (normalized (mkSubTags (s_language a) (s_extendedLanguage a)
                             None None None None))
              reg).
    by rewrite fromSubTagsOf_normalized. }
  destruct (s_extendedLanguage a) as [e|] eqn:Ee; [|done].
  change (withoutExtendedLanguage (tag_of_subtags n a) reg)
    with (fromSubTagsOf
            (normalized (mkSubTags (s_language a) None None None None None))
            reg).
  by rewrite fromSubTagsOf_normalized.
Qed.

End RegistryFacts.

(** ** What the tag pattern accepts *)

Module PatternFacts.
Import JsString Text StringFacts RegExp Runs RegExpFacts Shape ShapeFacts
       Groups.

Lemma consumes_all (p : ascii -> bool) (x y : state) (w : string) :
  consumes x y w -> all p (rest x) = true ->
  all p w = true /\ all p (rest y) = true.
Proof. intros [-> _]. rewrite all_app. apply andb_true_iff. Qed.

Lemma iter_cls (ranges : list (ascii * ascii)) (n : nat) x c y c' :
  iter (runs true (Cls ranges)) n x c y c' ->
  c' = c /\
  exists w, consumes x y w /\ String.length w = n /\
            all (cls_matches true ranges) w = true.
Proof.
  revert x c. induction n as [|n IH]; intros x c; simpl.
  - intros [-> ->]. split; [done|]. exists "". split; [apply consumes_refl|done].
  - intros (z & c1 & (ch & Hadv & Hch & ->) & Hit).
    apply IH in Hit as (-> & w & Hw & Hlen & Hall). split; [done|].
    exists (String ch w). split; [|split].
    + apply (consumes_trans _ _ _ _ _ (consumes_advance _ _ _ Hadv) Hw).
    + simpl. by rewrite Hlen.
    + simpl. by rewrite Hch, Hall.
Qed.

Lemma runs_times (lo hi : nat) (ranges : list (ascii * ascii)) x c y c' :
  runs true (times lo hi (Cls ranges)) x c y c' ->
  c' = c /\
  exists w, consumes x y w /\ lo <= String.length w <= hi /\
            all (cls_matches true ranges) w = true.
Proof.
  intros (n & Hlo & Hhi & Hit). simpl in Hhi.
  apply iter_cls in Hit as (-> & w & Hw & Hlen & Hall). split; [done|].
  exists w. split; [done|]. split; [lia|done].
Qed.

Lemma runs_dash x c y c' :
  runs true dash x c y c' -> c' = c /\ consumes x y "-".
Proof.
  intros (ch & Hadv & Hch & ->). split; [done|].
  apply chr_matches_dash in Hch as ->. by apply consumes_advance.
Qed.

Lemma runs_cls (ranges : list (ascii * ascii)) x c y c' :
  runs true (Cls ranges) x c y c' ->
  c' = c /\ exists ch, consumes x y (String ch "") /\
                       cls_matches true ranges ch = true.
Proof.
  intros (ch & Hadv & Hch & ->). split; [done|].
  exists ch. split; [by apply consumes_advance|done].
Qed.

(** A word of letters in an input without upper case. *)
Lemma letters_lower (w : string) :
  all not_upper w = true ->
  all (cls_matches true [("a", "z")]%char) w = true ->
  all is_lower w = true.
Proof.
  induction w as [|ch w IH]; [done|]. simpl.
  rewrite !andb_true_iff. intros [Hu Hw] [Hch Hall].
  split; [by apply cls_matches_letter|auto].
Qed.

Lemma digits_digit (w : string) :
  all (cls_matches true [("0", "9")]%char) w = true ->
  all is_digit w = true.
Proof. apply all_impl, cls_matches_digit. Qed.

Lemma alnums_lower (w : string) :
  all not_upper w = true ->
  all (cls_matches true [("a", "z"); ("0", "9")]%char) w = true ->
  all lower_alnum w = true.
Proof.
  induction w as [|ch w IH]; [done|]. simpl.
  rewrite !andb_true_iff. intros [Hu Hw] [Hch Hall].
  split; [by apply cls_matches_alnum|auto].
Qed.

(** The word that a dash and a run of a class consume. *)
Lemma runs_dash_times (lo hi : nat) (ranges : list (ascii * ascii)) x c y c' :
  runs true (dash +> times lo hi (Cls ranges))%re x c y c' ->
  c' = c /\
  exists w, consumes x y (String "-" w) /\ lo <= String.length w <= hi /\
            all (cls_matches true ranges) w = true.
Proof.
  intros (z & c1 & [-> Hd]%runs_dash & (-> & w & Hw & Hlen & Hall)%runs_times).
  split; [done|]. exists w. split; [|done].
  apply (consumes_trans _ _ _ _ _ Hd Hw).
Qed.

(** The text of an optional group: empty when the group took no part,
    and of the form [Q] when it did. *)
Lemma runs_opt_grp (n : nat) (r : re) (Q : string -> Prop) x c y c' :
  (forall x c y c1,
     runs true r x c y c1 -> all not_upper (rest x) = true ->
     c1 = c /\ exists w, consumes x y w /\ Q w) ->
  runs true (Opt (Grp n r)) x c y c' ->
  all not_upper (rest x) = true ->
  exists w, consumes x y w /\
            ((w = "" /\ c' = c) \/ (Q w /\ c' = <[n := w]> c)).
Proof.
  intros Hr (k & _ & Hk & Hit) Hx. simpl in Hk.
  destruct k as [|[|k]]; [| |lia]; simpl in Hit.
  - destruct Hit as [-> ->]. exists "". split; [apply consumes_refl|by left].
  - destruct Hit as (z & c1 & (c2 & Hrun & ->) & -> & ->).
    destruct (Hr _ _ _ _ Hrun Hx) as (-> & w & Hw & HQ).
    exists w. split; [done|]. right. split; [done|].
    by rewrite (matched_consumes _ _ _ Hw).
Qed.

Lemma runs_extendedLanguage x c y c1 :
  runs true (dash +> times 3 3 lower_letter)%re x c y c1 ->
  all not_upper (rest x) = true ->
  c1 = c /\ exists w, consumes x y w /\ dash_then extendedLanguage_ok w.
Proof.
  intros (-> & e & Hw & Hlen & Hall)%runs_dash_times Hx. split; [done|].
  exists (String "-" e). split; [done|]. exists e. split; [done|].
  apply word_spec. split; [done|].
  destruct (consumes_all _ _ _ _ Hw Hx) as [Hu _]. simpl in Hu.
  by apply letters_lower.
Qed.

Lemma runs_script x c y c1 :
  runs true (dash +> times 4 4 lower_letter)%re x c y c1 ->
  all not_upper (rest x) = true ->
  c1 = c /\ exists w, consumes x y w /\ dash_then script_ok w.
Proof.
  intros (-> & e & Hw & Hlen & Hall)%runs_dash_times Hx. split; [done|].
  exists (String "-" e). split; [done|]. exists e. split; [done|].
  apply word_spec. split; [done|].
  destruct (consumes_all _ _ _ _ Hw Hx) as [Hu _]. simpl in Hu.
  by apply letters_lower.
Qed.

Lemma runs_region x c y c1 :
  runs true (Alt (dash +> times 2 2 lower_letter) (times 3 3 digit))%re
    x c y c1 ->
  all not_upper (rest x) = true ->
  c1 = c /\ exists w, consumes x y w /\ region_text w.
Proof.
  intros [(-> & e & Hw & Hlen & Hall)%runs_dash_times
         |(-> & w & Hw & Hlen & Hall)%runs_times] Hx; (split; [done|]).
  - exists (String "-" e). split; [done|]. left. exists e. split; [done|].
    apply word_spec. split; [done|].
    destruct (consumes_all _ _ _ _ Hw Hx) as [Hu _]. simpl in Hu.
    by apply letters_lower.
  - exists w. split; [done|]. right. apply word_spec. split; [done|].
    by apply digits_digit.
Qed.

Lemma runs_variant x c y c1 :
  runs true (Alt (NGrp (dash +> times 5 8 lower_letter))
                 (NGrp (dash +> digit +> times 3 3 alnum)))%re x c y c1 ->
  all not_upper (rest x) = true ->
  c1 = c /\ exists w, consumes x y w /\ dash_then variant_ok w.
Proof.
  intros [(-> & e & Hw & Hlen & Hall)%runs_dash_times|H] Hx.
  - split; [done|].
    exists (String "-" e). split; [done|]. exists e. split; [done|].
    unfold variant_ok. apply orb_true_iff. left.
    apply word_spec. split; [done|].
    destruct (consumes_all _ _ _ _ Hw Hx) as [Hu _]. simpl in Hu.
    by apply letters_lower.
  - destruct H as (z & c2 & [-> Hd]%runs_dash & z' & c3 &
                   (-> & d & Hch & Hdig)%runs_cls &
                   (-> & t & Ht & Hlen & Hall)%runs_times).
    split; [done|].
    pose proof (consumes_trans _ _ _ _ _ Hd
                  (consumes_trans _ _ _ _ _ Hch Ht)) as Hw.
    exists (String "-" (String d t)). split; [exact Hw|].
    exists (String d t). split; [done|].
    unfold variant_ok. apply orb_true_iff. right.
    rewrite (cls_matches_digit _ Hdig). simpl.
    apply word_spec. split; [done|].
    destruct (consumes_all _ _ _ _ Hw Hx) as [Hu _]. simpl in Hu.
    apply andb_true_iff in Hu as [_ Hu].
    by apply alnums_lower.
Qed.

Lemma iter_parts (n : nat) x c y c' :
  iter (runs true (NGrp (dash +> times 1 8 alnum))%re) n x c y c' ->
  all not_upper (rest x) = true ->
  c' = c /\
  exists parts, length parts = n /\ consumes x y (dashed parts) /\
                forallb part_ok parts = true.
Proof.
  revert x c. induction n as [|n IH]; intros x c; cbn [iter].
  - intros [-> ->] _. split; [done|]. exists []. split; [done|].
    split; [apply consumes_refl|done].
  - intros (z & c1 & (-> & w & Hw & Hlen & Hall)%runs_dash_times & Hit) Hx.
    destruct (consumes_all _ _ _ _ Hw Hx) as [Hu Hz]. simpl in Hu.
    apply IH in Hit as (-> & parts & Hn & Hparts & Hok); [|done].
    split; [done|]. exists (w :: parts). split; [by rewrite <- Hn|]. split.
    + simpl. rewrite <- app_cons.
      apply (consumes_trans _ _ _ _ _ Hw Hparts).
    + simpl. rewrite Hok, andb_true_r. apply word_spec. split; [done|].
      by apply alnums_lower.
Qed.

Lemma runs_extension x c y c1 :
  runs true (dash +> digit_or_letter +>
             Plus (NGrp (dash +> times 1 8 alnum)))%re x c y c1 ->
  all not_upper (rest x) = true ->
  c1 = c /\ exists w, consumes x y w /\ dash_then extension_ok w.
Proof.
  intros (z & c2 & [-> Hd]%runs_dash & z' & c3 &
          (-> & ch & Hch & Hcls)%runs_cls & n & Hn & _ & Hit) Hx.
  pose proof (consumes_trans _ _ _ _ _ Hd Hch) as Hhead.
  destruct (consumes_all _ _ _ _ Hhead Hx) as [Hu Hz']. simpl in Hu.
  apply iter_parts in Hit as (-> & parts & Hlen & Hparts & Hok); [|done].
  split; [done|].
  exists (String "-" (String ch (dashed parts))).
  split; [apply (consumes_trans _ _ _ _ _ Hhead Hparts)|].
  exists (String ch (dashed parts)). split; [done|].
  assert (Hsingle : singleton_ok (String ch "") = true).
  { apply word_spec. simpl. split; [lia|].
    rewrite andb_true_r. apply cls_matches_digit_or_letter; [done|].
    by apply andb_true_iff in Hu as [Hu _]. }
  unfold extension_ok.
  change (String ch (dashed parts)) with (String ch "" +:+ dashed parts).
  rewrite tokens_dashed.
  - destruct parts as [|w parts]; [simpl in Hlen; lia|].
    unfold extension_tokens_ok. by rewrite Hsingle, Hok.
  - by apply plain_word_dashfree, singleton_plain.
  - eapply forallb_weaken; [|exact Hok].
    intros w Hw. by apply plain_word_dashfree, part_plain.
Qed.

Lemma runs_seq (r1 r2 : re) x c y c' :
  runs true (r1 +> r2)%re x c y c' ->
  exists z c1, runs true r1 x c z c1 /\ runs true r2 z c1 y c'.
Proof. done. Qed.

Lemma runs_opt_capture (n : nat) (r : re) (Q : string -> Prop) x c y c' :
  (forall w, Q w -> truthy w = true) ->
  (forall x c y c1,
     runs true r x c y c1 -> all not_upper (rest x) = true ->
     c1 = c /\ exists w, consumes x y w /\ Q w) ->
  runs true (Opt (Grp n r)) x c y c' ->
  all not_upper (rest x) = true ->
  exists w, consumes x y w /\ optional_text Q w /\ c' = capture n w c /\
            all not_upper (rest y) = true.
Proof.
  intros HQ Hr Hrun Hx.
  destruct (runs_opt_grp _ _ _ _ _ _ _ Hr Hrun Hx)
    as (w & Hw & [[-> ->]|[Hq ->]]);
    exists w || exists ""; (split; [done|]);
    destruct (consumes_all _ _ _ _ Hw Hx) as [_ Hy].
  - split; [by left|done].
  - split; [by right|]. split; [|done].
    unfold capture. by rewrite (HQ _ Hq).
Qed.

Lemma dash_then_truthy ok w : dash_then ok w -> truthy w = true.
Proof. by intros (e & -> & _). Qed.

Lemma region_text_truthy w : region_text w -> truthy w = true.
Proof.
  intros [H|[H _]%word_spec]; [by eapply dash_then_truthy|].
  apply truthy_length. lia.
Qed.

Lemma runs_pattern x y c' :
  runs true pattern x ∅ y c' ->
  all not_upper (rest x) = true ->
  pos x = 0 /\
  exists g, consumes x y (text_of g) /\ rest y = "" /\
            well_formed g /\ c' = captures_of g.
Proof.
  unfold pattern. intros H Hx.
  apply runs_seq in H as (x1 & c1 & (Hpos & -> & ->) & H).
  split; [done|].
  apply runs_seq in H as (x2 & c2 & (c1 & Hlang & ->) & H).
  apply runs_times in Hlang as (-> & w1 & Hw1 & Hlen1 & Hall1).
  destruct (consumes_all _ _ _ _ Hw1 Hx) as [Hu1 Hx2].
  rewrite (matched_consumes _ _ _ Hw1) in H.
  apply runs_seq in H as (x3 & c3 & H2 & H).
  apply (runs_opt_capture _ _ _ _ _ _ _ (dash_then_truthy _)
           runs_extendedLanguage) in H2 as (w2 & Hw2 & Hq2 & -> & Hx3);
    [|done].
  apply runs_seq in H as (x4 & c4 & H3 & H).
  apply (runs_opt_capture _ _ _ _ _ _ _ (dash_then_truthy _)
           runs_script) in H3 as (w3 & Hw3 & Hq3 & -> & Hx4); [|done].
  apply runs_seq in H as (x5 & c5 & H4 & H).
  apply (runs_opt_capture _ _ _ _ _ _ _ region_text_truthy
           runs_region) in H4 as (w4 & Hw4 & Hq4 & -> & Hx5); [|done].
  apply runs_seq in H as (x6 & c6 & H5 & H).
  apply (runs_opt_capture _ _ _ _ _ _ _ (dash_then_truthy _)
           runs_variant) in H5 as (w5 & Hw5 & Hq5 & -> & Hx6); [|done].
  apply runs_seq in H as (x7 & c7 & H6 & (Hend & -> & ->)).
  apply (runs_opt_capture _ _ _ _ _ _ _ (dash_then_truthy _)
           runs_extension) in H6 as (w6 & Hw6 & Hq6 & -> & Hx7); [|done].
  exists (mkGroups w1 w2 w3 w4 w5 w6). split; [|split; [done|split]].
  - exact (consumes_trans _ _ _ _ _ Hw1
      (consumes_trans _ _ _ _ _ Hw2
        (consumes_trans _ _ _ _ _ Hw3
          (consumes_trans _ _ _ _ _ Hw4
            (consumes_trans _ _ _ _ _ Hw5 Hw6))))).
  - repeat split; try done. simpl. apply word_spec. split; [done|].
    by apply letters_lower.
  - reflexivity.
Qed.

Lemma exec_from_match_at (r : re) (n : nat) (x : state) (c : captures) :
  exec_from true r x n = Some c ->
  exists y w, consumes x y w /\ match_at true r y = Some c.
Proof.
  revert x. induction n as [|n IH]; intros x; simpl.
  - destruct (match_at true r x) as [c0|] eqn:Hm; [|done].
    intros [= ->]. exists x, "". split; [apply consumes_refl|done].
  - destruct (match_at true r x) as [c0|] eqn:Hm.
    + intros [= ->]. exists x, "". split; [apply consumes_refl|done].
    + destruct (advance x) as [[ch z]|] eqn:Hadv; [|done].
      intros (y & w & Hw & Hy)%IH. exists y, (String ch "" +:+ w).
      split; [|done].
      apply (consumes_trans _ _ _ _ _ (consumes_advance _ _ _ Hadv) Hw).
Qed.

(** A match of the tag pattern on a string without upper case. *)
Lemma exec_pattern (k : string) (c : captures) :
  all not_upper k = true ->
  RegExp.exec true pattern k = Some c ->
  exists g, k = text_of g /\ well_formed g /\
            c = <[0 := k]> (captures_of g).
Proof.
  intros Hk (y & w & [Hrest Hpos] & Hm)%exec_from_match_at.
  unfold match_at in Hm.
  destruct (m true pattern y ∅ _) as [[z c0]|] eqn:Hrun; [|done].
  injection Hm as <-.
  apply m_sound in Hrun as (z' & c0' & Hrun & [= -> ->]).
  simpl in Hrest, Hpos.
  assert (Hy : all not_upper (rest y) = true).
  { rewrite Hrest, all_app in Hk. by apply andb_true_iff in Hk as [_ ?]. }
  apply runs_pattern in Hrun as (Hy0 & g & Hcons & Hend & Hwf & ->); [|done].
  assert (w = "") as -> by (destruct w; [done|simpl in Hpos; lia]).
  simpl in Hrest. rewrite (matched_consumes _ _ _ Hcons).
  destruct Hcons as [Hcons _]. rewrite Hend, app_nil_r in Hcons.
  rewrite Hrest, Hcons. by exists g.
Qed.

End PatternFacts.

(** ** From the groups of a match to the interned tag *)

Module ParseFacts.
Import JsString Text StringFacts RegExp Runs RegExpFacts Shape ShapeFacts
       Registry RegistryFacts Groups PatternFacts.

Lemma lookup_capture (n : nat) (w : string) (c : captures) (k : nat) :
  capture n w c !! k =
  if decide (n = k) then (if truthy w then Some w else c !! k) else c !! k.
Proof.
  unfold capture. destruct (truthy w), (decide (n = k)) as [->|]; try done.
  - apply lookup_insert_eq.
  - by apply lookup_insert_ne.
Qed.

Lemma captures_of_lookup (g : groups) :
  captures_of g !! 1 = Some (g_language g) /\
  captures_of g !! 2 = cap (g_extendedLanguage g) /\
  captures_of g !! 3 = cap (g_script g) /\
  captures_of g !! 4 = cap (g_region g) /\
  captures_of g !! 5 = cap (g_variant g) /\
  captures_of g !! 6 = cap (g_extension g).
Proof.
  unfold captures_of, cap.
  repeat split; rewrite !lookup_capture;
    repeat (case_decide; try lia);
    rewrite ?lookup_insert_eq, ?lookup_insert_ne, ?lookup_empty by done;
    done.
Qed.

Lemma group_cap (c : captures) (n : nat) (w : string) :
  c !! n = cap w -> group c n = sub w.
Proof.
  intros H. unfold group, sub. rewrite H. unfold cap.
  destruct (truthy w) eqn:Hw; simpl; [by rewrite Hw|done].
Qed.

Lemma group_captures_of (k : string) (g : groups) :
  let c := <[0 := k]> (captures_of g) in
  c !! 1 = Some (g_language g) /\
  group c 2 = sub (g_extendedLanguage g) /\
  group c 3 = sub (g_script g) /\
  group c 4 = sub (g_region g) /\
  group c 5 = sub (g_variant g) /\
  group c 6 = sub (g_extension g).
Proof.
  destruct (captures_of_lookup g) as (H1 & H2 & H3 & H4 & H5 & H6).
  cbv zeta.
  split; [by rewrite lookup_insert_ne|].
  split; [apply group_cap; by rewrite lookup_insert_ne|].
  split; [apply group_cap; by rewrite lookup_insert_ne|].
  split; [apply group_cap; by rewrite lookup_insert_ne|].
  split; [apply group_cap; by rewrite lookup_insert_ne|].
  apply group_cap; by rewrite lookup_insert_ne.
Qed.

Lemma createFromString_groups (k : string) (g : groups) (reg : LanguageTags) :
  RegExp.exec true pattern k = Some (<[0 := k]> (captures_of g)) ->
  createFromString k reg =
  (Return (tag_of_subtags (allocated reg) (subtags_of_groups g)),
   mkLanguageTags
     (<[k := tag_of_subtags (allocated reg) (subtags_of_groups g)]>
        (instances reg))
     (S (allocated reg))).
Proof.
  intros H. unfold createFromString. rewrite H.
  destruct (group_captures_of k g) as (H1 & H2 & H3 & H4 & H5 & H6).
  simpl in *. by rewrite H1, H2, H3, H4, H5, H6.
Qed.

(** *** The subtags of a match are shaped *)

Lemma sub_dash_then (ok : string -> bool) (w : string) :
  optional_text (dash_then ok) w -> optional ok (sub w) = true.
Proof. by intros [->|(e & -> & He)]. Qed.

Lemma word_tail (n : nat) (p : ascii -> bool) (w : string) :
  word (S n) (S n) p w = true -> word n n p (substr1 w) = true.
Proof.
  destruct w as [|ch t]; [by rewrite word_false_length by (simpl; lia)|].
  rewrite !word_spec. simpl. rewrite andb_true_iff. intros [Hlen [_ Hall]].
  split; [lia|done].
Qed.

Lemma sub_region (w : string) :
  optional_text region_text w -> optional region_ok (sub w) = true.
Proof.
  intros [->|[(e & -> & He)|Hd]]; [done| |].
  - simpl. unfold region_ok. by rewrite He.
  - unfold sub. rewrite (region_text_truthy w) by by right. simpl.
    unfold region_ok. rewrite (word_tail _ _ _ Hd). apply orb_true_r.
Qed.

Lemma subtags_of_groups_shaped (g : groups) :
  well_formed g -> shaped (subtags_of_groups g) = true.
Proof.
  intros (Hl & He & Hs & Hr & Hv & Hx). unfold shaped. simpl.
  rewrite Hl, (sub_dash_then _ _ He), (sub_dash_then _ _ Hs),
    (sub_region _ Hr), (sub_dash_then _ _ Hv).
  by apply sub_dash_then.
Qed.

(** *** The key of a match *)

Lemma dashed_sub (ok : string -> bool) (w : string) :
  optional_text (dash_then ok) w -> dashed (option_list (sub w)) = w.
Proof. intros [->|(e & -> & He)]; [done|]. simpl. by rewrite app_nil_r. Qed.

Lemma dashed_sub_extension (w : string) :
  optional_text (dash_then extension_ok) w -> dashed (tokens_of (sub w)) = w.
Proof. intros [->|(e & -> & He)]; [done|]. simpl. apply dashed_tokens. Qed.

(** When the region group is empty or starts with a dash, the key that
    the subtags regenerate is the text that was matched. *)
Lemma key_of_groups (g : groups) :
  well_formed g ->
  optional_text (dash_then (word 2 2 is_lower)) (g_region g) ->
  key_of (subtags_of_groups g) = text_of g.
Proof.
  intros (Hl & He & Hs & _ & Hv & Hx) Hr.
  unfold key_of, text_of. rewrite words_of_eq, !dashed_app. simpl.
  rewrite (dashed_sub _ _ He), (dashed_sub _ _ Hs), (dashed_sub _ _ Hr),
    (dashed_sub _ _ Hv).
  by rewrite (dashed_sub_extension _ Hx).
Qed.

(** *** Three digits without a dash *)

Lemma is_other_kind (ok : string -> bool) (W : string) :
  ok W = false -> forall w, ok w = true -> word_is W w = false.
Proof.
  intros HW w Hw. apply bool_decide_eq_false. intros ->. congruence.
Qed.

Lemma head_not_word_is (W : string) (ws : list string) :
  head_not (word_is W) (W :: ws) = false.
Proof. simpl. unfold word_is. by rewrite bool_decide_eq_true_2. Qed.

Lemma words_of_head (a : SubTags) (W : string) (ws : list string) :
  shaped a = true -> of_no_kind W -> words_of a <> W :: ws.
Proof.
  intros Ha (He & Hs & Hr & Hv & Hx) Heq.
  pose proof (words_head a Ha (word_is W)
                (is_other_kind _ _ He) (is_other_kind _ _ Hs)
                (is_other_kind _ _ Hr) (is_other_kind _ _ Hv)
                (is_other_kind _ _ Hx)) as H.
  by rewrite Heq, head_not_word_is in H.
Qed.

Lemma after_extendedLanguage_head (a : SubTags) (W : string) (ws : list string) :
  shaped a = true ->
  script_ok W = false -> region_ok W = false -> variant_ok W = false ->
  singleton_ok W = false ->
  option_list (s_script a) ++ option_list (s_region a) ++
    option_list (s_variant a) ++ tokens_of (s_extension a) <> W :: ws.
Proof.
  intros Ha Hs Hr Hv Hx Heq.
  pose proof (script_head a Ha (word_is W)
                (is_other_kind _ _ Hs) (is_other_kind _ _ Hr)
                (is_other_kind _ _ Hv) (is_other_kind _ _ Hx)) as H.
  by rewrite Heq, head_not_word_is in H.
Qed.

(** Letters followed by three digits, six characters or more: the word
    in which the pattern takes a region without a dash. *)
Lemma letters_digits_of_no_kind (w d : string) :
  3 <= String.length w -> all is_lower w = true ->
  word 3 3 is_digit d = true ->
  of_no_kind (w +:+ d).
Proof.
  intros Hlen Hw [Hd Hdig]%word_spec.
  assert (Hlen' : 6 <= String.length (w +:+ d)) by (rewrite length_app; lia).
  assert (Hnot : all is_lower (w +:+ d) = false).
  { rewrite all_app, Hw. simpl. destruct d as [|c t]; [simpl in Hd; lia|].
    simpl in *. apply andb_true_iff in Hdig as [Hc _].
    by rewrite (is_digit_not_lower _ Hc). }
  repeat split.
  - apply word_false_length. lia.
  - apply word_false_length. lia.
  - unfold region_ok. rewrite !word_false_length; (done || lia).
  - unfold variant_ok. apply orb_false_iff. split.
    + unfold word. by rewrite Hnot, andb_false_r.
    + destruct w as [|c t]; [simpl in Hlen; lia|].
      rewrite app_cons. simpl in Hw. apply andb_true_iff in Hw as [Hc _].
      destruct (is_digit c) eqn:Hdc; [|done].
      by rewrite (is_digit_not_lower _ Hdc) in Hc.
  - apply word_false_length. lia.
Qed.

Lemma extendedLanguage_of_no_later_kind (e : string) :
  extendedLanguage_ok e = true ->
  script_ok e = false /\ region_ok e = false /\ variant_ok e = false /\
  singleton_ok e = false.
Proof.
  intros [Hlen _]%word_spec. repeat split.
  - apply word_false_length. lia.
  - unfold region_ok. rewrite !word_false_length; (done || lia).
  - apply not_true_is_false. intros H%variant_length. lia.
  - apply word_false_length. lia.
Qed.

(** A text in which the region is three digits without a dash is the key
    of no shaped subtags. *)
Lemma three_digit_region_not_a_key (g : groups) (a : SubTags) :
  well_formed g -> word 3 3 is_digit (g_region g) = true ->
  shaped a = true -> key_of a <> text_of g.
Proof.
  intros (Hl & He & Hs & _ & Hv & Hx) Hd Ha Hkey.
  pose proof (tokens_key_of a Ha) as Htok. rewrite Hkey in Htok.
  pose proof Hl as [Hllen Hlall]%word_spec.
  set (T := option_list (sub (g_variant g)) ++ tokens_of (sub (g_extension g))).
  assert (HT : g_variant g +:+ g_extension g = dashed T).
  { unfold T. rewrite dashed_app.
    by rewrite (dashed_sub _ _ Hv), (dashed_sub_extension _ Hx). }
  assert (HTfree : forallb dashfree T = true).
  { unfold T. rewrite forallb_app. apply andb_true_iff. split.
    - destruct Hv as [->|(v & -> & Hv)]; [done|]. simpl.
      by rewrite (plain_word_dashfree _ (variant_plain _ Hv)).
    - destruct Hx as [->|(x & -> & Hx)]; [done|]. simpl.
      apply tokens_are_dashfree. }
  assert (Hdfree : dashfree (g_region g) = true).
  { apply plain_word_dashfree.
    revert Hd. apply word_plain; [lia|apply is_digit_lower_alnum]. }
  assert (Hfree : forall w, all is_lower w = true ->
                            dashfree (w +:+ g_region g) = true).
  { intros w Hw. unfold dashfree. rewrite all_app. apply andb_true_iff.
    split; [|exact Hdfree].
    eapply all_impl; [|exact Hw]. intros c Hc. simpl.
    by rewrite (lower_alnum_not_dash _ (is_lower_lower_alnum _ Hc)). }
  unfold text_of in Htok. rewrite HT in Htok.
  destruct He as [He|(e & He & Heok)], Hs as [Hs|(s & Hs & Hsok)];
    rewrite He, Hs in Htok.
  - (* the digits follow the language *)
    rewrite !app_nil_l, <- app_assoc in Htok.
    rewrite (tokens_dashed _ _ (Hfree _ Hlall) HTfree) in Htok.
    injection Htok as Hlang _.
    destruct (shaped_parts a Ha) as ([_ Hall]%word_spec & _).
    rewrite <- Hlang, all_app in Hall.
    apply andb_true_iff in Hall as [_ Hall].
    apply word_spec in Hd as [Hdlen Hdall].
    destruct (g_region g) as [|c t]; [simpl in Hdlen; lia|].
    simpl in *. apply andb_true_iff in Hall as [Hc _].
    apply andb_true_iff in Hdall as [Hc' _].
    by rewrite (is_digit_not_lower _ Hc') in Hc.
  - (* the digits follow the script *)
    pose proof Hsok as [Hslen Hsall]%word_spec.
    rewrite app_nil_l in Htok.
    rewrite app_cons, <- app_assoc in Htok.
    change (String "-" ((s +:+ g_region g) +:+ dashed T))
      with (dashed ((s +:+ g_region g) :: T)) in Htok.
    rewrite tokens_dashed in Htok.
    + injection Htok as _ Hwords. symmetry in Hwords.
      revert Hwords. apply words_of_head; [done|].
      apply letters_digits_of_no_kind; (done || lia).
    + by apply plain_word_dashfree, language_plain.
    + simpl. by rewrite (Hfree _ Hsall).
  - (* the digits follow the extended language *)
    pose proof Heok as [Helen Heall]%word_spec.
    rewrite app_nil_l in Htok.
    rewrite app_cons, <- app_assoc in Htok.
    change (String "-" ((e +:+ g_region g) +:+ dashed T))
      with (dashed ((e +:+ g_region g) :: T)) in Htok.
    rewrite tokens_dashed in Htok.
    + injection Htok as _ Hwords. symmetry in Hwords.
      revert Hwords. apply words_of_head; [done|].
      apply letters_digits_of_no_kind; (done || lia).
    + by apply plain_word_dashfree, language_plain.
    + simpl. by rewrite (Hfree _ Heall).
  - (* the digits follow the extended language and the script *)
    pose proof Heok as [Helen Heall]%word_spec.
    pose proof Hsok as [Hslen Hsall]%word_spec.
    rewrite (app_cons _ s), <- (app_assoc s) in Htok.
    change (String "-" e +:+ String "-" ((s +:+ g_region g) +:+ dashed T))
      with (dashed (e :: (s +:+ g_region g) :: T)) in Htok.
    rewrite tokens_dashed in Htok.
    + injection Htok as _ Hwords. symmetry in Hwords.
      rewrite words_of_eq in Hwords.
      destruct (shaped_parts a Ha) as (_ & Hae & _).
      destruct (s_extendedLanguage a) as [e'|]; simpl in Hwords.
      * injection Hwords as _ Hwords. revert Hwords.
        destruct (letters_digits_of_no_kind s (g_region g))
          as (_ & ? & ? & ? & ?); [lia|done|done|].
        by apply after_extendedLanguage_head.
      * revert Hwords.
        destruct (extendedLanguage_of_no_later_kind e Heok) as (? & ? & ? & ?).
        by apply after_extendedLanguage_head.
    + by apply plain_word_dashfree, language_plain.
    + simpl. rewrite (plain_word_dashfree _ (extendedLanguage_plain _ Heok)).
      by rewrite (Hfree _ Hsall).
Qed.

End ParseFacts.

(** ** The registries that the program can build *)

Module Interning.
Import JsString Text StringFacts Shape ShapeFacts Registry RegistryFacts
       Groups PatternFacts ParseFacts.

Lemma extends_refl reg : extends reg reg.
Proof. by intros k o. Qed.

Lemma extends_interned reg reg' t :
  extends reg reg' -> interned reg t -> interned reg' t.
Proof. intros H [k Hk]. exists k. by apply H. Qed.

Lemma coherent_no_tags : coherent no_tags.
Proof. intros k o H. simpl in H. by rewrite lookup_empty in H. Qed.

Lemma coherent_insert reg k b :
  coherent reg -> instances reg !! k = None -> shaped b = true ->
  keyed k b ->
  let o := tag_of_subtags (allocated reg) b in
  let reg' := mkLanguageTags (<[k := o]> (instances reg)) (S (allocated reg)) in
  coherent reg' /\ extends reg reg' /\ interned reg' o.
Proof.
  intros Hreg Hfresh Hb Hkey o reg'. split; [|split].
  - intros k' o' H. simpl in H.
    destruct (decide (k = k')) as [<-|Hne].
    + rewrite lookup_insert_eq in H. injection H as <-.
      split; [by exists b|simpl; lia].
    + rewrite lookup_insert_ne in H by done.
      destruct (Hreg _ _ H) as [? ?]. split; [done|simpl; lia].
  - intros k' o' H. simpl.
    destruct (decide (k = k')) as [<-|Hne]; [congruence|].
    by rewrite lookup_insert_ne.
  - exists k. simpl. apply lookup_insert_eq.
Qed.

(** [fromSubTags] on shaped subtags returns the tag of those subtags. *)
Lemma fromSubTagsOf_coherent (b : SubTags) (reg : LanguageTags) :
  coherent reg -> shaped b = true ->
  let '(o, reg') := fromSubTagsOf b reg in
  o = tag_of_subtags (addr o) b /\
  coherent reg' /\ extends reg reg' /\ interned reg' o.
Proof.
  intros Hreg Hb. rewrite fromSubTagsOf_eq, (unifiedTag_shaped _ Hb).
  destruct (instances reg !! key_of b) as [o|] eqn:Hk.
  - destruct (Hreg _ _ Hk) as [(b' & Hb' & Ho & Hkey) _].
    assert (b' = b) as ->.
    { destruct Hkey as [Hkey|[_ Hkey]]; [by apply key_of_inj|].
      by destruct (Hkey b Hb). }
    split; [done|]. split; [done|]. split; [apply extends_refl|by exists (key_of b)].
  - split; [done|]. by apply coherent_insert; [| |  |left].
Qed.

Lemma interned_shaped reg t :
  coherent reg -> interned reg t ->
  exists a, shaped a = true /\ t = tag_of_subtags (addr t) a.
Proof.
  intros Hreg [k Hk]. destruct (Hreg _ _ Hk) as [(a & Ha & Ht & _) _].
  by exists a.
Qed.

(** Dropping the most specific subtag commutes with the case changes of
    the constructor. *)
Lemma generalize_normalized (a : SubTags) :
  shaped a = true ->
  generalize (normalized a) = normalized <$> generalize a.
Proof.
  intros Ha. destruct (shaped_parts a Ha) as (_ & He & Hs & Hr & Hv & Hx).
  unfold generalize, normalized. simpl.
  destruct (s_extension a) as [x|]; simpl in *;
    [by rewrite (extension_truthy _ Hx)|].
  destruct (s_variant a) as [v|]; simpl in *;
    [by rewrite (plain_word_truthy _ (variant_plain _ Hv))|].
  destruct (s_region a) as [r|]; simpl in *;
    [by rewrite (plain_word_truthy _ (region_plain _ Hr))|].
  destruct (s_script a) as [s|]; simpl in *;
    [by rewrite (plain_word_truthy _ (script_plain _ Hs))|].
  destruct (s_extendedLanguage a) as [e|]; simpl in *;
    [by rewrite (plain_word_truthy _ (extendedLanguage_plain _ He))|].
  done.
Qed.

(** [parent] in a coherent registry. *)
Lemma parent_coherent (t : LanguageTag) (reg : LanguageTags) :
  coherent reg -> interned reg t ->
  let '(up, reg') := parent t reg in
  subtags <$> up = generalize (subtags t) /\
  coherent reg' /\ extends reg reg' /\
  match up with
  | Some p => interned reg' p
  | None => reg' = reg
  end.
Proof.
  intros Hreg Ht.
  destruct (interned_shaped _ _ Hreg Ht) as (a & Ha & ->).
  rewrite (parent_tag_of_subtags _ _ _ Ha).
  rewrite subtags_tag_of_subtags, (generalize_normalized _ Ha).
  destruct (generalize a) as [b|] eqn:Hgen.
  - pose proof (generalize_shaped _ _ Ha Hgen) as Hb.
    pose proof (fromSubTagsOf_coherent b reg Hreg Hb) as H.
    unfold defined. destruct (fromSubTagsOf b reg) as [p reg'].
    destruct H as (Hp & Hreg' & Hext & Hint). simpl.
    split; [|done]. rewrite Hp at 1. by rewrite subtags_tag_of_subtags.
  - simpl. split; [done|]. split; [done|]. split; [apply extends_refl|done].
Qed.

Lemma toLowerCase_not_upper (text : string) :
  all not_upper (toLowerCase text) = true.
Proof.
  induction text as [|c t IH]; [done|].
  change (toLowerCase (String c t))
    with (String (lower_char c) (toLowerCase t)).
  simpl. by rewrite lower_not_upper, IH.
Qed.

(** [languageTag] in a coherent registry. *)
Lemma languageTag_coherent (text : string) (reg : LanguageTags) :
  coherent reg ->
  let '(r, reg') := languageTag text reg in
  coherent reg' /\ extends reg reg' /\
  match r with
  | Return t => interned reg' t
  | Throw _ => reg' = reg
  end.
Proof.
  intros Hreg. unfold languageTag, fromString.
  destruct (instances reg !! toLowerCase text) as [o|] eqn:Hk.
  { split; [done|]. split; [apply extends_refl|by exists (toLowerCase text)]. }
  destruct (RegExp.exec true pattern (toLowerCase text)) as [c|] eqn:Hexec.
  - destruct (exec_pattern _ _ (toLowerCase_not_upper text) Hexec)
      as (g & Htext & Hwf & ->).
    rewrite (createFromString_groups _ _ _ Hexec).
    pose proof (subtags_of_groups_shaped _ Hwf) as Hb.
    apply coherent_insert; try done.
    pose proof Hwf as (Hl & He & Hs & Hr & Hv & Hx).
    destruct Hr as [Hr|[Hr|Hr]].
    + left. rewrite Htext. apply key_of_groups; [done|by left].
    + left. rewrite Htext. apply key_of_groups; [done|by right].
    + right. split.
      * exists (substr1 (g_region g)). split; [|by apply word_tail].
        simpl. unfold sub. by rewrite (region_text_truthy _ (or_intror Hr)).
      * intros a Ha. rewrite Htext. by apply three_digit_region_not_a_key.
  - unfold createFromString. rewrite Hexec.
    split; [done|]. split; [apply extends_refl|done].
Qed.

Lemma reachable_coherent (reg : LanguageTags) : reachable reg -> coherent reg.
Proof.
  induction 1 as [|text reg _ IH|t reg _ IH Ht].
  - apply coherent_no_tags.
  - pose proof (languageTag_coherent text reg IH) as H.
    destruct (languageTag text reg) as [r reg']. by destruct H.
  - pose proof (parent_coherent t reg IH Ht) as H.
    destruct (parent t reg) as [up reg']. by destruct H as (_ & ? & _).
Qed.

End Interning.

(** ** The parent chain *)

Module Chain.
Import Registry Interning.

Lemma specificity_bound (a : SubTags) : specificity a <= 5.
Proof.
  unfold specificity.
  destruct (s_extendedLanguage a), (s_script a), (s_region a), (s_variant a),
    (s_extension a); simpl; lia.
Qed.

Lemma generalize_specificity (a b : SubTags) :
  generalize a = Some b -> specificity b < specificity a.
Proof.
  unfold generalize, specificity.
  destruct (s_extendedLanguage a), (s_script a), (s_region a), (s_variant a),
    (s_extension a); intros [= <-]; simpl; lia.
Qed.

Lemma generalize_drops_one (a b : SubTags) :
  generalize a = Some b -> specificity a = S (specificity b).
Proof.
  unfold generalize, specificity.
  destruct (s_extendedLanguage a), (s_script a), (s_region a), (s_variant a),
    (s_extension a); intros [= <-]; simpl; lia.
Qed.

Lemma is_chain_length (ups : list LanguageTag) :
  forall t, is_chain t ups -> length ups = specificity (subtags t).
Proof.
  induction ups as [|p ups IH]; intros t; simpl.
  - unfold generalize, specificity.
    by destruct (s_extendedLanguage _), (s_script _), (s_region _),
      (s_variant _), (s_extension _).
  - intros [Hgen Hchain]. rewrite (generalize_drops_one _ _ Hgen).
    by rewrite (IH p Hchain).
Qed.

Lemma extends_trans reg1 reg2 reg3 :
  extends reg1 reg2 -> extends reg2 reg3 -> extends reg1 reg3.
Proof. intros H1 H2 k o H. by apply H2, H1. Qed.

(** In a reachable registry the walk along the parents of an interned
    tag ends within the depth that the number of its subtags requires,
    and each step drops the most specific subtag. *)
Lemma generalizations_total (depth : nat) :
  forall (t : LanguageTag) (reg : LanguageTags),
    reachable reg -> interned reg t ->
    specificity (subtags t) + 2 <= depth ->
    exists ups reg',
      generalizations depth (Some t) reg = Some (t :: ups, reg') /\
      is_chain t ups /\ reachable reg' /\ extends reg reg'.
Proof.
  induction depth as [|depth IH]; intros t reg Hreach Ht Hdepth; [lia|].
  simpl.
  pose proof (parent_coherent t reg (reachable_coherent _ Hreach) Ht) as Hp.
  pose proof (reachable_parent t reg Hreach Ht) as Hreach1.
  destruct (parent t reg) as [[p|] reg1]; simpl in *.
  - destruct Hp as (Hgen & _ & Hext & Hint). symmetry in Hgen.
    pose proof (generalize_specificity _ _ Hgen) as Hlt.
    destruct (IH p reg1 Hreach1 Hint ltac:(lia))
      as (ups & reg' & -> & Hchain & Hreach' & Hext').
    exists (p :: ups), reg'. simpl. repeat split; try done.
    by eapply extends_trans.
  - destruct Hp as (Hgen & _ & _ & ->).
    destruct depth as [|depth]; [lia|]. simpl.
    exists [], reg. repeat split; try done. apply extends_refl.
Qed.

End Chain.

(** ** [parent] and [messagesFor] in the registries of the program *)

Import Registry RegistryFacts Interning Chain.

Lemma generalize_none (a : SubTags) :
  generalize a = None <->
  s_extendedLanguage a = None /\ s_script a = None /\ s_region a = None /\
  s_variant a = None /\ s_extension a = None.
Proof.
  unfold generalize.
  destruct (s_extendedLanguage a), (s_script a), (s_region a), (s_variant a),
    (s_extension a); split; (done || by intros (? & ? & ? & ? & ?)).
Qed.

(** C5.  In a registry that the program can have built, [parent] of a
    tag that the registry has handed out returns the tag of the subtags
    without the most specific one that is set (extension, then variant,
    then region, then script, then extended language), interned in the
    registry, and returns nothing exactly when only the language is set;
    the parent chain of [zh-gan-Hans-US-nedis-x-twain] is the one of the
    specification. *)
Theorem parent_drops_the_most_specific_subtag
    (reg : LanguageTags) (t : LanguageTag) :
  reachable reg -> interned reg t ->
  subtags <$> fst (parent t reg) = generalize (subtags t) /\
  (fst (parent t reg) = None <->
   extendedLanguage t = None /\ script t = None /\ region t = None /\
   variant t = None /\ extension t = None) /\
  (forall p, fst (parent t reg) = Some p ->
             interned (snd (parent t reg)) p /\
             p = tag_of_subtags (addr p) (subtags p)) /\
  reachable (snd (parent t reg)) /\
  parent_chain "zh-gan-Hans-US-nedis-x-twain"
    = Some ["zh-gan-Hans-US-nedis-x-twain"; "zh-gan-Hans-US-nedis";
            "zh-gan-Hans-US"; "zh-gan-Hans"; "zh-gan"; "zh"].
Proof.
  intros Hreach Ht.
  pose proof (parent_coherent t reg (reachable_coherent _ Hreach) Ht) as H.
  pose proof (reachable_parent t reg Hreach Ht) as Hreach'.
  destruct (parent t reg) as [up reg'] eqn:Hparent. simpl in *.
  destruct H as (Hgen & Hcoh & Hext & Hup).
  split; [done|]. split; [|split; [|split; [done|by vm_compute]]].
  - rewrite <- (generalize_none (subtags t)), <- Hgen. by destruct up.
  - intros p ->. split; [done|].
    destruct (interned_shaped _ _ Hcoh Hup) as (b & Hb & Hp).
    assert (Hsub : subtags p = normalized b)
      by (rewrite Hp; apply subtags_tag_of_subtags).
    rewrite Hsub, tag_of_subtags_normalized. exact Hp.
Qed.

Lemma parent_drops_the_most_specific_subtag_witness :
  reachable swissRegistry /\ interned swissRegistry swissGerman /\
  (subtags <$> fst (parent swissGerman swissRegistry)
     = generalize (subtags swissGerman) /\
   (fst (parent swissGerman swissRegistry) = None <->
    extendedLanguage swissGerman = None /\ script swissGerman = None /\
    region swissGerman = None /\ variant swissGerman = None /\
    extension swissGerman = None) /\
   (forall p, fst (parent swissGerman swissRegistry) = Some p ->
              interned (snd (parent swissGerman swissRegistry)) p /\
              p = tag_of_subtags (addr p) (subtags p)) /\
   reachable (snd (parent swissGerman swissRegistry)) /\
   parent_chain "zh-gan-Hans-US-nedis-x-twain"
     = Some ["zh-gan-Hans-US-nedis-x-twain"; "zh-gan-Hans-US-nedis";
             "zh-gan-Hans-US"; "zh-gan-Hans"; "zh-gan"; "zh"]).
Proof.
  assert (Hreach : reachable swissRegistry)
    by apply reachable_languageTag, reachable_start.
  assert (Ht : interned swissRegistry swissGerman)
    by (exists "de-ch"; vm_compute; reflexivity).
  split; [exact Hreach|]. split; [exact Ht|].
  exact (parent_drops_the_most_specific_subtag swissRegistry swissGerman
           Hreach Ht).
Defined.

Lemma pickBestMatching_member (t c : LanguageTag) (candidates : list LanguageTag) :
  pickBestMatching t candidates = Some c -> c ∈ candidates.
Proof.
  rewrite pickBestMatching_fold.
  destruct (forEach_keeps_first_highest t candidates (mkMatch 0%Q None))
    as [[-> _]|(before & c' & after & -> & -> & _)]; simpl; [done|].
  intros [= ->]. apply elem_of_app. right. apply list_elem_of_here.
Qed.

(** C3.  [messagesFor] takes the default messages of the requested tag
    and overlays the translations that [translations.get] finds for the
    best match and for the objects that [parent()] returns, the most
    generic first; the three lookups of the example give the sets of the
    specification, and so does a translator for [en-US] and
    [en-US-nedis].  A translation registered for [en419] is not overlaid
    for [en419-nedis], though: the tag of [en419] is [en-19], which is the
    tag of the parent of [en419-nedis], but the parent is a second
    object, for which nothing is registered, so [welcome] keeps its
    default message. *)
Theorem messagesFor_skips_the_translation_of_a_digit_region :
  let howdy : Messages := list_to_map [("welcome", "Howdy")] in
  let nope : Messages := list_to_map [("cancel", "Nope")] in
  parent_chain "en419" = Some ["en-19"; "en"] /\
  parent_chain "en419-nedis" = Some ["en-19-nedis"; "en-19"; "en"] /\
  messages_for defaultSet
    [PartiallySupporting "en419" howdy; PartiallySupporting "en419-nedis" nope]
    "en419-nedis"
    = Some (list_to_map
              [("ok", "OK"); ("cancel", "Nope"); ("welcome", "Welcome")]) /\
  messages_for defaultSet
    [PartiallySupporting "en-US" howdy; PartiallySupporting "en-US-nedis" nope]
    "en-US-nedis"
    = Some (list_to_map
              [("ok", "OK"); ("cancel", "Nope"); ("welcome", "Howdy")]) /\
  messages_for defaultSet
    [Supporting "de" germanSet; PartiallySupporting "de-CH" swissSet] "de-CH"
    = Some swissGermanResult /\
  messages_for defaultSet
    [Supporting "de" germanSet; PartiallySupporting "de-CH" swissSet]
    "de-CH-1901"
    = Some swissGermanResult /\
  messages_for defaultSet
    [Supporting "de" germanSet; PartiallySupporting "de-CH" swissSet] "fr"
    = Some defaultSet.
Proof. repeat split; vm_compute; reflexivity. Qed.

(** ** Further properties *)

Import Text StringFacts Shape ShapeFacts.

(** X1.  A text that [languageTag] has parsed is parsed to the identical
    object from then on, in whatever case it is written. *)
Theorem languageTag_ignores_case
    (text : string) (reg reg1 : LanguageTags) (t : LanguageTag) :
  languageTag text reg = (Return t, reg1) ->
  languageTag text reg1 = (Return t, reg1) /\
  languageTag (toUpperCase text) reg1 = (Return t, reg1) /\
  languageTag (toLowerCase text) reg1 = (Return t, reg1).
Proof.
  intros H.
  assert (Hk : instances reg1 !! toLowerCase text = Some t).
  { unfold languageTag, fromString in H.
    destruct (instances reg !! toLowerCase text) as [o|] eqn:Hk.
    - by injection H as <- <-.
    - unfold createFromString in H.
      destruct (RegExp.exec true pattern (toLowerCase text)); [|done].
      injection H as <- <-. simpl. apply lookup_insert_eq. }
  unfold languageTag, fromString.
  by rewrite toLowerCase_toUpperCase, toLowerCase_idem, Hk.
Qed.

Lemma languageTag_ignores_case_witness :
  languageTag "de-CH" no_tags = (Return swissGerman, swissRegistry) /\
  languageTag "de-CH" swissRegistry = (Return swissGerman, swissRegistry) /\
  languageTag "DE-CH" swissRegistry = (Return swissGerman, swissRegistry) /\
  languageTag "de-ch" swissRegistry = (Return swissGerman, swissRegistry).
Proof.
  assert (H : languageTag "de-CH" no_tags = (Return swissGerman, swissRegistry))
    by (vm_compute; reflexivity).
  split; [exact H|].
  exact (languageTag_ignores_case "de-CH" no_tags swissRegistry swissGerman H).
Defined.

(** The key of an entry whose region is not of two digits is the key of
    its subtags. *)
Lemma key_of_entry (k : string) (o : LanguageTag) :
  coherent_entry k o ->
  (forall r, region o = Some r -> all is_digit r = false) ->
  k = unifiedTag (subtags o).
Proof.
  intros (b & Hb & Ho & Hkey) Hregion.
  assert (Hsub : subtags o = normalized b)
    by (rewrite Ho; apply subtags_tag_of_subtags).
  rewrite Hsub, unifiedTag_normalized, (unifiedTag_shaped _ Hb).
  destruct Hkey as [<-|[(r & Hr & Hdigits) _]]; [done|].
  apply word_spec in Hdigits as [Hlen Hdigits].
  specialize (Hregion r). rewrite Hdigits in Hregion.
  discriminate Hregion.
  change (region o) with (s_region (subtags o)). rewrite Hsub. simpl.
  rewrite Hr. simpl. rewrite (proj2 (truthy_length r)) by lia.
  by rewrite (toUpperCase_digits _ Hdigits).
Qed.

(** X2.  In a registry that the program can have built, two tags that
    the registry has handed out and that agree on every subtag are the
    identical object, unless their region is of digits only. *)
Theorem interned_tags_with_equal_subtags
    (reg : LanguageTags) (a b : LanguageTag) :
  reachable reg -> interned reg a -> interned reg b ->
  subtags a = subtags b ->
  (forall r, region a = Some r -> all is_digit r = false) ->
  a = b /\ same a b = true.
Proof.
  intros Hreach [ka Ha] [kb Hb] Hsub Hregion.
  pose proof (reachable_coherent _ Hreach) as Hreg.
  destruct (Hreg _ _ Ha) as [Hea _], (Hreg _ _ Hb) as [Heb _].
  assert (Hregion' : forall r, region b = Some r -> all is_digit r = false).
  { change (region b) with (s_region (subtags b)). rewrite <- Hsub.
    exact Hregion. }
  rewrite (key_of_entry _ _ Hea Hregion) in Ha.
  rewrite (key_of_entry _ _ Heb Hregion'), <- Hsub in Hb.
  assert (a = b) as -> by congruence.
  split; [done|apply same_refl].
Qed.

Lemma interned_tags_with_equal_subtags_witness :
  let de_CH := tag_of_subtags 1 (mkSubTags "de" None None (Some "ch") None None) in
  reachable exampleRegistry /\ interned exampleRegistry de_CH /\
  de_CH = de_CH /\ same de_CH de_CH = true.
Proof.
  intros de_CH.
  assert (Hreach : reachable exampleRegistry)
    by (do 3 apply reachable_languageTag; apply reachable_start).
  assert (Ht : interned exampleRegistry de_CH)
    by (exists "de-ch"; vm_compute; reflexivity).
  split; [exact Hreach|]. split; [exact Ht|].
  apply (interned_tags_with_equal_subtags exampleRegistry de_CH de_CH
           Hreach Ht Ht eq_refl).
  intros r [= <-]. reflexivity.
Defined.

(** X3.  A selection that is no member name of [Object.prototype] picks
    the option of exactly that key when its message is not empty, falls
    back to [other] otherwise, and throws when there is no [other]
    either. *)
Theorem selectObject_of_a_plain_name {P : Type}
    (formatObject : LanguageTag -> string -> P -> string)
    (language : LanguageTag) (selector : P -> string)
    (options : gmap string (option string)) (parameters : P) :
  plain formatObject language options ->
  selector parameters ∉ objectPrototypeMembers ->
  Format.selectObject formatObject language selector options parameters =
  match options !! selector parameters ≫= usable formatObject language with
  | Some f => Message (f parameters)
  | None =>
      match options !! "other" ≫= usable formatObject language with
      | Some f => Message (f parameters)
      | None =>
          NoMatchingSelection
            ("Selection " +:+ dquote +:+ selector parameters +:+ dquote +:+
             " does not match any of the available options")
      end
  end.
Proof.
  intros Hplain Hs.
  assert (Hne : selector parameters <> "__proto__").
  { intros Heq. apply Hs. rewrite Heq.
    apply (bool_decide_eq_true_1 ("__proto__" ∈ objectPrototypeMembers)).
    vm_compute. reflexivity. }
  destruct (options !! selector parameters ≫= usable formatObject language)
    as [f|] eqn:Hf.
  - by apply selectObject_exact_key.
  - destruct (options !! "other" ≫= usable formatObject language)
      as [f|] eqn:Hother.
    + by apply selectObject_falls_back_to_other.
    + by apply selectObject_throws.
Qed.

Lemma selectObject_of_a_plain_name_witness :
  let en := LanguageTagImpl 0 "en" None None None None None in
  Format.selectObject literally en (fun p => p) outputTypeOptions "warning"
    = Message "A warning occured" /\
  Format.selectObject literally en (fun p => p) outputTypeOptions "nop"
    = NoMatchingSelection
        ("Selection " +:+ dquote +:+ "nop" +:+ dquote +:+
         " does not match any of the available options").
Proof.
  intros en. split.
  - apply (selectObject_of_a_plain_name literally en (fun p => p)
             outputTypeOptions "warning").
    + reflexivity.
    + apply (bool_decide_eq_false_1 ("warning" ∈ objectPrototypeMembers)).
      vm_compute. reflexivity.
  - apply (selectObject_of_a_plain_name literally en (fun p => p)
             outputTypeOptions "nop").
    + reflexivity.
    + apply (bool_decide_eq_false_1 ("nop" ∈ objectPrototypeMembers)).
      vm_compute. reflexivity.
Defined.

(** X4.  The score does not depend on which of the two tags is asked,
    and it is 0 exactly when the languages differ. *)
Theorem equality_symmetric (a b : LanguageTag) :
  equality a b = equality b a /\
  (equality a b == 0 <-> language a <> language b)%Q.
Proof.
  split.
  - assert (Heither : forall (x y : option string) p,
              either_set x y p = either_set y x p)
      by (intros x y p; unfold either_set; by rewrite orb_comm).
    assert (Hboth : forall (x y : option string) p,
              both_equal x y p = both_equal y x p)
      by (intros x y p; unfold both_equal; by repeat case_bool_decide).
    unfold equality, points, possiblePoints.
    rewrite (Hboth (extension a)), (Hboth (variant a)), (Hboth (region a)),
      (Hboth (script a)), (Hboth (extendedLanguage a)).
    rewrite (Heither (extension a)), (Heither (variant a)),
      (Heither (region a)), (Heither (script a)),
      (Heither (extendedLanguage a)).
    by repeat case_bool_decide.
  - split.
    + intros Hzero Hlang.
      pose proof (equality_language_agrees a b Hlang) as Hpos.
      rewrite Hzero in Hpos. by apply Qlt_irrefl in Hpos.
    + intros Hlang. by rewrite equality_language_differs.
Qed.

(** X5.  In a registry that the program can have built, the walk along
    the parents of a tag that the registry has handed out ends within
    five steps, one for each subtag that is set besides the language,
    each step dropping the most specific subtag. *)
Theorem parent_chain_ends_at_the_language
    (reg : LanguageTags) (t : LanguageTag) :
  reachable reg -> interned reg t ->
  exists ups reg',
    generalizations 7 (Some t) reg = Some (t :: ups, reg') /\
    is_chain t ups /\
    length ups = specificity (subtags t) /\ length ups <= 5.
Proof.
  intros Hreach Ht.
  pose proof (specificity_bound (subtags t)) as Hbound.
  destruct (generalizations_total 7 t reg Hreach Ht ltac:(lia))
    as (ups & reg' & Hgen & Hchain & _).
  exists ups, reg'. rewrite (is_chain_length _ _ Hchain).
  repeat split; done.
Qed.

Lemma parent_chain_ends_at_the_language_witness :
  reachable swissRegistry /\ interned swissRegistry swissGerman /\
  exists ups reg',
    generalizations 7 (Some swissGerman) swissRegistry
      = Some (swissGerman :: ups, reg') /\
    is_chain swissGerman ups /\
    length ups = specificity (subtags swissGerman) /\ length ups <= 5.
Proof.
  assert (Hreach : reachable swissRegistry)
    by apply reachable_languageTag, reachable_start.
  assert (Ht : interned swissRegistry swissGerman)
    by (exists "de-ch"; vm_compute; reflexivity).
  split; [exact Hreach|]. split; [exact Ht|].
  exact (parent_chain_ends_at_the_language swissRegistry swissGerman
           Hreach Ht).
Defined.

(** ** The text of a tag *)

Lemma reachable_swissRegistry : reachable swissRegistry.
Proof. apply reachable_languageTag, reachable_start. Qed.

Lemma interned_swissGerman : interned swissRegistry swissGerman.
Proof. exists "de-ch". vm_compute. reflexivity. Qed.

Lemma lettered_swissGerman : lettered_region swissGerman.
Proof. intros r [= <-]. reflexivity. Qed.

Lemma reachable_exampleRegistry : reachable exampleRegistry.
Proof. do 3 apply reachable_languageTag. apply reachable_start. Qed.

Lemma interned_exampleTranslator :
  Forall (interned exampleRegistry) (supportedLanguages exampleTranslator).
Proof.
  repeat constructor.
  - exists "de". vm_compute. reflexivity.
  - exists "de-ch". vm_compute. reflexivity.
Qed.

Lemma toLowerCase_app (s t : string) :
  toLowerCase (s +:+ t) = toLowerCase s +:+ toLowerCase t.
Proof. apply map_chars_app. Qed.

Lemma toLowerCase_subtag (o : option string) :
  toLowerCase (subtag o) = unifiedSubtag o.
Proof.
  destruct o as [w|]; [|done]. simpl. destruct (truthy w); [|done].
  by rewrite toLowerCase_app.
Qed.

Lemma toLowerCase_tag (n : nat) (b : SubTags) :
  toLowerCase (tag (tag_of_subtags n b)) = unifiedTag b.
Proof.
  unfold tag_of_subtags, LanguageTagImpl, unifiedTag. simpl.
  rewrite !toLowerCase_app, toLowerCase_idem, !toLowerCase_subtag.
  rewrite !(unifiedSubtag_transform _ _ toLowerCase_case_change).
  rewrite (unifiedSubtag_transform _ _ titleCase_case_change).
  by rewrite (unifiedSubtag_transform _ _ toUpperCase_case_change).
Qed.

Lemma key_is_lower_tag (k : string) (o : LanguageTag) :
  coherent_entry k o ->
  (forall r, region o = Some r -> all is_digit r = false) ->
  k = toLowerCase (tag o).
Proof.
  intros Hentry Hregion. rewrite (key_of_entry _ _ Hentry Hregion).
  destruct Hentry as (b & Hb & Ho & _).
  rewrite Ho at 2. rewrite toLowerCase_tag.
  assert (Hsub : subtags o = normalized b)
    by (rewrite Ho; apply subtags_tag_of_subtags).
  by rewrite Hsub, unifiedTag_normalized.
Qed.

(** X6.  In a registry that the program can have built, parsing the
    [tag] of a tag that the registry has handed out returns that very
    object and leaves the registry as it is, unless the region of the tag
    is made of digits only. *)
Theorem languageTag_of_tag (reg : LanguageTags) (t : LanguageTag) :
  reachable reg -> interned reg t -> lettered_region t ->
  languageTag (tag t) reg = (Return t, reg).
Proof.
  intros Hreach [k Hk] Hregion.
  destruct (reachable_coherent _ Hreach _ _ Hk) as [Hentry _].
  rewrite (key_is_lower_tag _ _ Hentry Hregion) in Hk.
  unfold languageTag, fromString. by rewrite Hk.
Qed.

Lemma languageTag_of_tag_witness :
  reachable swissRegistry /\ interned swissRegistry swissGerman /\
  lettered_region swissGerman /\
  languageTag (tag swissGerman) swissRegistry
    = (Return swissGerman, swissRegistry).
Proof.
  split; [exact reachable_swissRegistry|].
  split; [exact interned_swissGerman|]. split; [exact lettered_swissGerman|].
  exact (languageTag_of_tag swissRegistry swissGerman reachable_swissRegistry
           interned_swissGerman lettered_swissGerman).
Defined.

Lemma languageTag_interns (text : string) (reg reg1 : LanguageTags)
    (t : LanguageTag) :
  languageTag text reg = (Return t, reg1) ->
  instances reg1 !! toLowerCase text = Some t.
Proof.
  unfold languageTag, fromString. intros H.
  destruct (instances reg !! toLowerCase text) as [o|] eqn:Hk.
  - by injection H as <- <-.
  - unfold createFromString in H.
    destruct (RegExp.exec true pattern (toLowerCase text)); [|done].
    injection H as <- <-. simpl. apply lookup_insert_eq.
Qed.

(** X7.  The [tag] of the object that [languageTag] returns for a text
    is that text up to the case of its letters, unless the region of the
    object is made of digits only. *)
Theorem tag_of_languageTag (text : string) (reg reg1 : LanguageTags)
    (t : LanguageTag) :
  reachable reg ->
  languageTag text reg = (Return t, reg1) ->
  lettered_region t ->
  toLowerCase (tag t) = toLowerCase text.
Proof.
  intros Hreach H Hregion.
  pose proof (reachable_languageTag text reg Hreach) as Hreach1.
  rewrite H in Hreach1. simpl in Hreach1.
  pose proof (languageTag_interns _ _ _ _ H) as Hk.
  destruct (reachable_coherent _ Hreach1 _ _ Hk) as [Hentry _].
  symmetry. by apply key_is_lower_tag.
Qed.

Lemma tag_of_languageTag_witness :
  reachable no_tags /\
  languageTag "DE-ch" no_tags = (Return swissGerman, swissRegistry) /\
  lettered_region swissGerman /\
  toLowerCase (tag swissGerman) = toLowerCase "DE-ch".
Proof.
  assert (H : languageTag "DE-ch" no_tags = (Return swissGerman, swissRegistry))
    by (vm_compute; reflexivity).
  split; [exact reachable_start|]. split; [exact H|].
  split; [exact lettered_swissGerman|].
  exact (tag_of_languageTag "DE-ch" no_tags swissRegistry swissGerman
           reachable_start H lettered_swissGerman).
Defined.

Lemma upper_of_lower (c : ascii) :
  is_lower c = true -> is_upper (upper_char c) = true.
Proof. each_char c. Qed.

Lemma all_upper_of_lower (w : string) :
  all is_lower w = true -> all is_upper (toUpperCase w) = true.
Proof.
  induction w as [|c w IH]; [done|]. simpl. rewrite !andb_true_iff.
  intros [Hc Hw]. split; [by apply upper_of_lower|by apply IH].
Qed.

Lemma lower_of_lower (w : string) : all is_lower w = true -> toLowerCase w = w.
Proof.
  apply map_chars_id. intros c Hc.
  apply lower_fixes_not_upper, lower_alnum_not_upper.
  by apply is_lower_lower_alnum.
Qed.

Lemma transform_plain (f : string -> string) (o : option string)
    (ok : string -> bool) :
  (forall w, ok w = true -> plain_word w = true) ->
  optional ok o = true -> transform o f = f <$> o.
Proof.
  intros Hplain Ho. destruct o as [w|]; [|done]. simpl in *.
  by rewrite (plain_word_truthy _ (Hplain _ Ho)).
Qed.

(** ** The fields of a tag *)

(** X8.  Every tag that a registry of the program has handed out is in
    canonical form: its [tag] is the language followed by the subtags
    that are set, each after a dash; the language is two or three
    lower-case letters, the extended language three lower-case letters,
    the script an upper-case letter followed by three lower-case letters,
    the region two upper-case letters or two digits, and the variant and
    the extension are in lower case and of the shape the pattern gives
    them. *)
Theorem interned_tag_is_canonical (reg : LanguageTags) (t : LanguageTag) :
  reachable reg -> interned reg t ->
  tag t = language t +:+ subtag (extendedLanguage t) +:+ subtag (script t) +:+
          subtag (region t) +:+ subtag (variant t) +:+ subtag (extension t) /\
  language_ok (language t) = true /\
  optional extendedLanguage_ok (extendedLanguage t) = true /\
  (forall s, script t = Some s ->
     exists c rest, s = String c rest /\ is_upper c = true /\
                    word 3 3 is_lower rest = true) /\
  (forall r, region t = Some r ->
     word 2 2 is_upper r = true \/ word 2 2 is_digit r = true) /\
  optional variant_ok (variant t) = true /\
  optional extension_ok (extension t) = true.
Proof.
  intros Hreach Ht.
  destruct (interned_shaped _ _ (reachable_coherent _ Hreach) Ht)
    as (b & Hb & ->).
  destruct (shaped_parts b Hb) as (Hl & He & Hs & Hr & Hv & Hx).
  unfold tag_of_subtags, LanguageTagImpl. simpl.
  rewrite (transform_plain _ _ _ extendedLanguage_plain He).
  rewrite (transform_plain _ _ _ script_plain Hs).
  rewrite (transform_plain _ _ _ region_plain Hr).
  rewrite (transform_plain _ _ _ variant_plain Hv).
  assert (Hext : transform (s_extension b) toLowerCase = s_extension b).
  { destruct (s_extension b) as [x|]; [|done]. simpl in *.
    by rewrite (extension_truthy _ Hx), (extension_lower _ Hx). }
  rewrite Hext. split; [done|].
  rewrite (plain_word_lower _ (language_plain _ Hl)). split; [done|].
  split; [|split; [|split; [|split; [|done]]]].
  - destruct (s_extendedLanguage b) as [e|]; [|done]. simpl in *.
    by rewrite (plain_word_lower _ (extendedLanguage_plain _ He)).
  - intros s Hscript. destruct (s_script b) as [s0|]; [|done].
    simpl in *. injection Hscript as <-.
    apply word_spec in Hs as [Hlen Hall].
    destruct s0 as [|c rest]; [simpl in Hlen; lia|].
    rewrite titleCase_cons. simpl in Hlen, Hall.
    apply andb_true_iff in Hall as [Hc Hrest].
    exists (upper_char c), (toLowerCase rest). split; [done|].
    split; [by apply upper_of_lower|].
    rewrite (lower_of_lower _ Hrest). apply word_spec. split; [lia|done].
  - intros r Hregion. destruct (s_region b) as [r0|]; [|done].
    simpl in *. injection Hregion as <-.
    unfold region_ok in Hr. apply orb_true_iff in Hr as [Hr|Hr];
      apply word_spec in Hr as [Hlen Hall].
    + left. apply word_spec. unfold toUpperCase.
      rewrite map_chars_length. split; [done|by apply all_upper_of_lower].
    + right. rewrite (toUpperCase_digits _ Hall). by apply word_spec.
  - destruct (s_variant b) as [v|]; [|done]. simpl in *.
    by rewrite (plain_word_lower _ (variant_plain _ Hv)).
Qed.

Lemma interned_tag_is_canonical_witness :
  reachable swissRegistry /\ interned swissRegistry swissGerman /\
  tag swissGerman = "de-CH" /\
  language_ok (language swissGerman) = true /\
  (forall r, region swissGerman = Some r ->
     word 2 2 is_upper r = true \/ word 2 2 is_digit r = true).
Proof.
  destruct (interned_tag_is_canonical swissRegistry swissGerman
              reachable_swissRegistry interned_swissGerman)
    as (Htag & Hlanguage & _ & _ & Hregion & _).
  split; [exact reachable_swissRegistry|].
  split; [exact interned_swissGerman|].
  split; [exact Htag|]. split; [exact Hlanguage|exact Hregion].
Defined.

(** ** The registry over time *)

Lemma later_extends (reg reg' : LanguageTags) :
  reachable reg -> later reg reg' -> reachable reg' /\ extends reg reg'.
Proof.
  intros Hreach.
  induction 1 as [|text reg' _ [Hreach' Hext]|t reg' _ [Hreach' Hext] Ht].
  - split; [done|apply extends_refl].
  - split; [by apply reachable_languageTag|].
    pose proof (languageTag_coherent text reg' (reachable_coherent _ Hreach'))
      as H.
    destruct (languageTag text reg') as [r reg'']. destruct H as (_ & ? & _).
    by eapply extends_trans.
  - split; [by apply reachable_parent|].
    pose proof (parent_coherent t reg' (reachable_coherent _ Hreach') Ht) as H.
    destruct (parent t reg') as [up reg'']. destruct H as (_ & _ & ? & _).
    by eapply extends_trans.
Qed.

(** X9.  The object that [languageTag] has returned for a text is the
    object it returns for that text, in whatever case, after any further
    calls of [languageTag] and [parent]: the registry never replaces or
    drops an entry. *)
Theorem languageTag_is_stable (text : string) (reg reg1 reg2 : LanguageTags)
    (t : LanguageTag) :
  reachable reg ->
  languageTag text reg = (Return t, reg1) ->
  later reg1 reg2 ->
  languageTag text reg2 = (Return t, reg2) /\
  languageTag (toUpperCase text) reg2 = (Return t, reg2) /\
  languageTag (toLowerCase text) reg2 = (Return t, reg2) /\
  forall t', interned reg1 t' -> interned reg2 t'.
Proof.
  intros Hreach Hparse Hlater.
  pose proof (reachable_languageTag text reg Hreach) as Hreach1.
  rewrite Hparse in Hreach1. simpl in Hreach1.
  destruct (later_extends _ _ Hreach1 Hlater) as [_ Hext].
  pose proof (Hext _ _ (languageTag_interns _ _ _ _ Hparse)) as Hk.
  unfold languageTag, fromString.
  rewrite toLowerCase_toUpperCase, toLowerCase_idem, Hk.
  repeat split. intros t'. by apply extends_interned.
Qed.

Lemma languageTag_is_stable_witness :
  let reg2 := snd (parent swissGerman (snd (languageTag "fr" swissRegistry))) in
  reachable no_tags /\
  languageTag "de-CH" no_tags = (Return swissGerman, swissRegistry) /\
  later swissRegistry reg2 /\
  languageTag "de-CH" reg2 = (Return swissGerman, reg2) /\
  languageTag "DE-CH" reg2 = (Return swissGerman, reg2) /\
  languageTag "de-ch" reg2 = (Return swissGerman, reg2) /\
  forall t', interned swissRegistry t' -> interned reg2 t'.
Proof.
  intros reg2.
  assert (H : languageTag "de-CH" no_tags = (Return swissGerman, swissRegistry))
    by (vm_compute; reflexivity).
  assert (Hlater : later swissRegistry reg2).
  { apply later_parent; [apply later_languageTag, later_now|].
    exists "de-ch". vm_compute. reflexivity. }
  split; [exact reachable_start|]. split; [exact H|]. split; [exact Hlater|].
  exact (languageTag_is_stable "de-CH" no_tags swissRegistry reg2 swissGerman
           reachable_start H Hlater).
Defined.

(** ** Matching *)

Lemma find_first {A : Type} (f : A -> bool) (l : list A) :
  match List.find f l with
  | Some x =>
      exists before after,
        l = before ++ x :: after /\ f x = true /\
        Forall (fun y => f y = false) before
  | None => Forall (fun y => f y = false) l
  end.
Proof.
  induction l as [|y l IH]; simpl; [done|].
  destruct (f y) eqn:Hy.
  - by exists [], l.
  - destruct (List.find f l) as [x|].
    + destruct IH as (before & after & -> & Hx & Hbefore).
      exists (y :: before), after. repeat split; [done|by constructor].
    + by constructor.
Qed.

Lemma elem_of_middle {A : Type} (x : A) (before after : list A) :
  x ∈ before ++ x :: after.
Proof. apply elem_of_app. right. apply list_elem_of_here. Qed.

Lemma matchesOneOf_spec (this : LanguageTag) (others : list LanguageTag) :
  matchesOneOf this others = true <->
  exists other, other ∈ others /\ language this = language other.
Proof.
  unfold matchesOneOf.
  pose proof (find_first (fun other => matches this other) others) as H.
  destruct (List.find _ others) as [x|].
  - destruct H as (before & after & -> & Hx & _). split; [|done].
    intros _. exists x. split; [apply elem_of_middle|].
    by apply bool_decide_eq_true in Hx.
  - split; [done|]. intros (other & Hin & Hlang).
    rewrite Forall_forall in H. specialize (H _ Hin).
    unfold matches in H. by rewrite bool_decide_eq_true_2 in H.
Qed.

Lemma equality_zero (a b : LanguageTag) :
  (equality a b <= 0)%Q -> language a <> language b.
Proof.
  intros Hle Hlang. pose proof (equality_language_agrees a b Hlang) as Hpos.
  apply (Qlt_irrefl 0). by eapply Qlt_le_trans.
Qed.

Lemma equality_pos (a b : LanguageTag) :
  (0 < equality a b)%Q -> language a = language b.
Proof.
  intros Hpos. destruct (decide (language a = language b)) as [|Hne]; [done|].
  rewrite (equality_language_differs _ _ Hne) in Hpos.
  by apply Qlt_irrefl in Hpos.
Qed.

Lemma pickBestMatching_language (this c : LanguageTag)
    (others : list LanguageTag) :
  pickBestMatching this others = Some c -> language this = language c.
Proof.
  rewrite pickBestMatching_fold.
  destruct (forEach_keeps_first_highest this others (mkMatch 0%Q None))
    as [[-> _]|(before & c' & after & -> & -> & Hlt & _)]; simpl; [done|].
  intros [= <-]. by apply equality_pos.
Qed.

(** X10.  [pickBestMatching] returns a tag exactly when [matchesOneOf]
    is true for the same list, that is when one of the tags has the
    language of this one; the tag it returns is a member of the list and
    [matches] this one. *)
Theorem pickBestMatching_matches (this : LanguageTag)
    (others : list LanguageTag) :
  (matchesOneOf this others = true <->
   is_Some (pickBestMatching this others)) /\
  (forall c, pickBestMatching this others = Some c ->
             c ∈ others /\ matches this c = true).
Proof.
  rewrite matchesOneOf_spec, pickBestMatching_fold.
  destruct (forEach_keeps_first_highest this others (mkMatch 0%Q None))
    as [[-> Hall]|(before & c & after & -> & -> & Hlt & _)]; simpl in *.
  - split; [|done]. split; [|by intros [? ?]].
    intros (other & Hin & Hlang). rewrite Forall_forall in Hall.
    by destruct (equality_zero _ _ (Hall _ Hin)).
  - pose proof (equality_pos _ _ Hlt) as Hlang.
    assert (Hin : c ∈ before ++ c :: after) by apply elem_of_middle.
    split.
    + split; [done|]. intros _. by exists c.
    + intros c' [= <-]. split; [done|]. by apply bool_decide_eq_true.
Qed.

Lemma Qdiv_le_cross (p p0 q q0 : Z) :
  (0 < q)%Z -> (0 < q0)%Z ->
  (inject_Z p / inject_Z q <= inject_Z p0 / inject_Z q0)%Q <->
  (p * q0 <= p0 * q)%Z.
Proof.
  intros Hq Hq0.
  destruct q as [|q|q]; try lia. destruct q0 as [|q0|q0]; try lia.
  unfold Qle, Qdiv, Qmult, Qinv, inject_Z. simpl.
  by rewrite !Z.mul_1_r.
Qed.

Lemma points_self (a : LanguageTag) : points a a = 63%Z.
Proof.
  unfold points, both_equal. by rewrite !bool_decide_eq_true_2.
Qed.

Lemma either_set_self (x y : option string) (p : Z) :
  (0 <= p)%Z -> (either_set x x p <= either_set x y p)%Z.
Proof.
  unfold either_set. intros Hp.
  destruct (truthy_opt x), (truthy_opt y); simpl; lia.
Qed.

Lemma possiblePoints_self (a b : LanguageTag) :
  (possiblePoints a a <= possiblePoints a b)%Z.
Proof.
  unfold possiblePoints, extensionPoints, variantPoints, regionPoints,
    scriptPoints, extendedLanguagePoints.
  pose proof (either_set_self (extension a) (extension b) 1).
  pose proof (either_set_self (variant a) (variant b) 2).
  pose proof (either_set_self (region a) (region b) 4).
  pose proof (either_set_self (script a) (script b) 8).
  pose proof (either_set_self (extendedLanguage a) (extendedLanguage b) 16).
  lia.
Qed.

Lemma points_full (a b : LanguageTag) :
  language a = language b -> points a b = 63%Z -> subtags a = subtags b.
Proof.
  unfold points, both_equal, extensionPoints, variantPoints, regionPoints,
    scriptPoints, extendedLanguagePoints, languagePoints, subtags.
  intros Hl.
  repeat case_bool_decide; intros Hp; try lia. congruence.
Qed.

(** No tag scores higher against [a] than [a] itself, and a tag that
    scores as high has the subtags of [a]. *)
Lemma equality_le_self (a b : LanguageTag) :
  (equality a b <= equality a a)%Q /\
  ((equality a a <= equality a b)%Q -> subtags a = subtags b).
Proof.
  pose proof (points_bounds a b) as Hp.
  pose proof (possiblePoints_bounds a b) as Hq.
  pose proof (possiblePoints_bounds a a) as Hq0.
  pose proof (possiblePoints_self a b) as Hle.
  pose proof (equality_language_agrees a a eq_refl) as Hpos.
  destruct (decide (language a = language b)) as [Hl|Hl].
  - unfold equality. rewrite !bool_decide_eq_true_2 by done.
    rewrite points_self, !Qdiv_le_cross by lia. split; [nia|].
    intros H. apply points_full; [done|]. nia.
  - rewrite (equality_language_differs _ _ Hl). split.
    + by apply Qlt_le_weak.
    + intros H. destruct (Qlt_irrefl 0). by eapply Qlt_le_trans.
Qed.

Lemma pickBestMatching_self_subtags (this : LanguageTag)
    (others : list LanguageTag) :
  this ∈ others ->
  exists c, pickBestMatching this others = Some c /\ c ∈ others /\
            subtags c = subtags this.
Proof.
  intros Hin. rewrite pickBestMatching_fold.
  pose proof (equality_language_agrees this this eq_refl) as Hpos.
  destruct (forEach_keeps_first_highest this others (mkMatch 0%Q None))
    as [[_ Hall]|(before & c & after & -> & -> & Hlt & Hb & Ha)]; simpl in *.
  - rewrite Forall_forall in Hall. specialize (Hall _ Hin).
    destruct (Qlt_irrefl 0). by eapply Qlt_le_trans.
  - exists c. split; [done|]. split; [apply elem_of_middle|].
    symmetry. apply equality_le_self.
    rewrite Forall_forall in Hb, Ha.
    apply elem_of_app in Hin as [Hin|Hin].
    + apply Qlt_le_weak. by apply Hb.
    + apply elem_of_cons in Hin as [->|Hin]; [apply Qle_refl|by apply Ha].
Qed.

Lemma interned_eq (reg : LanguageTags) (a b : LanguageTag) :
  reachable reg -> interned reg a -> interned reg b ->
  subtags a = subtags b ->
  (forall r, region a = Some r -> all is_digit r = false) ->
  a = b.
Proof.
  intros Hreach [ka Ha] [kb Hb] Hsub Hregion.
  pose proof (reachable_coherent _ Hreach) as Hreg.
  destruct (Hreg _ _ Ha) as [Hea _], (Hreg _ _ Hb) as [Heb _].
  assert (Hregion' : forall r, region b = Some r -> all is_digit r = false).
  { change (region b) with (s_region (subtags b)). rewrite <- Hsub.
    exact Hregion. }
  rewrite (key_of_entry _ _ Hea Hregion) in Ha.
  rewrite (key_of_entry _ _ Heb Hregion'), <- Hsub in Hb.
  congruence.
Qed.

Lemma pickBestMatching_self (reg : LanguageTags) (this : LanguageTag)
    (others : list LanguageTag) :
  reachable reg -> Forall (interned reg) others -> this ∈ others ->
  (forall r, region this = Some r -> all is_digit r = false) ->
  pickBestMatching this others = Some this.
Proof.
  intros Hreach Hothers Hin Hregion.
  destruct (pickBestMatching_self_subtags this others Hin)
    as (c & -> & Hc & Hsub).
  rewrite Forall_forall in Hothers.
  by rewrite (interned_eq reg this c Hreach (Hothers _ Hin) (Hothers _ Hc)).
Qed.

(** X11.  No tag scores higher against a tag than the tag itself; a tag
    scores as high exactly when it has the same six subtags; and the
    score of a tag with itself is at least 1. *)
Theorem equality_is_highest_for_equal_subtags (a b : LanguageTag) :
  (equality a b <= equality a a)%Q /\
  ((equality a b == equality a a)%Q <-> subtags a = subtags b) /\
  (1 <= equality a a)%Q.
Proof.
  destruct (equality_le_self a b) as [Hle Heq]. split; [done|]. split.
  - split.
    + intros H. apply Heq. rewrite H. apply Qle_refl.
    + intros [= Hl He Hs Hr Hv Hx].
      unfold equality, points, possiblePoints.
      rewrite <- Hl, <- He, <- Hs, <- Hr, <- Hv, <- Hx. reflexivity.
  - pose proof (possiblePoints_bounds a a) as Hq.
    unfold equality. rewrite bool_decide_eq_true_2, points_self by done.
    change 1%Q with (inject_Z 1 / inject_Z 1)%Q.
    rewrite Qdiv_le_cross by lia. lia.
Qed.

(** X12.  From a list that holds this tag, [pickBestMatching] returns a
    tag with exactly the subtags of this one; in a registry that the
    program can have built, from tags that the registry has handed out,
    it returns this very tag, unless its region is made of digits
    only. *)
Theorem pickBestMatching_of_a_member (this : LanguageTag)
    (others : list LanguageTag) :
  this ∈ others ->
  (exists c, pickBestMatching this others = Some c /\ c ∈ others /\
             subtags c = subtags this) /\
  (forall reg, reachable reg -> Forall (interned reg) others ->
               lettered_region this ->
               pickBestMatching this others = Some this).
Proof.
  intros Hin. split; [by apply pickBestMatching_self_subtags|].
  intros reg Hreach Hothers Hregion. by eapply pickBestMatching_self.
Qed.

Lemma pickBestMatching_of_a_member_witness :
  let de_CH :=
    tag_of_subtags 1 (mkSubTags "de" None None (Some "ch") None None) in
  de_CH ∈ supportedLanguages exampleTranslator /\
  pickBestMatching de_CH (supportedLanguages exampleTranslator) = Some de_CH.
Proof.
  intros de_CH.
  assert (Hin : de_CH ∈ supportedLanguages exampleTranslator)
    by (apply list_elem_of_further, list_elem_of_here).
  split; [exact Hin|].
  apply (proj2 (pickBestMatching_of_a_member de_CH
                  (supportedLanguages exampleTranslator) Hin)
           exampleRegistry reachable_exampleRegistry
           interned_exampleTranslator).
  intros r [= <-]. reflexivity.
Defined.

(** ** [pickPreferredLanguage] *)


(** X13.  [pickPreferredLanguage] returns the first of the user's
    languages for which [matchesOneOf] is true on the available
    translations; when there is none, it returns the first of the user's
    languages, and [undefined] when the user has no language.  The two
    picks of the tests are [de-CH-1901] and [it-CH]. *)
Theorem pickPreferredLanguage_first_match
    (availableTranslations usersPreferredLanguages : list LanguageTag) :
  preferred_of ["de"; "fr-CH"; "sp"] ["it-CH"; "de-CH-1901"; "fr-CH"; "en"]
    = Some (Some "de-CH-1901") /\
  preferred_of ["sp"] ["it-CH"; "de-CH-1901"; "fr-CH"; "en"]
    = Some (Some "it-CH") /\
  match pickPreferredLanguage availableTranslations usersPreferredLanguages with
  | Some l =>
      (exists before after,
         usersPreferredLanguages = before ++ l :: after /\
         matchesOneOf l availableTranslations = true /\
         Forall (fun x => matchesOneOf x availableTranslations = false) before)
      \/
      (Forall (fun x => matchesOneOf x availableTranslations = false)
         usersPreferredLanguages /\
       exists rest, usersPreferredLanguages = l :: rest)
  | None => usersPreferredLanguages = []
  end.
Proof.
  split; [vm_compute; reflexivity|]. split; [vm_compute; reflexivity|].
  unfold pickPreferredLanguage.
  pose proof (find_first
    (fun navLang => matchesOneOf navLang availableTranslations)
    usersPreferredLanguages) as H.
  destruct (List.find _ usersPreferredLanguages) as [l|].
  - by left.
  - destruct usersPreferredLanguages as [|l rest]; [done|].
    right. split; [done|by exists rest].
Qed.

(** ** Addresses *)

Lemma distinct_insert (reg : LanguageTags) (k : string) (o : LanguageTag) :
  coherent reg -> distinct reg -> addr o = allocated reg ->
  distinct (mkLanguageTags (<[k := o]> (instances reg)) (S (allocated reg))).
Proof.
  intros Hreg Hdistinct Ho k1 k2 o1 o2. simpl.
  destruct (decide (k = k1)) as [<-|H1], (decide (k = k2)) as [<-|H2];
    rewrite ?lookup_insert_eq, ?lookup_insert_ne by done.
  - congruence.
  - intros [= <-] H Haddr. destruct (Hreg _ _ H) as [_ Hlt]. lia.
  - intros H [= <-] Haddr. destruct (Hreg _ _ H) as [_ Hlt]. lia.
  - apply Hdistinct.
Qed.

Lemma reachable_distinct (reg : LanguageTags) : reachable reg -> distinct reg.
Proof.
  induction 1 as [|text reg Hreach IH|t reg Hreach IH Ht].
  - intros k1 k2 o1 o2 H. simpl in H. by rewrite lookup_empty in H.
  - pose proof (reachable_coherent _ Hreach) as Hreg.
    unfold languageTag, fromString.
    destruct (instances reg !! toLowerCase text); [done|].
    unfold createFromString.
    destruct (RegExp.exec true pattern (toLowerCase text)); [|done].
    simpl. by apply distinct_insert.
  - pose proof (reachable_coherent _ Hreach) as Hreg.
    destruct (interned_shaped _ _ Hreg Ht) as (a & Ha & ->).
    rewrite (parent_tag_of_subtags _ _ _ Ha).
    destruct (generalize a) as [b|]; [|done].
    rewrite fromSubTagsOf_eq.
    destruct (instances reg !! unifiedTag b); [done|].
    simpl. by apply distinct_insert.
Qed.

Lemma same_interned (reg : LanguageTags) (a b : LanguageTag) :
  reachable reg -> interned reg a -> interned reg b ->
  same a b = true -> a = b.
Proof.
  intros Hreach [ka Ha] [kb Hb] Hsame%same_true.
  by apply (reachable_distinct _ Hreach ka kb).
Qed.

(** ** The messages of a translator *)

Lemma generalize_language (a b : SubTags) :
  generalize a = Some b -> s_language b = s_language a.
Proof.
  unfold generalize.
  destruct (s_extension a), (s_variant a), (s_region a), (s_script a),
    (s_extendedLanguage a); intros [= <-]; done.
Qed.

Lemma is_chain_language (ups : list LanguageTag) :
  forall t, is_chain t ups -> Forall (fun p => language p = language t) ups.
Proof.
  induction ups as [|p ups IH]; intros t; simpl; [done|].
  intros [Hgen Hchain].
  pose proof (generalize_language _ _ Hgen) as Hl. simpl in Hl.
  constructor; [done|].
  eapply Forall_impl; [by apply IH|]. simpl. congruence.
Qed.

(** The objects of the walk along the parents are those of the registry
    the walk leaves. *)
Lemma generalizations_interned (depth : nat) :
  forall (t : option LanguageTag) (reg reg' : LanguageTags)
         (chain : list LanguageTag),
    reachable reg -> (forall tl, t = Some tl -> interned reg tl) ->
    generalizations depth t reg = Some (chain, reg') ->
    extends reg reg' /\ Forall (interned reg') chain.
Proof.
  induction depth as [|depth IH]; intros t reg reg' chain Hreach Ht; [done|].
  simpl. destruct t as [tl|].
  - specialize (Ht tl eq_refl).
    pose proof (parent_coherent tl reg (reachable_coherent _ Hreach) Ht) as Hp.
    pose proof (reachable_parent tl reg Hreach Ht) as Hreach1.
    destruct (parent tl reg) as [up reg1]. simpl in Hreach1.
    destruct Hp as (_ & _ & Hext & Hup).
    destruct (generalizations depth up reg1) as [[ups reg2]|] eqn:Hups;
      simpl; [|done].
    intros [= <- <-].
    destruct (IH up reg1 reg2 ups Hreach1) as [Hext2 Hall]; [|done|].
    { intros p ->. exact Hup. }
    split; [by eapply extends_trans|].
    constructor; [|done].
    by apply (extends_interned reg1 reg2), (extends_interned reg reg1).
  - intros [= <- <-]. split; [apply extends_refl|constructor].
Qed.

Lemma buildMessages_chain (this : Translator) (requested : LanguageTag)
    (reg : LanguageTags) (depth : nat) :
  reachable reg ->
  Forall (interned reg) (supportedLanguages this) ->
  7 <= depth ->
  exists chain reg',
    chain_of (pickBestMatching requested (supportedLanguages this)) chain /\
    reachable reg' /\ extends reg reg' /\ Forall (interned reg') chain /\
    TranslatorImpl.buildMessages depth this requested reg =
    Some (foldr (overlay this requested) (defaultMessages this requested) chain,
          reg').
Proof.
  intros Hreach Hsupported Hdepth.
  unfold TranslatorImpl.buildMessages.
  rewrite buildRecursive_overlays_chain.
  destruct (pickBestMatching requested (supportedLanguages this))
    as [best|] eqn:Hbest.
  - apply pickBestMatching_member in Hbest.
    rewrite Forall_forall in Hsupported.
    pose proof (specificity_bound (subtags best)) as Hbound.
    destruct (generalizations_total depth best reg Hreach
                (Hsupported _ Hbest) ltac:(lia))
      as (ups & reg' & Hgen & Hchain & Hreach' & Hext).
    destruct (generalizations_interned depth (Some best) reg reg'
                (best :: ups) Hreach) as [_ Hall]; [|done|].
    { intros tl [= <-]. by apply Hsupported. }
    rewrite Hgen.
    exists (best :: ups), reg'. split; [by exists ups|done].
  - destruct depth as [|depth]; [lia|]. simpl.
    exists [], reg. repeat split; try done. apply extends_refl.
Qed.

Lemma overlay_lookup (this : Translator) (requested tl : LanguageTag)
    (merged : Messages) (k : string) :
  overlay this requested tl merged !! k =
  match JsMap.get tl (translations this) with
  | Some translation =>
      match translation requested !! k with
      | Some v => Some v
      | None => merged !! k
      end
  | None => merged !! k
  end.
Proof.
  unfold overlay, spread.
  destruct (JsMap.get tl (translations this)) as [translation|]; [|done].
  rewrite lookup_union.
  destruct (translation requested !! k), (merged !! k); done.
Qed.

Lemma merged_keeps (this : Translator) (requested : LanguageTag)
    (base : Messages) (chain : list LanguageTag) (k : string) :
  is_Some (base !! k) ->
  is_Some (foldr (overlay this requested) base chain !! k).
Proof.
  intros Hk. induction chain as [|tl chain IH]; [done|]. simpl.
  rewrite overlay_lookup.
  destruct (JsMap.get tl (translations this)) as [translation|]; [|done].
  by destruct (translation requested !! k).
Qed.

Lemma merged_origin (this : Translator) (requested : LanguageTag)
    (base : Messages) (chain : list LanguageTag) (k v : string) :
  foldr (overlay this requested) base chain !! k = Some v ->
  base !! k = Some v \/
  exists tl translation,
    tl ∈ chain /\ JsMap.get tl (translations this) = Some translation /\
    translation requested !! k = Some v.
Proof.
  induction chain as [|tl chain IH]; simpl; [by left|].
  rewrite overlay_lookup.
  destruct (JsMap.get tl (translations this)) as [translation|] eqn:Hget.
  - destruct (translation requested !! k) as [v'|] eqn:Hk.
    + intros [= ->]. right. exists tl, translation.
      split; [apply list_elem_of_here|done].
    + intros [?|(tl' & tr & Hin & ? & ?)]%IH; [by left|].
      right. exists tl', tr. split; [by apply list_elem_of_further|done].
  - intros [?|(tl' & tr & Hin & ? & ?)]%IH; [by left|].
    right. exists tl', tr. split; [by apply list_elem_of_further|done].
Qed.

Lemma chain_language (requested : LanguageTag) (others chain : list LanguageTag) :
  chain_of (pickBestMatching requested others) chain ->
  Forall (fun tl => language tl = language requested) chain.
Proof.
  destruct (pickBestMatching requested others) as [best|] eqn:Hbest; simpl.
  - intros (ups & -> & Hchain).
    pose proof (pickBestMatching_language _ _ _ Hbest) as Hl.
    constructor; [done|].
    eapply Forall_impl; [by apply is_chain_language|]. simpl. congruence.
  - by intros ->.
Qed.

Lemma messagesFor_chain (this : Translator) (requested : LanguageTag)
    (reg : LanguageTags) (depth : nat) :
  reachable reg ->
  Forall (interned reg) (supportedLanguages this) ->
  (forall entry, messageCache this = Some entry ->
                 same (cache_language entry) requested = false) ->
  7 <= depth ->
  exists chain reg',
    chain_of (pickBestMatching requested (supportedLanguages this)) chain /\
    reachable reg' /\ extends reg reg' /\ Forall (interned reg') chain /\
    let merged :=
      foldr (overlay this requested) (defaultMessages this requested) chain in
    TranslatorImpl.messagesFor depth this requested reg
      = Some (merged,
              TranslatorImpl.withCache this
                (Some (mkMessageCache requested merged)),
              reg').
Proof.
  intros Hreach Hsupported Hcache Hdepth.
  destruct (buildMessages_chain this requested reg depth Hreach Hsupported
              Hdepth)
    as (chain & reg' & Hchain & Hreach' & Hext & Hall & Hbuild).
  exists chain, reg'. repeat split; try done. cbv zeta.
  unfold TranslatorImpl.messagesFor, CachedMessageProvider.messagesFor.
  destruct (messageCache this) as [entry|] eqn:Hentry.
  - rewrite (Hcache entry eq_refl). by rewrite Hbuild.
  - by rewrite Hbuild.
Qed.

Module JsMapFacts.

Lemma get_set {V : Type} (k : LanguageTag) (v : V) (m : JsMap.t V) :
  JsMap.get k (JsMap.set k v m) = Some v.
Proof.
  induction m as [|[k' v'] m IH]; simpl.
  - by rewrite same_refl.
  - destruct (same k' k) eqn:Hk; simpl; by rewrite Hk.
Qed.

Lemma keys_set {V : Type} (P : LanguageTag -> Prop) (k : LanguageTag) (v : V)
    (m : JsMap.t V) :
  P k -> Forall P (JsMap.keys m) -> Forall P (JsMap.keys (JsMap.set k v m)).
Proof.
  intros Hk. induction m as [|[k' v'] m IH]; simpl.
  - by repeat constructor.
  - intros [Hk' Hm]%Forall_cons. destruct (same k' k); simpl.
    + by constructor.
    + constructor; [done|by apply IH].
Qed.

Lemma get_key {V : Type} (k : LanguageTag) (v : V) (m : JsMap.t V) :
  JsMap.get k m = Some v ->
  exists k', k' ∈ JsMap.keys m /\ same k' k = true.
Proof.
  induction m as [|[k' v'] m IH]; simpl; [done|].
  destruct (same k' k) eqn:Hk.
  - intros _. exists k'. split; [apply list_elem_of_here|done].
  - intros (k'' & Hin & Hsame)%IH. exists k''.
    split; [by apply list_elem_of_further|done].
Qed.

End JsMapFacts.

(** A translation that [translations.get] finds for an object of the
    registry is registered for that very object. *)
Lemma registered_translation (this : Translator) (reg : LanguageTags)
    (tl : LanguageTag) (translation : LocalizedMessages) :
  reachable reg ->
  supportedLanguages this = JsMap.keys (translations this) ->
  Forall (interned reg) (supportedLanguages this) ->
  interned reg tl ->
  JsMap.get tl (translations this) = Some translation ->
  tl ∈ supportedLanguages this.
Proof.
  intros Hreach Hkeys Hsupported Htl Hget.
  destruct (JsMapFacts.get_key _ _ _ Hget) as (k' & Hin & Hsame).
  rewrite <- Hkeys in Hin. rewrite Forall_forall in Hsupported.
  by rewrite <- (same_interned reg k' tl Hreach (Hsupported _ Hin) Htl Hsame).
Qed.

(** X14.  In a registry that the program can have built, for a
    translator whose supported languages are the keys of its
    translations, handed out by the registry, and whose cache does not
    hold the requested tag, [messagesFor] returns messages that answer
    every key of the default messages, and each of their messages is the
    default message of its key or a message that the translation
    registered for one of the supported languages gives for that key,
    the language of that supported tag being the language of the
    requested tag: never a message of another language. *)
Theorem messagesFor_keeps_the_default_keys
    (this : Translator) (requested : LanguageTag) (reg : LanguageTags)
    (depth : nat) :
  reachable reg ->
  supportedLanguages this = JsMap.keys (translations this) ->
  Forall (interned reg) (supportedLanguages this) ->
  (forall entry, messageCache this = Some entry ->
                 same (cache_language entry) requested = false) ->
  7 <= depth ->
  exists messages this' reg',
    TranslatorImpl.messagesFor depth this requested reg
      = Some (messages, this', reg') /\
    (forall k, is_Some (defaultMessages this requested !! k) ->
               is_Some (messages !! k)) /\
    (forall k v, messages !! k = Some v ->
       defaultMessages this requested !! k = Some v \/
       exists tl translation,
         tl ∈ supportedLanguages this /\
         language tl = language requested /\
         JsMap.get tl (translations this) = Some translation /\
         translation requested !! k = Some v).
Proof.
  intros Hreach Hkeys Hsupported Hcache Hdepth.
  destruct (messagesFor_chain this requested reg depth Hreach Hsupported
              Hcache Hdepth)
    as (chain & reg' & Hchain & Hreach' & Hext & Hall & Hm).
  eexists _, _, _. split; [exact Hm|]. split.
  - intros k. apply merged_keeps.
  - intros k v [?|(tl & translation & Hin & Hget & Hk)]%merged_origin;
      [by left|].
    right. exists tl, translation.
    pose proof (chain_language _ _ _ Hchain) as Hl.
    rewrite Forall_forall in Hl, Hall.
    split; [|split; [by apply Hl|done]].
    apply (registered_translation this reg' tl translation Hreach' Hkeys);
      [|by apply Hall|done].
    eapply Forall_impl; [exact Hsupported|]. intros t.
    by apply extends_interned.
Qed.

Lemma messagesFor_keeps_the_default_keys_witness :
  reachable exampleRegistry /\
  supportedLanguages exampleTranslator
    = JsMap.keys (translations exampleTranslator) /\
  Forall (interned exampleRegistry) (supportedLanguages exampleTranslator) /\
  messageCache exampleTranslator = None /\
  exists messages this' reg',
    TranslatorImpl.messagesFor 7 exampleTranslator swissGerman1901
      exampleRegistry = Some (messages, this', reg') /\
    (forall k,
       is_Some (defaultMessages exampleTranslator swissGerman1901 !! k) ->
       is_Some (messages !! k)) /\
    (forall k v, messages !! k = Some v ->
       defaultMessages exampleTranslator swissGerman1901 !! k = Some v \/
       exists tl translation,
         tl ∈ supportedLanguages exampleTranslator /\
         language tl = language swissGerman1901 /\
         JsMap.get tl (translations exampleTranslator) = Some translation /\
         translation swissGerman1901 !! k = Some v).
Proof.
  split; [exact reachable_exampleRegistry|]. split; [reflexivity|].
  split; [exact interned_exampleTranslator|]. split; [reflexivity|].
  exact (messagesFor_keeps_the_default_keys exampleTranslator swissGerman1901
           exampleRegistry 7 reachable_exampleRegistry eq_refl
           interned_exampleTranslator
           (fun entry H => ltac:(discriminate H)) (le_n 7)).
Defined.

(** X15.  After [supporting(text, translation)] on a translator whose
    supported languages the registry has handed out, [messagesFor] of the
    new translator for the tag of [text] answers every key of the
    translation with the message of the translation, unless the region of
    the tag is made of digits only. *)
Theorem supporting_then_messagesFor
    (this this' : Translator) (text : string)
    (translation : MessagesParameter) (reg reg1 : LanguageTags) :
  reachable reg ->
  Forall (interned reg) (JsMap.keys (translations this)) ->
  TranslatorImpl.supporting this text translation reg = (Return this', reg1) ->
  exists lang,
    languageTag text reg1 = (Return lang, reg1) /\
    (lettered_region lang ->
     exists messages this2 reg2,
       TranslatorImpl.messagesFor 7 this' lang reg1
         = Some (messages, this2, reg2) /\
       forall k v, localizedMessages translation lang !! k = Some v ->
                   messages !! k = Some v).
Proof.
  intros Hreach Hkeys.
  unfold TranslatorImpl.supporting, TranslatorImpl.partiallySupporting, tag_.
  pose proof (reachable_languageTag text reg Hreach) as Hreach1.
  pose proof (languageTag_coherent text reg (reachable_coherent _ Hreach))
    as Hstep.
  destruct (languageTag text reg) as [[lang|e] reg1'] eqn:Hparse; [|done].
  intros [= <- <-]. simpl in Hreach1. destruct Hstep as (_ & Hext & Hlang).
  pose proof (languageTag_interns _ _ _ _ Hparse) as Hk.
  exists lang. split.
  { unfold languageTag, fromString. by rewrite Hk. }
  intros Hregion.
  set (translations' := JsMap.set lang (localizedMessages translation)
                          (translations this)).
  set (this' := TranslatorImpl.new (defaultMessages this) translations').
  assert (Hsupported : Forall (interned reg1') (supportedLanguages this')).
  { apply JsMapFacts.keys_set; [done|].
    eapply Forall_impl; [exact Hkeys|]. intros t. by apply extends_interned. }
  assert (Hget : JsMap.get lang (translations this')
                 = Some (localizedMessages translation))
    by apply JsMapFacts.get_set.
  assert (Hin : lang ∈ supportedLanguages this').
  { destruct (JsMapFacts.get_key _ _ _ Hget) as (k' & Hin & Hsame).
    rewrite Forall_forall in Hsupported.
    by rewrite <- (same_interned reg1' k' lang Hreach1 (Hsupported _ Hin) Hlang
                     Hsame). }
  destruct (messagesFor_chain this' lang reg1' 7 Hreach1 Hsupported
              ltac:(done) (le_n 7))
    as (chain & reg2 & Hchain & _ & _ & _ & Hm).
  rewrite (pickBestMatching_self reg1' lang _ Hreach1 Hsupported Hin Hregion)
    in Hchain.
  destruct Hchain as (ups & -> & _).
  eexists _, _, _. split; [exact Hm|].
  intros k v Hkv. simpl. rewrite overlay_lookup, Hget. by rewrite Hkv.
Qed.

Lemma supporting_then_messagesFor_witness :
  let de := tag_of_subtags 0 (mkSubTags "de" None None None None None) in
  let reg1 := snd (languageTag "de" no_tags) in
  let german :=
    TranslatorImpl.new (fun _ => defaultSet) [(de, fun _ => germanSet)] in
  reachable no_tags /\
  TranslatorImpl.supporting (translate (Plain defaultSet)) "de"
    (Plain germanSet) no_tags = (Return german, reg1) /\
  exists lang,
    languageTag "de" reg1 = (Return lang, reg1) /\
    (lettered_region lang ->
     exists messages this2 reg2,
       TranslatorImpl.messagesFor 7 german lang reg1
         = Some (messages, this2, reg2) /\
       forall k v, germanSet !! k = Some v -> messages !! k = Some v).
Proof.
  intros de reg1 german.
  assert (H : TranslatorImpl.supporting (translate (Plain defaultSet)) "de"
                (Plain germanSet) no_tags = (Return german, reg1))
    by reflexivity.
  split; [exact reachable_start|]. split; [exact H|].
  exact (supporting_then_messagesFor (translate (Plain defaultSet)) german
           "de" (Plain germanSet) no_tags reg1 reachable_start
           (Forall_nil_2 _) H).
Defined.

(** ** The preferred language *)





(** ** [extending] *)

Section ExtendingFacts.
Context {W : Type}.
Variable base extension : LanguageTag -> W -> option (Messages * W).

(** X17.  A provider made by [extending] asks the base and then the
    extension, in the world the base has left, unless its cache holds the
    requested tag.  Its messages answer a key with the message of the
    extension when the extension has that key, and with the message of
    the base otherwise; it caches them, and a second call for the same
    tag returns them without asking either provider. *)
Theorem extending_lets_the_extension_win
    (cache : option (MessageCache Messages)) (language : LanguageTag)
    (w w1 w2 : W) (fromBase fromExtension : Messages) :
  (forall entry, cache = Some entry ->
                 same (cache_language entry) language = false) ->
  base language w = Some (fromBase, w1) ->
  extension language w1 = Some (fromExtension, w2) ->
  exists messages,
    ExtendingMessageProvider.messagesFor base extension cache language w
      = Some (messages, Some (mkMessageCache language messages), w2) /\
    (forall k, messages !! k =
               match fromExtension !! k with
               | Some v => Some v
               | None => fromBase !! k
               end) /\
    (forall anyBase anyExtension : LanguageTag -> W -> option (Messages * W),
       ExtendingMessageProvider.messagesFor anyBase anyExtension
         (Some (mkMessageCache language messages)) language w2
       = Some (messages, Some (mkMessageCache language messages), w2)).
Proof.
  intros Hcache Hbase Hext.
  exists (spread fromBase fromExtension). split; [|split].
  - unfold ExtendingMessageProvider.messagesFor,
      CachedMessageProvider.messagesFor,
      ExtendingMessageProvider.buildMessages.
    destruct cache as [entry|].
    + rewrite (Hcache entry eq_refl), Hbase. simpl. by rewrite Hext.
    + rewrite Hbase. simpl. by rewrite Hext.
  - intros k. unfold spread. rewrite lookup_union.
    by destruct (fromExtension !! k), (fromBase !! k).
  - intros anyBase anyExtension.
    unfold ExtendingMessageProvider.messagesFor,
      CachedMessageProvider.messagesFor. simpl.
    by rewrite same_refl.
Qed.


End ExtendingFacts.

Lemma extending_lets_the_extension_win_witness :
  let base (language : LanguageTag) (calls : nat) :=
    Some (germanSet, S calls) in
  let extension (language : LanguageTag) (calls : nat) :=
    Some (swissSet, S calls) in
  exists messages,
    ExtendingMessageProvider.messagesFor base extension None swissGerman 0
      = Some (messages, Some (mkMessageCache swissGerman messages), 2) /\
    (forall k, messages !! k =
               match swissSet !! k with
               | Some v => Some v
               | None => germanSet !! k
               end) /\
    (forall anyBase anyExtension :
         LanguageTag -> nat -> option (Messages * nat),
       ExtendingMessageProvider.messagesFor anyBase anyExtension
         (Some (mkMessageCache swissGerman messages)) swissGerman 2
       = Some (messages, Some (mkMessageCache swissGerman messages), 2)).
Proof.
  intros base extension.
  exact (extending_lets_the_extension_win base extension None swissGerman
           0 1 2 germanSet swissSet
           (fun entry H => ltac:(discriminate H)) eq_refl eq_refl).
Defined.

(** X18.  For two translators in a registry that the program can have
    built, neither of which has the requested tag in its cache, the
    provider that [extending] makes of them answers every key of the
    default messages of the base and of the extension, and a key of the
    default messages of the extension is always answered by the
    extension, with its default message or with the message of the
    translation registered for one of its supported languages, of the
    language of the requested tag, whatever the base has for that key.
    In the test the German messages are those of the overrides for
    [welcome] and [newValue] and those of the base for [cancel] and
    [ok]. *)
Theorem extending_translators (w : Extending) (requested : LanguageTag) :
  reachable (extending_registry w) ->
  Forall (interned (extending_registry w))
    (supportedLanguages (base_translator w)) ->
  supportedLanguages (extension_translator w)
    = JsMap.keys (translations (extension_translator w)) ->
  Forall (interned (extending_registry w))
    (supportedLanguages (extension_translator w)) ->
  (forall entry, messageCache (base_translator w) = Some entry ->
                 same (cache_language entry) requested = false) ->
  (forall entry, messageCache (extension_translator w) = Some entry ->
                 same (cache_language entry) requested = false) ->
  exists messages w',
    extending_messagesFor 7 requested w = Some (messages, w') /\
    (forall k,
       is_Some (defaultMessages (base_translator w) requested !! k) ->
       is_Some (messages !! k)) /\
    (forall k,
       is_Some (defaultMessages (extension_translator w) requested !! k) ->
       exists v,
         messages !! k = Some v /\
         (defaultMessages (extension_translator w) requested !! k = Some v \/
          exists tl translation,
            tl ∈ supportedLanguages (extension_translator w) /\
            language tl = language requested /\
            JsMap.get tl (translations (extension_translator w))
              = Some translation /\
            translation requested !! k = Some v)) /\
    overrides_for "de"
    = Some (<["cancel" := "Abbrechen"]> (<["ok" := "OK"]> deMessageOverrides)).
Proof.
  intros Hreach Hb Hkeys He Hcb Hce.
  destruct (messagesFor_chain (base_translator w) requested _ 7 Hreach Hb Hcb
              (le_n 7)) as (cb & reg1 & Hchainb & Hreach1 & Hext1 & _ & Hmb).
  assert (He1 : Forall (interned reg1)
                  (supportedLanguages (extension_translator w))).
  { eapply Forall_impl; [exact He|]. intros t. by apply extends_interned. }
  destruct (messagesFor_chain (extension_translator w) requested _ 7 Hreach1
              He1 Hce (le_n 7))
    as (ce & reg2 & Hchaine & Hreach2 & Hext2 & Hall & Hme).
  cbv zeta in Hmb, Hme.
  set (mb := foldr (overlay (base_translator w) requested)
               (defaultMessages (base_translator w) requested) cb) in *.
  set (me := foldr (overlay (extension_translator w) requested)
               (defaultMessages (extension_translator w) requested) ce) in *.
  exists (spread mb me). eexists.
  split; [|split; [|split; [|vm_compute; reflexivity]]].
  - unfold extending_messagesFor, ExtendingMessageProvider.messagesFor,
      CachedMessageProvider.messagesFor,
      ExtendingMessageProvider.buildMessages, messagesFor_base,
      messagesFor_extension.
    rewrite Hmb. simpl. rewrite Hme. simpl. reflexivity.
  - intros k Hk. unfold spread. rewrite lookup_union.
    pose proof (merged_keeps (base_translator w) requested _ cb k Hk) as [v Hv].
    fold mb in Hv. rewrite Hv. by destruct (me !! k).
  - intros k Hk.
    pose proof (merged_keeps (extension_translator w) requested _ ce k Hk)
      as [v Hv].
    fold me in Hv. exists v. split.
    + unfold spread. rewrite lookup_union, Hv. by destruct (mb !! k).
    + apply merged_origin in Hv as [?|(tl & translation & Hin & Hget & Hkv)];
        [by left|].
      right. exists tl, translation.
      pose proof (chain_language _ _ _ Hchaine) as Hl.
      rewrite Forall_forall in Hl, Hall.
      split; [|split; [by apply Hl|done]].
      apply (registered_translation (extension_translator w) reg2 tl
               translation Hreach2 Hkeys); [|by apply Hall|done].
      eapply Forall_impl; [exact He1|]. intros t.
      by apply extends_interned.
Qed.

Lemma extending_translators_witness :
  let w := mkExtending exampleTranslator (translate (Plain swissSet))
             exampleRegistry in
  reachable exampleRegistry /\
  Forall (interned exampleRegistry) (supportedLanguages exampleTranslator) /\
  supportedLanguages (extension_translator w)
    = JsMap.keys (translations (extension_translator w)) /\
  exists messages w',
    extending_messagesFor 7 swissGerman1901 w = Some (messages, w') /\
    (forall k, is_Some (defaultSet !! k) -> is_Some (messages !! k)) /\
    (forall k, is_Some (swissSet !! k) ->
       exists v,
         messages !! k = Some v /\
         (swissSet !! k = Some v \/
          exists tl translation,
            tl ∈ supportedLanguages (extension_translator w) /\
            language tl = language swissGerman1901 /\
            JsMap.get tl (translations (extension_translator w))
              = Some translation /\
            translation swissGerman1901 !! k = Some v)) /\
    overrides_for "de"
    = Some (<["cancel" := "Abbrechen"]> (<["ok" := "OK"]> deMessageOverrides)).
Proof.
  intros w.
  split; [exact reachable_exampleRegistry|].
  split; [exact interned_exampleTranslator|]. split; [reflexivity|].
  exact (extending_translators w swissGerman1901 reachable_exampleRegistry
           interned_exampleTranslator eq_refl (Forall_nil_2 _)
           (fun entry H => ltac:(discriminate H))
           (fun entry H => ltac:(discriminate H))).
Defined.

(** ** [plural] *)

Import PluralFormat.

(** X19.  The format string that [plural] hands to the message-format
    library offers the branch of a category exactly when the member of
    that category is set (and not the empty string, for [zero], [one] and
    [two]), and always offers [other].  So whenever the library answers
    with a category that the format string offers, the function returns a
    message, never [undefined] and never a [TypeError]; and whenever it
    answers with anything but the five category names, the function
    returns [other(n)]. *)
Theorem plural_of_an_offered_category {Number : Type}
    (format : LanguageTag -> string -> Number -> string)
    (language : LanguageTag) (p : Plural) (n : Number) :
  let s := format language (msgFormat p) n in
  (includes ("{" +:+ s +:+ "}") (msgFormat p) = true ->
   exists text, plural format language p n = PluralMessage text) /\
  (s ∉ ["zero"; "one"; "two"; "few"; "many"] ->
   plural format language p n = PluralMessage (other p n)) /\
  includes "{zero}" (msgFormat p) = truthy_opt (zero p) /\
  includes "{one}" (msgFormat p) = truthy_opt (one p) /\
  includes "{two}" (msgFormat p) = truthy_opt (two p) /\
  includes "{few}" (msgFormat p) = isSome (few p) /\
  includes "{many}" (msgFormat p) = isSome (many p) /\
  includes "{other}" (msgFormat p) = true.
Proof.
  intros s. unfold plural. fold s. clearbody s.
  assert (Hoffer : forall name : string,
    name ∈ ["zero"; "one"; "two"; "few"; "many"] ->
    includes ("{" +:+ name +:+ "}") (msgFormat p) =
    if bool_decide (name = "zero") then truthy_opt (zero p)
    else if bool_decide (name = "one") then truthy_opt (one p)
    else if bool_decide (name = "two") then truthy_opt (two p)
    else if bool_decide (name = "few") then isSome (few p)
    else isSome (many p)).
  { intros name Hname. unfold msgFormat.
    destruct (truthy_opt (zero p)), (truthy_opt (one p)),
      (truthy_opt (two p)), (isSome (few p)), (isSome (many p));
      repeat (apply elem_of_cons in Hname as [->|Hname];
              [vm_compute; reflexivity|]);
      by apply elem_of_nil in Hname. }
  split.
  - intros Hincl.
    destruct (decide (s ∈ ["zero"; "one"; "two"; "few"; "many"]))
      as [Hin|Hout].
    + rewrite (Hoffer s Hin) in Hincl.
      repeat case_bool_decide.
      * destruct (zero p); [by eexists|done].
      * destruct (one p); [by eexists|done].
      * destruct (two p); [by eexists|done].
      * destruct (few p); [by eexists|done].
      * destruct (many p); [by eexists|done].
      * by eexists.
    + repeat case_bool_decide; subst;
        try (by destruct Hout; repeat constructor).
      by eexists.
  - split.
    + intros Hout.
      repeat case_bool_decide; subst; try done;
        by destruct Hout; repeat constructor.
    + unfold msgFormat.
      destruct (truthy_opt (zero p)), (truthy_opt (one p)),
        (truthy_opt (two p)), (isSome (few p)), (isSome (many p));
        repeat split; vm_compute; reflexivity.
Qed.

(** ** The registered formats *)

Import Formats.



(** ** What the tag pattern accepts, completely *)

Module Completeness.
Import JsString Text StringFacts RegExp Runs RegExpFacts Guarded.

Section Completeness.
Variable ignoreCase : bool.

Lemma iter_consumes R (n : nat) :
  (forall x c y c', R x c y c' -> exists w, consumes x y w) ->
  forall x c y c', iter R n x c y c' -> exists w, consumes x y w.
Proof.
  intros HR. induction n as [|n IH]; intros x c y c'; simpl.
  - intros [-> _]. exists "". apply consumes_refl.
  - intros (z & c1 & (w1 & H1)%HR & (w2 & H2)%IH).
    exists (w1 +:+ w2). by eapply consumes_trans.
Qed.

Lemma runs_consumes (r : re) :
  forall x c y c', runs ignoreCase r x c y c' -> exists w, consumes x y w.
Proof.
  induction r as [| |p|ranges|r1 IH1 r2 IH2|r1 IH1 r2 IH2|min max r IH|n r IH|r IH];
    intros x c y c'; simpl.
  - intros (_ & -> & _). exists "". apply consumes_refl.
  - intros (_ & -> & _). exists "". apply consumes_refl.
  - intros (ch & Hadv & _). eexists. by eapply consumes_advance.
  - intros (ch & Hadv & _). eexists. by eapply consumes_advance.
  - intros (z & c1 & (w1 & H1)%IH1 & (w2 & H2)%IH2).
    exists (w1 +:+ w2). by eapply consumes_trans.
  - intros [H|H]; [by eapply IH1|by eapply IH2].
  - intros (n & _ & _ & Hiter). by eapply iter_consumes.
  - intros (c1 & H & _). by eapply IH.
  - apply IH.
Qed.

Lemma runs_forward (r : re) x c y c' :
  runs ignoreCase r x c y c' -> pos x <= pos y.
Proof. intros (w & _ & ->)%runs_consumes. lia. Qed.

Lemma consuming_runs (r : re) :
  consuming r = true ->
  forall x c y c', runs ignoreCase r x c y c' -> pos x < pos y.
Proof.
  induction r as [| |p|ranges|r1 IH1 r2 IH2|r1 IH1 r2 IH2|min max r IH|n r IH|r IH];
    simpl; intros Hr x c y c'; try done.
  - intros (ch & (_ & ->)%consumes_advance & _). simpl. lia.
  - intros (ch & (_ & ->)%consumes_advance & _). simpl. lia.
  - intros (z & c1 & H1 & H2).
    pose proof (runs_forward _ _ _ _ _ H1).
    pose proof (runs_forward _ _ _ _ _ H2).
    apply orb_true_iff in Hr as [Hr|Hr].
    + specialize (IH1 Hr _ _ _ _ H1). lia.
    + specialize (IH2 Hr _ _ _ _ H2). lia.
  - apply andb_true_iff in Hr as [Hr1 Hr2].
    intros [H|H]; [by eapply IH1|by eapply IH2].
  - apply andb_true_iff in Hr as [Hmin%Nat.ltb_lt Hr].
    intros (n & Hn & _ & Hiter).
    destruct n as [|n]; [lia|]. simpl in Hiter.
    destruct Hiter as (z & c1 & H1 & Hiter).
    apply (iter_consumes _ _ (runs_consumes r)) in Hiter as (w & _ & ->).
    specialize (IH Hr _ _ _ _ H1). lia.
  - intros (c1 & H & _). by eapply IH.
  - by apply IH.
Qed.

Lemma iter_count R (n : nat) :
  (forall x c y c', R x c y c' -> pos x < pos y) ->
  forall x c y c', iter R n x c y c' -> pos x + n <= pos y.
Proof.
  intros HR. induction n as [|n IH]; intros x c y c'; simpl.
  - intros [-> _]. lia.
  - intros (z & c1 & H1%HR & H2%IH). lia.
Qed.

Lemma repeat_complete R step k :
  complete_step R step ->
  (forall x c y c', R x c y c' -> pos x < pos y) ->
  forall budget n min x c y c',
    iter R n x c y c' -> min <= n -> n <= budget ->
    is_Some (k y c') ->
    is_Some (repeat step k budget min x c).
Proof.
  intros Hstep HR. induction budget as [|budget IH];
    intros n min x c y c' Hiter Hmin Hbudget Hk.
  - assert (n = 0) as -> by lia. assert (min = 0) as -> by lia.
    simpl in *. by destruct Hiter as [-> ->].
  - destruct n as [|n].
    + assert (min = 0) as -> by lia. simpl in *.
      destruct Hiter as [-> ->].
      by destruct (step x c _).
    + simpl in Hiter. destruct Hiter as (z & c1 & H1 & Hiter).
      assert (Hiterate : is_Some (step x c (fun y0 c0 =>
                if (min =? 0)%nat && (pos y0 =? pos x)%nat then None
                else repeat step k budget (Nat.pred min) y0 c0))).
      { apply (Hstep _ _ _ _ _ H1).
        pose proof (HR _ _ _ _ H1) as Hlt.
        replace (pos z =? pos x)%nat with false
          by (symmetry; apply Nat.eqb_neq; lia).
        rewrite andb_false_r.
        apply (IH n (Nat.pred min) _ _ _ _ Hiter); (lia || done). }
      simpl. destruct (min =? 0)%nat; [|done].
      by destruct Hiterate as [res ->].
Qed.

Lemma m_complete (r : re) :
  guarded r = true ->
  complete_step (runs ignoreCase r) (m ignoreCase r).
Proof.
  induction r as [| |p|ranges|r1 IH1 r2 IH2|r1 IH1 r2 IH2|min max r IH|n r IH|r IH];
    simpl; intros Hr x c y c' k.
  - intros (-> & -> & ->) Hk. by rewrite Nat.eqb_refl.
  - intros (Hrest & -> & ->) Hk. by rewrite Hrest.
  - intros (ch & -> & -> & ->) Hk. done.
  - intros (ch & -> & -> & ->) Hk. done.
  - apply andb_true_iff in Hr as [Hr1 Hr2].
    intros (z & c1 & H1 & H2) Hk.
    apply (IH1 Hr1 _ _ _ _ _ H1). by apply (IH2 Hr2 _ _ _ _ _ H2).
  - apply andb_true_iff in Hr as [Hr1 Hr2].
    intros [H|H] Hk.
    + by destruct (IH1 Hr1 _ _ _ _ _ H Hk) as [res ->].
    + destruct (m ignoreCase r1 x c k); [done|]. by apply (IH2 Hr2 _ _ _ _ _ H).
  - apply andb_true_iff in Hr as [Hc Hg].
    intros (n & Hmin & Hmax & Hiter) Hk.
    apply (repeat_complete _ _ _ (IH Hg) (consuming_runs r Hc) _ n _ _ _ _ _
             Hiter Hmin); [|done].
    unfold budget_of. destruct max as [mx|]; [done|].
    pose proof (iter_count _ n (consuming_runs r Hc) _ _ _ _ Hiter) as Hcount.
    destruct (iter_consumes _ n (runs_consumes r) _ _ _ _ Hiter)
      as (w & Hrest & Hpos).
    rewrite Hrest, length_app. lia.
  - intros (c1 & H & ->) Hk. by apply (IH Hr _ _ _ _ _ H).
  - intros H Hk. by apply (IH Hr _ _ _ _ _ H).
Qed.

End Completeness.
End Completeness.

Module Acceptance.
Import JsString Text StringFacts RegExp Runs RegExpFacts Shape ShapeFacts
       Groups PatternFacts Guarded Completeness.

Lemma letter_in_class (c : ascii) :
  is_lower c = true -> cls_matches true [("a", "z")]%char c = true.
Proof. each_char c. Qed.

Lemma digit_in_class (c : ascii) :
  is_digit c = true -> cls_matches true [("0", "9")]%char c = true.
Proof. each_char c. Qed.

Lemma alnum_in_class (c : ascii) :
  lower_alnum c = true ->
  cls_matches true [("a", "z"); ("0", "9")]%char c = true.
Proof. each_char c. Qed.

Lemma digit_or_letter_in_class (c : ascii) :
  lower_alnum c = true ->
  cls_matches true [("0", "9"); ("a", "z")]%char c = true.
Proof. each_char c. Qed.

Lemma takes_seq (r1 r2 : re) (w1 w2 : string) :
  takes r1 w1 -> takes r2 w2 -> takes (Seq r1 r2) (w1 +:+ w2).
Proof.
  intros H1 H2 p s c.
  destruct (H1 p (w2 +:+ s) c) as [c1 Hc1].
  destruct (H2 (p + String.length w1) s c1) as [c2 Hc2].
  exists c2. simpl. exists (St (p + String.length w1) (w2 +:+ s)), c1.
  rewrite app_assoc, length_app, Nat.add_assoc. by split.
Qed.

Lemma takes_alt_l (r1 r2 : re) (w : string) :
  takes r1 w -> takes (Alt r1 r2) w.
Proof. intros H p s c. destruct (H p s c) as [c' Hc']. exists c'. by left. Qed.

Lemma takes_alt_r (r1 r2 : re) (w : string) :
  takes r2 w -> takes (Alt r1 r2) w.
Proof. intros H p s c. destruct (H p s c) as [c' Hc']. exists c'. by right. Qed.

Lemma takes_grp (n : nat) (r : re) (w : string) :
  takes r w -> takes (Grp n r) w.
Proof.
  intros H p s c. destruct (H p s c) as [c' Hc']. eexists. simpl.
  exists c'. by split.
Qed.

Lemma takes_ngrp (r : re) (w : string) : takes r w -> takes (NGrp r) w.
Proof. done. Qed.

Lemma takes_opt_none (r : re) : takes (Opt r) "".
Proof.
  intros p s c. exists c. simpl. exists 0.
  split; [lia|]. split; [lia|]. simpl. by rewrite Nat.add_0_r.
Qed.

Lemma takes_opt_some (r : re) (w : string) : takes r w -> takes (Opt r) w.
Proof.
  intros H p s c. destruct (H p s c) as [c' Hc']. exists c'. simpl.
  exists 1. split; [lia|]. split; [lia|]. simpl. by eexists _, _.
Qed.

Lemma takes_dash : takes dash "-".
Proof.
  intros p s c. exists c. simpl. exists "-"%char.
  split; [by rewrite Nat.add_1_r|done].
Qed.

Lemma takes_cls (ranges : list (ascii * ascii)) (ch : ascii) :
  cls_matches true ranges ch = true -> takes (Cls ranges) (String ch "").
Proof.
  intros Hch p s c. exists c. simpl. exists ch.
  split; [by rewrite Nat.add_1_r|done].
Qed.

Lemma iter_cls_word (ranges : list (ascii * ascii)) (ok : ascii -> bool)
    (w : string) :
  (forall ch, ok ch = true -> cls_matches true ranges ch = true) ->
  all ok w = true ->
  forall p s c,
    iter (runs true (Cls ranges)) (String.length w) (St p (w +:+ s)) c
      (St (p + String.length w) s) c.
Proof.
  intros Hok. induction w as [|ch w IH]; intros Hw p s c; simpl.
  - by rewrite Nat.add_0_r.
  - simpl in Hw. apply andb_true_iff in Hw as [Hch Hw].
    exists (St (S p) (w +:+ s)), c. split.
    + exists ch. split; [done|]. split; [by apply Hok|done].
    + replace (p + S (String.length w)) with (S p + String.length w) by lia.
      by apply IH.
Qed.

Lemma takes_times (lo hi : nat) (ranges : list (ascii * ascii))
    (ok : ascii -> bool) (w : string) :
  (forall ch, ok ch = true -> cls_matches true ranges ch = true) ->
  word lo hi ok w = true -> takes (times lo hi (Cls ranges)) w.
Proof.
  intros Hok [Hlen Hw]%word_spec p s c. exists c. simpl.
  exists (String.length w). split; [lia|]. split; [lia|].
  by apply (iter_cls_word ranges ok).
Qed.

Lemma takes_dash_then (r : re) (ok : string -> bool) (w : string) :
  (forall e, ok e = true -> takes r e) ->
  dash_then ok w -> takes (dash +> r) w.
Proof.
  intros Hr (e & -> & He).
  change (String "-" e) with ("-" +:+ e).
  apply takes_seq; [apply takes_dash|by apply Hr].
Qed.

Lemma takes_optional (r : re) (Q : string -> Prop) (w : string) :
  (forall w, Q w -> takes r w) ->
  optional_text Q w -> takes (Opt r) w.
Proof.
  intros Hr [->|Hw]; [apply takes_opt_none|by apply takes_opt_some, Hr].
Qed.

Lemma takes_variant (w : string) :
  dash_then variant_ok w ->
  takes (Alt (NGrp (dash +> times 5 8 lower_letter))
             (NGrp (dash +> digit +> times 3 3 alnum))) w.
Proof.
  intros (v & -> & H). change (String "-" v) with ("-" +:+ v).
  unfold variant_ok in H. apply orb_true_iff in H as [H|H].
  - apply takes_alt_l, takes_ngrp, takes_seq; [apply takes_dash|].
    by apply (takes_times _ _ _ is_lower); [apply letter_in_class|].
  - destruct v as [|d t]; [done|]. apply andb_true_iff in H as [Hd Ht].
    apply takes_alt_r, takes_ngrp, takes_seq; [apply takes_dash|].
    change (String d t) with (String d "" +:+ t).
    apply takes_seq; [by apply takes_cls, digit_in_class|].
    by apply (takes_times _ _ _ lower_alnum); [apply alnum_in_class|].
Qed.

Lemma takes_region (w : string) :
  region_text w ->
  takes (Alt (dash +> times 2 2 lower_letter) (times 3 3 digit)) w.
Proof.
  intros [H|H].
  - apply takes_alt_l. revert H. apply takes_dash_then. intros e He.
    by apply (takes_times _ _ _ is_lower); [apply letter_in_class|].
  - apply takes_alt_r.
    by apply (takes_times _ _ _ is_digit); [apply digit_in_class|].
Qed.

Lemma dashed_cons (w : string) (ws : list string) :
  dashed (w :: ws) = "-" +:+ w +:+ dashed ws.
Proof. reflexivity. Qed.

(** The parts of an extension after its first word. *)
Lemma iter_parts_of (ws : list string) :
  forallb part_ok ws = true ->
  forall p s c, exists c',
    iter (runs true (NGrp (dash +> times 1 8 alnum))) (length ws)
      (St p (dashed ws +:+ s)) c
      (St (p + String.length (dashed ws)) s) c'.
Proof.
  induction ws as [|w ws IH]; intros Hws p s c.
  - exists c. simpl. by rewrite Nat.add_0_r.
  - cbn [forallb] in Hws. apply andb_true_iff in Hws as [Hw Hws].
    assert (Hpart : takes (NGrp (dash +> times 1 8 alnum)) ("-" +:+ w)).
    { apply takes_ngrp, takes_seq; [apply takes_dash|].
      by apply (takes_times _ _ _ lower_alnum); [apply alnum_in_class|]. }
    destruct (Hpart p (dashed ws +:+ s) c) as [c1 Hc1].
    destruct (IH Hws (p + String.length ("-" +:+ w)) s c1) as [c2 Hc2].
    exists c2. cbn [length iter dashed].
    eexists _, c1. split.
    + change (String "-" (w +:+ dashed ws)) with ("-" +:+ w +:+ dashed ws).
      rewrite <- (app_assoc "-" w), app_assoc. exact Hc1.
    + replace (p + String.length (String "-" (w +:+ dashed ws)))
        with (p + String.length ("-" +:+ w) + String.length (dashed ws)).
      * exact Hc2.
      * change (String "-" (w +:+ dashed ws)) with ("-" +:+ w +:+ dashed ws).
        rewrite <- (app_assoc "-" w), !length_app. lia.
Qed.

Lemma takes_extension (w : string) :
  dash_then extension_ok w ->
  takes (dash +> digit_or_letter +>
         Plus (NGrp (dash +> times 1 8 alnum))) w.
Proof.
  intros (x & -> & Hx). unfold extension_ok in Hx.
  rewrite <- dashed_tokens.
  destruct (tokens x) as [|single [|w ws]]; try done.
  cbn [extension_tokens_ok] in Hx. apply andb_true_iff in Hx as [Hsingle Hws].
  apply word_spec in Hsingle as [Hlen Hsingle].
  destruct single as [|ch [|? ?]]; simpl in Hlen; try lia.
  simpl in Hsingle. rewrite andb_true_r in Hsingle.
  rewrite dashed_cons.
  apply takes_seq; [apply takes_dash|].
  apply takes_seq; [by apply takes_cls, digit_or_letter_in_class|].
  intros p s c.
  destruct (iter_parts_of (w :: ws) Hws p s c) as [c' Hc'].
  exists c'. simpl. exists (length (w :: ws)).
  split; [simpl; lia|]. split; [done|]. exact Hc'.
Qed.

(** The whole pattern takes the text of well-formed groups. *)
Lemma pattern_takes (g : groups) :
  well_formed g ->
  exists c', runs true pattern (St 0 (text_of g)) ∅
               (St (String.length (text_of g)) "") c'.
Proof.
  intros (Hl & He & Hs & Hr & Hv & Hx).
  assert (Hbody : takes
    (Grp 1 (times 2 3 lower_letter) +>
     Opt (Grp 2 (dash +> times 3 3 lower_letter)) +>
     Opt (Grp 3 (dash +> times 4 4 lower_letter)) +>
     Opt (Grp 4 (Alt (dash +> times 2 2 lower_letter) (times 3 3 digit))) +>
     Opt (Grp 5 (Alt (NGrp (dash +> times 5 8 lower_letter))
                     (NGrp (dash +> digit +> times 3 3 alnum)))) +>
     Opt (Grp 6 (dash +> digit_or_letter +>
                 Plus (NGrp (dash +> times 1 8 alnum)))))%re
    (text_of g)).
  { unfold text_of. repeat apply takes_seq.
    - apply takes_grp.
      by apply (takes_times _ _ _ is_lower); [apply letter_in_class|].
    - revert He. apply takes_optional. intros w Hw. apply takes_grp.
      revert Hw. apply takes_dash_then. intros e Hok.
      by apply (takes_times _ _ _ is_lower); [apply letter_in_class|].
    - revert Hs. apply takes_optional. intros w Hw. apply takes_grp.
      revert Hw. apply takes_dash_then. intros e Hok.
      by apply (takes_times _ _ _ is_lower); [apply letter_in_class|].
    - revert Hr. apply takes_optional. intros w Hw.
      by apply takes_grp, takes_region.
    - revert Hv. apply takes_optional. intros w Hw.
      by apply takes_grp, takes_variant.
    - revert Hx. apply takes_optional. intros w Hw.
      by apply takes_grp, takes_extension. }
  destruct (Hbody 0 "" ∅) as [c' Hc']. rewrite app_nil_r in Hc'.
  exists c'. unfold pattern. cbn [runs].
  exists (St 0 (text_of g)), ∅. split; [done|].
  cbn [runs] in Hc'.
  destruct Hc' as (z1 & c1 & H1 & z2 & c2 & H2 & z3 & c3 & H3 &
                   z4 & c4 & H4 & z5 & c5 & H5 & H6).
  exists z1, c1. split; [exact H1|]. exists z2, c2. split; [exact H2|].
  exists z3, c3. split; [exact H3|]. exists z4, c4. split; [exact H4|].
  exists z5, c5. split; [exact H5|].
  eexists _, c'. split; [exact H6|]. done.
Qed.

Lemma exec_accepts (g : groups) :
  well_formed g -> is_Some (exec true pattern (text_of g)).
Proof.
  intros (c' & Hruns)%pattern_takes.
  assert (Hm : is_Some (m true pattern (St 0 (text_of g)) ∅
                          (fun y c => Some (y, c)))).
  { apply (m_complete true pattern eq_refl _ _ _ _ _ Hruns). done. }
  destruct Hm as [[y c] Hm]. unfold exec.
  destruct (String.length (text_of g)); cbn [exec_from]; unfold match_at;
    by rewrite Hm.
Qed.

End Acceptance.

Import RegExp Groups PatternFacts ParseFacts Acceptance.

(** X21.  For a text of ASCII characters that the registry does not hold
    yet, [languageTag] returns a tag exactly when the text in lower case
    is made of the groups of the pattern: a language of two or three
    letters, then, each optional, a dash and three letters, a dash and
    four letters, a region that is a dash and two letters or three digits
    without a dash, a variant and an extension.  The tag is then the new
    object built from these groups without their first characters,
    interned under the text in lower case; otherwise the call throws the
    message of that text and leaves the registry as it is. *)
Theorem languageTag_parses_the_pattern (text : string) (reg : LanguageTags) :
  ascii_text text ->
  instances reg !! toLowerCase text = None ->
  match languageTag text reg with
  | (Return t, reg') =>
      exists g,
        well_formed g /\ toLowerCase text = text_of g /\
        t = tag_of_subtags (allocated reg) (subtags_of_groups g) /\
        reg' = mkLanguageTags (<[toLowerCase text := t]> (instances reg))
                 (S (allocated reg))
  | (Throw e, reg') =>
      e = "Invalid language tag " +:+ toLowerCase text /\ reg' = reg /\
      ~ exists g, well_formed g /\ toLowerCase text = text_of g
  end.
Proof.
  intros _ Hfresh. unfold languageTag, fromString. rewrite Hfresh.
  destruct (exec true pattern (toLowerCase text)) as [c|] eqn:Hexec.
  - destruct (exec_pattern _ _ (toLowerCase_not_upper text) Hexec)
      as (g & Htext & Hwf & ->).
    rewrite (createFromString_groups _ _ _ Hexec). by exists g.
  - unfold createFromString. rewrite Hexec. split; [done|]. split; [done|].
    intros (g & Hwf & Htext).
    destruct (exec_accepts g Hwf) as [c Hc]. congruence.
Qed.

Lemma languageTag_parses_the_pattern_witness :
  ascii_text "de-CH" /\
  instances no_tags !! toLowerCase "de-CH" = None /\
  exists g,
    well_formed g /\ toLowerCase "de-CH" = text_of g /\
    swissGerman = tag_of_subtags (allocated no_tags) (subtags_of_groups g) /\
    swissRegistry
    = mkLanguageTags
        (<[toLowerCase "de-CH" := swissGerman]> (instances no_tags))
        (S (allocated no_tags)).
Proof.
  split; [reflexivity|]. split; [reflexivity|].
  exact (languageTag_parses_the_pattern "de-CH" no_tags eq_refl eq_refl).
Defined.
